(** * Textual: the caches and the tree control's traversal and cursor

    A shallow embedding of [src/textual/_cache.py] (class [LRUCache] and
    the decorator [fifo_cache]) and of [src/textual/widgets/_tree_node.py]
    and [_tree_control.py] (classes [TreeNode] and [TreeControl]), with the
    properties the specification states about them and further properties
    of the code.

    Python objects that are shared and mutated in place (the links of the
    cache's doubly linked ring, the nodes of the tree) live in an explicit
    store and are named by references. *)

From stdpp Require Import base option list gmap strings.
From Stdlib Require Import ZArith Lia.

Local Open Scope Z_scope.

(** The two exceptions the modelled code can raise. *)
Inductive exn := IndexError | KeyError.

(** * Part I: [LRUCache] *)

Module LRU.

(** References to the Python list objects used as links. *)
Abbreviation ref := nat.

Section Cache.
Context {K : Type} `{Countable K} {V : Type}.

(** A link is a Python list: the empty list [[]] the constructor and [clear]
    install as root, or [[PREV, NEXT, KEY, VALUE]]. *)
Inductive link :=
| Nil
| Link (PREV NEXT : ref) (KEY : K) (VALUE : V).

(** The attributes of an [LRUCache] instance, and the store of list objects
    they point into.  A new list object takes the next free position of the
    store; a list that is no longer referenced simply stays there. *)
Record LRUCache := mkLRU {
  maxsize : Z;
  cache : gmap K ref;
  full : bool;
  root : ref;
  heap : list link
}.

Definition with_cache (m : gmap K ref) (s : LRUCache) : LRUCache :=
  mkLRU (maxsize s) m (full s) (root s) (heap s).
Definition with_full (b : bool) (s : LRUCache) : LRUCache :=
  mkLRU (maxsize s) (cache s) b (root s) (heap s).
Definition with_root (r : ref) (s : LRUCache) : LRUCache :=
  mkLRU (maxsize s) (cache s) (full s) r (heap s).
Definition with_heap (h : list link) (s : LRUCache) : LRUCache :=
  mkLRU (maxsize s) (cache s) (full s) (root s) h.

(** ** A state and exception monad for the method bodies *)

Inductive outcome (A : Type) :=
| Ok (a : A) (s : LRUCache)
| Raise (e : exn).
Arguments Ok {A} a s.
Arguments Raise {A} e.

Definition M (A : Type) := LRUCache → outcome A.

Definition ret {A} (a : A) : M A := λ s, Ok a s.
Definition bind {A B} (m : M A) (f : A → M B) : M B :=
  λ s, match m s with Ok a s' => f a s' | Raise e => Raise e end.
Definition gets {A} (f : LRUCache → A) : M A := λ s, Ok (f s) s.
Definition modify (f : LRUCache → LRUCache) : M unit := λ s, Ok tt (f s).

Notation "'let*' x := m 'in' k" := (bind m (λ x, k))
  (at level 10, x name, m at level 100, k at level 200, only parsing).
Notation "'do' m 'in' k" := (bind m (λ _, k))
  (at level 10, m at level 100, k at level 200, only parsing).

(** ** List objects: indexing and item assignment *)

(** [r[0]], [r[1]], [r[2]], [r[3]]: an [IndexError] on the empty list. *)
Definition item0 (r : ref) : M ref := λ s,
  match heap s !! r with Some (Link p _ _ _) => Ok p s | _ => Raise IndexError end.
Definition item1 (r : ref) : M ref := λ s,
  match heap s !! r with Some (Link _ n _ _) => Ok n s | _ => Raise IndexError end.
Definition item2 (r : ref) : M K := λ s,
  match heap s !! r with Some (Link _ _ k _) => Ok k s | _ => Raise IndexError end.
Definition item3 (r : ref) : M V := λ s,
  match heap s !! r with Some (Link _ _ _ v) => Ok v s | _ => Raise IndexError end.

(** [r[0] = x] and [r[1] = x]: the list [r] is updated in place, so every
    holder of the reference sees the change. *)
Definition set_prev (x : ref) (l : link) : link :=
  match l with Link _ n k v => Link x n k v | Nil => Nil end.
Definition set_next (x : ref) (l : link) : link :=
  match l with Link p _ k v => Link p x k v | Nil => Nil end.

Definition setitem0 (r x : ref) : M unit := λ s,
  match heap s !! r with
  | Some (Link _ _ _ _) => Ok tt (with_heap (alter (set_prev x) r (heap s)) s)
  | _ => Raise IndexError
  end.
Definition setitem1 (r x : ref) : M unit := λ s,
  match heap s !! r with
  | Some (Link _ _ _ _) => Ok tt (with_heap (alter (set_next x) r (heap s)) s)
  | _ => Raise IndexError
  end.

(** [r[:] = [p, n, k, v]]: the object keeps its identity. *)
Definition slice_assign (r : ref) (l : link) : M unit :=
  modify (λ s, with_heap (<[r := l]> (heap s)) s).

(** A list display [[...]] creates a new object. *)
Definition alloc (l : link) : M ref := λ s,
  Ok (length (heap s)) (with_heap (heap s ++ [l]) s).

(** Truth value of a list: [not r]. *)
Definition is_empty (r : ref) : M bool := λ s,
  Ok (match heap s !! r with Some (Link _ _ _ _) => false | _ => true end) s.

(** [del self.cache[k]]: a [KeyError] when [k] is not a key. *)
Definition cache_delitem (k : K) : M unit := λ s,
  match cache s !! k with
  | Some _ => Ok tt (with_cache (delete k (cache s)) s)
  | None => Raise KeyError
  end.

(** ** The methods *)

(** [LRUCache(maxsize)] *)
Definition init (maxsize : Z) : LRUCache := mkLRU maxsize ∅ false 0%nat [Nil].

(** [__len__] *)
Definition len (s : LRUCache) : Z := Z.of_nat (size (cache s)).

(** [__contains__] *)
Definition contains (key : K) (s : LRUCache) : bool :=
  bool_decide (is_Some (cache s !! key)).

(** [clear] *)
Definition clear : M unit :=
  do modify (with_cache ∅) in
  do modify (with_full false) in
  let* r := alloc Nil in
  modify (with_root r).

(** [set], also bound to [__setitem__] *)
Definition set (key : K) (value : V) : M unit :=
  let* link := gets (λ s, cache s !! key) in
  match link with
  | None =>
      let* root_ := gets root in
      let* empty := is_empty root_ in
      do (if empty then
         slice_assign root_ (Link root_ root_ key value)
       else
         let* p := item0 root_ in
         let* new := alloc (Link p root_ key value) in
         do modify (with_root new) in
         let* r0 := item0 root_ in
         do setitem1 r0 new in
         setitem0 root_ new) in
      do modify (λ s, with_cache (<[key := root s]> (cache s)) s) in
      let* over := gets (λ s, full s || (maxsize s <? len s)) in
      if over then
        do modify (with_full true) in
        let* root_ := gets root in
        let* last := item0 root_ in
        let* l0 := item0 last in
        do setitem1 l0 root_ in
        let* l0 := item0 last in
        do setitem0 root_ l0 in
        let* k := item2 last in
        cache_delitem k
      else ret tt
  | Some _ => ret tt
  end.

(** [get] *)
Definition get (key : K) (default : V) : M V :=
  let* link := gets (λ s, cache s !! key) in
  match link with
  | None => ret default
  | Some link =>
      let* root_ := gets root in
      do (if decide (link = root_) then ret tt
       else
         let* l0 := item0 link in
         let* l1 := item1 link in
         do setitem1 l0 l1 in
         let* l1 := item1 link in
         let* l0 := item0 link in
         do setitem0 l1 l0 in
         let* root_ := gets root in
         let* r0 := item0 root_ in
         do setitem0 link r0 in
         do setitem1 link root_ in
         let* r0 := item0 root_ in
         do setitem1 r0 link in
         do setitem0 root_ link in
         modify (with_root link)) in
      item3 link
  end.

(** [__getitem__]: the body of [get] once more, after a dictionary
    subscript that raises [KeyError] on a key that is not cached. *)
Definition getitem (key : K) : M V :=
  let* link := gets (λ s, cache s !! key) in
  match link with
  | None => λ _, Raise KeyError
  | Some link =>
      let* root_ := gets root in
      do (if decide (link = root_) then ret tt
       else
         let* l0 := item0 link in
         let* l1 := item1 link in
         do setitem1 l0 l1 in
         let* l1 := item1 link in
         let* l0 := item0 link in
         do setitem0 l1 l0 in
         let* root_ := gets root in
         let* r0 := item0 root_ in
         do setitem0 link r0 in
         do setitem1 link root_ in
         let* r0 := item0 root_ in
         do setitem1 r0 link in
         do setitem0 root_ link in
         modify (with_root link)) in
      item3 link
  end.

(** ** Observations used to state the properties *)

(** The key of the most recently used entry: [self.root[2]]. *)
Definition mru (s : LRUCache) : option K :=
  match heap s !! root s with Some (Link _ _ k _) => Some k | _ => None end.

(** The key of the least recently used entry: [self.root[0][2]]. *)
Definition lru (s : LRUCache) : option K :=
  match heap s !! root s with
  | Some (Link p _ _ _) =>
      match heap s !! p with Some (Link _ _ k _) => Some k | _ => None end
  | _ => None
  end.

(** The value cached under a key, read without relinking:
    [self.cache[key][3]]. *)
Definition peek (key : K) (s : LRUCache) : option V :=
  match cache s !! key with
  | Some r => match heap s !! r with Some (Link _ _ _ v) => Some v | _ => None end
  | None => None
  end.

(** The keys met when following [NEXT] from a link, [n] links long. *)
Fixpoint walk (h : list link) (r : ref) (n : nat) : list K :=
  match n with
  | O => []
  | S n' =>
      match h !! r with
      | Some (Link _ nx k _) => k :: walk h nx n'
      | _ => []
      end
  end.

(** The recency order: the keys from the root along [NEXT], as many as the
    dictionary has. *)
Definition order (s : LRUCache) : list K :=
  walk (heap s) (root s) (size (cache s)).

End Cache.

Arguments link : clear implicits.
Arguments Nil {K V}.
Arguments Link {K V} PREV NEXT KEY VALUE.
Arguments LRUCache K {_ _} V.
Arguments outcome K {_ _} V A.
Arguments Ok {K _ _ V A} a s.
Arguments Raise {K _ _ V A} e.
Arguments M K {_ _} V A.

Notation "'let*' x := m 'in' k" := (bind m (λ x, k))
  (at level 10, x name, m at level 100, k at level 200, only parsing).
Notation "'do' m 'in' k" := (bind m (λ _, k))
  (at level 10, m at level 100, k at level 200, only parsing).

(** Running a sequence of calls, stopping at the first exception. *)
Inductive call (K V : Type) :=
| Set_ (k : K) (v : V)
| Get_ (k : K) (default : V)
| Clear_.
Arguments Set_ {K V} k v.
Arguments Get_ {K V} k default.
Arguments Clear_ {K V}.

Section Run.
Context {K : Type} `{Countable K} {V : Type}.

Definition exec (c : call K V) (s : LRUCache K V) : outcome K V unit :=
  match c with
  | Set_ k v => set k v s
  | Get_ k d => match get k d s with Ok _ s' => Ok tt s' | Raise e => Raise e end
  | Clear_ => clear s
  end.

Fixpoint run (cs : list (call K V)) (s : LRUCache K V) : outcome K V unit :=
  match cs with
  | [] => Ok tt s
  | c :: cs' =>
      match exec c s with
      | Ok _ s' => run cs' s'
      | Raise e => Raise e
      end
  end.

End Run.

(** ** The ring of links and the list it represents *)

Section Ring.
Context {K : Type} `{Countable K} {V : Type}.
Implicit Types (h : list (link K V)) (r p n a z : ref).

(** One entry of the recency list: the link that holds it, its key and its
    value. *)
Record entry := Entry { eref : ref; ekey : K; evalue : V }.
Implicit Types (e : entry) (l : list entry).

Definition refs (l : list entry) : list ref := eref <$> l.
Definition keys (l : list entry) : list K := ekey <$> l.

Definition first_ref l (d : ref) : ref :=
  match l with [] => d | e :: _ => eref e end.
Fixpoint last_ref l (d : ref) : ref :=
  match l with [] => d | e :: l' => last_ref l' (eref e) end.

(** [dseg h p l n]: the links of [l] are chained in [h] through [NEXT] and
    back through [PREV]; [p] precedes the first and [n] follows the last. *)
Fixpoint dseg h p l n : Prop :=
  match l with
  | [] => True
  | e :: l' =>
      h !! eref e = Some (Link p (first_ref l' n) (ekey e) (evalue e))
      ∧ dseg h (eref e) l' n
  end.

(** ** The representation invariant *)

Definition index (l : list entry) : list (K * ref) :=
  (λ e, (ekey e, eref e)) <$> l.

(** [rep s l]: the cache [s] holds exactly the entries of [l], most recently
    used first: the dictionary maps each key to its link, the links form a
    ring starting at the root, and an empty cache has the empty list as
    root. *)
Record rep (s : LRUCache K V) (l : list entry) : Prop := {
  rep_refs : NoDup (refs l);
  rep_keys : NoDup (keys l);
  rep_cache : cache s = list_to_map (index l);
  rep_root : first_ref l (root s) = root s;
  rep_nil : l = [] → heap s !! root s = Some Nil;
  rep_ring : dseg (heap s) (last_ref l (root s)) l (root s)
}.

(** The capacity invariant of a cache of positive capacity. *)
Record bounded (s : LRUCache K V) (l : list entry) : Prop := {
  bounded_pos : 1 ≤ maxsize s;
  bounded_len : Z.of_nat (length l) ≤ maxsize s;
  bounded_full : full s = true → Z.of_nat (length l) = maxsize s
}.

(** A reference that holds a link, not the empty list. *)
Definition is_link h r : Prop := ∃ p n k v, h !! r = Some (Link p n k v).

End Ring.

Arguments entry : clear implicits.
Arguments Entry {K V} eref ekey evalue.

(** ** The cache as a list of items

    [items] reads the cached keys and values off the ring, most recently
    used first; [lru_set], [lru_get] and the empty list are what the calls
    do to that list in a cache of capacity [m]. *)

Section Items.
Context {K : Type} `{Countable K} {V : Type}.
Implicit Types (l : list (K * V)).

Definition items (s : LRUCache K V) : list (K * V) :=
  omap (λ k, pair k <$> peek k s) (order s).

Definition lru_set (m : Z) (k : K) (v : V) l : list (K * V) :=
  if decide (k ∈ l.*1) then l
  else if m <? Z.of_nat (S (length l)) then (k, v) :: removelast l
  else (k, v) :: l.

Definition lru_get (k : K) l : list (K * V) :=
  filter (λ kv, kv.1 = k) l ++ filter (λ kv, kv.1 ≠ k) l.

Definition lru_step (m : Z) (c : call K V) l : list (K * V) :=
  match c with
  | Set_ k v => lru_set m k v l
  | Get_ k _ => lru_get k l
  | Clear_ => []
  end.

Definition lru_run (m : Z) (cs : list (call K V)) l : list (K * V) :=
  foldl (λ l c, lru_step m c l) l cs.

Definition item_of (e : entry K V) : K * V := (ekey e, evalue e).

(** ** The states of a cache whose capacity is not positive

    Such a cache never keeps an entry.  Its root is the empty list, or a
    link that points to itself and holds the key of the last [set]. *)
Definition fresh (s : LRUCache K V) : Prop :=
  cache s = ∅ ∧ full s = false ∧ heap s !! root s = Some Nil.

Definition void (kr : K) (s : LRUCache K V) : Prop :=
  cache s = ∅ ∧ full s = true
  ∧ ∃ vr, heap s !! root s = Some (Link (root s) (root s) kr vr).

End Items.

(** ** The constructor as a fallible call

    [__init__] stores [maxsize] and builds the empty dictionary and root; it
    has no [raise] and no check of its argument. *)
Definition construct {K : Type} `{Countable K} {V : Type} (maxsize : Z)
  : exn + LRUCache K V := inr (init maxsize).

(** The state a sequence of calls leaves, for stating examples. *)
Definition after {K : Type} `{Countable K} {V : Type}
    (cs : list (call K V)) (m : Z) : LRUCache K V :=
  match run cs (init m) with Ok _ s => s | Raise _ => init m end.

(** ** Call sequences used in the examples *)

Section Examples.
Local Open Scope string_scope.
Local Open Scope Z_scope.

Definition one_key : list (call string Z) := [Set_ "a" 1].
Definition same_key_twice : list (call string Z) := [Set_ "a" 1; Set_ "a" 2].
Definition old_key_again : list (call string Z) :=
  [Set_ "a" 1; Set_ "b" 2; Set_ "a" 3].
Definition three_calls : list (call string Z) :=
  [Set_ "a" 1; Set_ "b" 2; Get_ "a" 0].
Definition three_keys : list (call string Z) :=
  [Set_ "a" 1; Set_ "b" 2; Set_ "c" 3].
Definition two_keys : list (call string Z) := [Set_ "a" 1; Set_ "b" 2].

End Examples.

End LRU.

(** * Part I, continued: [fifo_cache] *)

Module Fifo.

(** What a call of the wrapper can raise: the [AssertionError] of its
    [assert], or an exception of the dictionary or the deque. *)
Inductive raised := Assertion | Builtin (e : exn).

Section Wrapper.
Context {A : Type} `{Countable A} {T : Type}.

(** [maxsize] is the argument of [fifo_cache], [func] the decorated
    function, here a function in the mathematical sense; [A] is the type of
    its tuples of positional arguments. *)
Variable maxsize : Z.
Variable func : A → T.

(** The two objects the wrapper closes over, [queue] and [cache], and the
    list of the arguments [func] has been called on, oldest first. *)
Record closure := mkClosure {
  queue : list A;
  cache : gmap A T;
  calls : list A
}.

Inductive outcome :=
| Return (result : T) (s : closure)
| Raise (e : raised).

(** [decorator(func)]: an empty deque and an empty dictionary. *)
Definition decorator : closure := mkClosure [] ∅ [].

(** The wrapper, called with positional arguments [args] and keyword
    arguments [kwargs]. *)
Definition wrapper {KW : Type} (args : A) (kwargs : list (string * KW))
    (s : closure) : outcome :=
  match cache s !! args with
  | Some r => Return r s
  | None =>
      match kwargs with
      | _ :: _ => Raise Assertion
      | [] =>
          let result := func args in
          let cache1 := <[args := result]> (cache s) in
          let calls1 := calls s ++ [args] in
          let queue1 := queue s ++ [args] in
          if maxsize <? Z.of_nat (length queue1) then
            match queue1 with
            | [] => Raise (Builtin IndexError)
            | x :: queue2 =>
                match cache1 !! x with
                | Some _ => Return result (mkClosure queue2 (delete x cache1) calls1)
                | None => Raise (Builtin KeyError)
                end
            end
          else Return result (mkClosure queue1 cache1 calls1)
      end
  end.

(** Calls of the wrapper one after the other, without keyword arguments;
    the results are collected. *)
Fixpoint run (inputs : list A) (s : closure) : option (list T * closure) :=
  match inputs with
  | [] => Some ([], s)
  | a :: inputs' =>
      match wrapper (KW:=Empty_set) a [] s with
      | Return r s1 =>
          match run inputs' s1 with
          | Some (rs, s2) => Some (r :: rs, s2)
          | None => None
          end
      | Raise _ => None
      end
  end.

(** What the closure keeps: the dictionary holds the results of [func] on
    the arguments in the queue, each once, and the queue is the end of the
    list of computed arguments. *)
Record inv (s : closure) : Prop := {
  inv_dom : ∀ a, a ∈ queue s ↔ is_Some (cache s !! a);
  inv_nodup : NoDup (queue s);
  inv_val : ∀ a t, cache s !! a = Some t → t = func a;
  inv_queue :
    queue s = drop (length (calls s) - Z.to_nat maxsize) (calls s)
}.

End Wrapper.

Arguments closure A {_ _} T.
Arguments outcome A {_ _} T.
Arguments decorator {A _ _ T}.
Arguments wrapper {A _ _ T} maxsize func {KW} args kwargs s.

(** The function [double] of the module: the square, behind
    [fifo_cache(10)]. *)
Definition double_func (n : Z) : Z := n * n.
Definition double (n : Z) (s : closure Z Z) : outcome Z Z :=
  wrapper (KW:=Empty_set) 10 double_func n [] s.

(** The five calls the module makes when it is loaded. *)
Definition printed : list Z := [1; 2; 2; 3; 4].

(** The closure of [double_func] behind a cache of [maxsize], after calls
    on [inputs]. *)
Definition after (maxsize : Z) (inputs : list Z) : closure Z Z :=
  match run maxsize double_func inputs decorator with
  | Some (_, s) => s
  | None => decorator
  end.

End Fifo.

(** * Part II: [TreeNode] and [TreeControl] *)

Module Tree.

(** Every [TreeNode] is created by its control, which hands it a fresh
    [node_id] and files it in [nodes] under that id.  The model names a node
    object by that id, and [nodes] is at once the control's dictionary and
    the store of the node objects: [parent] and [children] hold ids. *)
Abbreviation NodeID := nat.

Section Model.
Context {D : Type}.

(** The attributes of a [TreeNode] that the traversal and the cursor read
    ([_control] and the rich [_tree] only serve rendering). *)
Record TreeNode := mkNode {
  parent : option NodeID;
  node_id : NodeID;
  label : string;
  data : D;
  loaded : bool;
  expanded : bool;
  empty : bool;
  children : list NodeID
}.

Definition with_expanded (b : bool) (n : TreeNode) : TreeNode :=
  mkNode (parent n) (node_id n) (label n) (data n) (loaded n) b (empty n)
    (children n).
Definition with_empty (b : bool) (n : TreeNode) : TreeNode :=
  mkNode (parent n) (node_id n) (label n) (data n) (loaded n) (expanded n) b
    (children n).
Definition append_child (i : NodeID) (n : TreeNode) : TreeNode :=
  mkNode (parent n) (node_id n) (label n) (data n) (loaded n) (expanded n)
    (empty n) (children n ++ [i]).

(** The attributes of a [TreeControl]: [next_id] is its [node_id] counter,
    the reactive attributes are plain fields (their watchers only emit
    [CursorMove] messages). *)
Record TreeControl := mkControl {
  next_id : NodeID;
  nodes : gmap NodeID TreeNode;
  root : NodeID;
  hover_node : option NodeID;
  cursor : NodeID;
  cursor_line : Z;
  show_cursor : bool
}.

Definition with_nodes (m : gmap NodeID TreeNode) (c : TreeControl) :=
  mkControl (next_id c) m (root c) (hover_node c) (cursor c) (cursor_line c)
    (show_cursor c).
Definition with_next_id (i : NodeID) (c : TreeControl) :=
  mkControl i (nodes c) (root c) (hover_node c) (cursor c) (cursor_line c)
    (show_cursor c).
Definition with_cursor (i : NodeID) (c : TreeControl) :=
  mkControl (next_id c) (nodes c) (root c) (hover_node c) i (cursor_line c)
    (show_cursor c).
Definition with_cursor_line (z : Z) (c : TreeControl) :=
  mkControl (next_id c) (nodes c) (root c) (hover_node c) (cursor c) z
    (show_cursor c).
Definition with_show_cursor (b : bool) (c : TreeControl) :=
  mkControl (next_id c) (nodes c) (root c) (hover_node c) (cursor c)
    (cursor_line c) b.

Implicit Types (st : gmap NodeID TreeNode) (c : TreeControl).

(** Truth value of [node.children]. *)
Definition has_children (n : TreeNode) : bool :=
  match children n with [] => false | _ :: _ => true end.

(** The functions below return [option]: [None] stands for an exception
    ([KeyError] on [self.nodes[...]], [IndexError]) or for a walk that a
    malformed store or too little fuel cuts short.  On the trees the
    control builds they return [Some]. *)

(** ** [TreeNode.next_sibling] and [TreeNode.previous_sibling] *)

(** [for node in iter_siblings: if node is self: return next(iter_siblings)] *)
Fixpoint next_sibling_scan (self : NodeID) (siblings : list NodeID)
  : option NodeID :=
  match siblings with
  | [] => None
  | node :: rest =>
      if decide (node = self) then head rest
      else next_sibling_scan self rest
  end.

Definition next_sibling st (self : NodeID) : option (option NodeID) :=
  n ← st !! self;
  match parent n with
  | None => Some None
  | Some p => pn ← st !! p; Some (next_sibling_scan self (children pn))
  end.

(** [for node in iter_siblings: if node is self: return sibling;
    sibling = node] *)
Fixpoint previous_sibling_scan (self : NodeID) (sibling : option NodeID)
    (siblings : list NodeID) : option NodeID :=
  match siblings with
  | [] => None
  | node :: rest =>
      if decide (node = self) then sibling
      else previous_sibling_scan self (Some node) rest
  end.

Definition previous_sibling st (self : NodeID) : option (option NodeID) :=
  n ← st !! self;
  match parent n with
  | None => Some None
  | Some p => pn ← st !! p; Some (previous_sibling_scan self None (children pn))
  end.

(** ** [TreeNode.next_node] *)

(** The [while True] loop that climbs from [node]. *)
Fixpoint next_node_loop (fuel : nat) st (node : NodeID)
  : option (option NodeID) :=
  match fuel with
  | O => None
  | S fuel' =>
      n ← st !! node;
      match parent n with
      | None => Some None
      | Some p =>
          sibling ← next_sibling st p;
          match sibling with
          | Some s => Some (Some s)
          | None => next_node_loop fuel' st p
          end
      end
  end.

Definition next_node st (self : NodeID) : option (option NodeID) :=
  n ← st !! self;
  if expanded n && has_children n then
    c ← head (children n); Some (Some c)
  else
    sibling ← next_sibling st self;
    match sibling with
    | Some s => Some (Some s)
    | None => next_node_loop (size st) st self
    end.

(** ** [TreeNode.previous_node] *)

(** The nested function [last_sibling], with its fallback as written. *)
Fixpoint last_sibling (fuel : nat) st (node : NodeID) : option NodeID :=
  match fuel with
  | O => None
  | S fuel' =>
      n ← st !! node;
      if expanded n && has_children n then
        c ← last (children n); last_sibling fuel' st c
      else
        if has_children n && expanded n then last (children n)
        else Some node
  end.

Definition previous_node st (self : NodeID) : option (option NodeID) :=
  sibling ← previous_sibling st self;
  match sibling with
  | Some s => r ← last_sibling (size st) st s; Some (Some r)
  | None => n ← st !! self; Some (parent n)
  end.

(** ** [TreeNode.expand], [toggle] and [add]; [TreeControl.add] *)

Definition expand (self : NodeID) (b : bool) c : TreeControl :=
  with_nodes (alter (with_expanded b) self (nodes c)) c.

Definition toggle (self : NodeID) c : option TreeControl :=
  n ← nodes c !! self;
  Some (expand self (negb (expanded n)) c).

Definition control_add (i : NodeID) (lbl : string) (d : D) c
  : option TreeControl :=
  _ ← nodes c !! i;
  let new := S (next_id c) in
  let child := mkNode (Some i) new lbl d false false false [] in
  Some (with_nodes (<[new := child]> (alter (append_child new) i (nodes c)))
          (with_next_id new c)).

Definition add (self : NodeID) (lbl : string) (d : D) c : option TreeControl :=
  n ← nodes c !! self;
  c' ← control_add (node_id n) lbl d c;
  Some (with_nodes (alter (with_empty false) self (nodes c')) c').

(** [TreeControl(label, data)] *)
Definition init (lbl : string) (d : D) : TreeControl :=
  mkControl 0 {[ 0%nat := mkNode None 0 lbl d false false false [] ]} 0 None
    0 0 false.

(** ** [TreeControl.find_cursor] *)

(** The loop over the stack of iterators; an iterator is the list of nodes
    it still has to yield, and the top of the stack is the head of the
    list. *)
Fixpoint find_cursor_loop (fuel : nat) st (target : NodeID) (line : Z)
    (stack : list (list NodeID)) : option (option Z) :=
  match fuel with
  | O => None
  | S fuel' =>
      match stack with
      | [] => Some None
      | [] :: stack' => find_cursor_loop fuel' st target line stack'
      | (node :: iter_children) :: stack' =>
          n ← st !! node;
          if decide (node_id n = target) then Some (Some line)
          else
            find_cursor_loop fuel' st target (line + 1)
              (if has_children n && expanded n
               then children n :: iter_children :: stack'
               else iter_children :: stack')
      end
  end.

Definition find_cursor c : option (option Z) :=
  find_cursor_loop (2 * size (nodes c) + 2) (nodes c) (cursor c) 0 [[root c]].

(** ** The cursor *)

Definition cursor_down c : option TreeControl :=
  if negb (show_cursor c) then Some (with_show_cursor true c)
  else
    _ ← nodes c !! cursor c;
    next ← next_node (nodes c) (cursor c);
    match next with
    | Some nx =>
        n ← nodes c !! nx;
        Some (with_cursor (node_id n) (with_cursor_line (cursor_line c + 1) c))
    | None => Some c
    end.

Definition cursor_up c : option TreeControl :=
  if negb (show_cursor c) then Some (with_show_cursor true c)
  else
    _ ← nodes c !! cursor c;
    previous ← previous_node (nodes c) (cursor c);
    match previous with
    | Some pv =>
        n ← nodes c !! pv;
        Some (with_cursor (node_id n) (with_cursor_line (cursor_line c - 1) c))
    | None => Some c
    end.

(** [TreeNode.is_cursor] *)
Definition is_cursor c (n : TreeNode) : bool :=
  bool_decide (cursor c = node_id n) && show_cursor c.

(** ** The handlers that post a [TreeClick]

    [_tree_control.py] imports [TreeNode], [NodeID] and [NodeDataType] from
    [_tree_node] and nothing from [_tree_click]: the name [TreeClick] is
    not bound in the module.  A handler that reaches [TreeClick(self, node)]
    raises [NameError] there, after the statements before it have run, and
    posts no message.  [handled] is how such a handler ends: with the
    [KeyError] of [self.nodes[...]], the control untouched, or with the
    [NameError], the control as the statements before have left it. *)
Inductive handled :=
| RaisedKeyError
| RaisedNameError (c : TreeControl).

(** [key_enter]; [event.stop()] acts on the event only. *)
Definition key_enter c : handled :=
  match nodes c !! cursor c with
  | None => RaisedKeyError
  | Some _ => RaisedNameError c
  end.

(** [action_click_label]; [None] when the walk of [find_cursor] is cut
    short. *)
Definition action_click_label (i : NodeID) c : option handled :=
  match nodes c !! i with
  | None => Some RaisedKeyError
  | Some n =>
      let c1 := with_cursor (node_id n) c in
      line ← find_cursor c1;
      Some (RaisedNameError
              (with_show_cursor false (with_cursor_line (default 0 line) c1)))
  end.

End Model.

Arguments TreeNode : clear implicits.
Arguments TreeControl : clear implicits.
Arguments handled : clear implicits.
Arguments RaisedKeyError {D}.
Arguments RaisedNameError {D} c.

(** Sequences of calls on a control. *)
Inductive call (D : Type) :=
| Add (i : NodeID) (lbl : string) (d : D)
| Expand (i : NodeID) (b : bool)
| Toggle (i : NodeID)
| CursorDown
| CursorUp.
Arguments Add {D} i lbl d.
Arguments Expand {D} i b.
Arguments Toggle {D} i.
Arguments CursorDown {D}.
Arguments CursorUp {D}.

Definition exec {D} (o : call D) (c : TreeControl D) : option (TreeControl D) :=
  match o with
  | Add i lbl d => add i lbl d c
  | Expand i b => Some (expand i b c)
  | Toggle i => toggle i c
  | CursorDown => cursor_down c
  | CursorUp => cursor_up c
  end.

Fixpoint run {D} (os : list (call D)) (c : TreeControl D)
  : option (TreeControl D) :=
  match os with
  | [] => Some c
  | o :: os' => c' ← exec o c; run os' c'
  end.

(** ** The shape of the trees a control builds *)

Section Shape.
Context {D : Type}.
Implicit Types (st : gmap NodeID (TreeNode D)) (c : TreeControl D).

(** What [__init__] and [add] establish and every method keeps: ids are
    handed out in order, a child is newer than its parent, [parent] and
    [children] mirror each other, only the root has no parent, and the
    cursor names a node of the control. *)
Record wf c : Prop := {
  wf_size : size (nodes c) = S (next_id c);
  wf_dom : ∀ i n, nodes c !! i = Some n → (i ≤ next_id c)%nat;
  wf_id : ∀ i n, nodes c !! i = Some n → node_id n = i;
  wf_root : root c = 0%nat;
  wf_root_node : ∃ n, nodes c !! 0%nat = Some n ∧ parent n = None;
  wf_parent : ∀ i n p, nodes c !! i = Some n → parent n = Some p →
    (p < i)%nat ∧ ∃ pn, nodes c !! p = Some pn ∧ i ∈ children pn;
  wf_child : ∀ p pn i, nodes c !! p = Some pn → i ∈ children pn →
    ∃ n, nodes c !! i = Some n ∧ parent n = Some p;
  wf_nodup : ∀ p pn, nodes c !! p = Some pn → NoDup (children pn);
  wf_orphan : ∀ i n, nodes c !! i = Some n → parent n = None → i = 0%nat;
  wf_cursor : is_Some (nodes c !! cursor c)
}.

(** A node is in the visible traversal when all its ancestors are
    expanded. *)
Inductive visible st : NodeID → Prop :=
| visible_root i n :
    st !! i = Some n → parent n = None → visible st i
| visible_child i n p pn :
    st !! i = Some n → parent n = Some p →
    st !! p = Some pn → expanded pn = true → visible st p →
    visible st i.

(** The [k]-th ancestor of a node. *)
Fixpoint up (k : nat) st (i : NodeID) : option NodeID :=
  match k with
  | O => Some i
  | S k' => n ← st !! i; p ← parent n; up k' st p
  end.

(** The visible traversal below a node: the node, then, when it is
    expanded, the visible traversals below its children, in order. *)
Fixpoint vis (fuel : nat) st (i : NodeID) : list NodeID :=
  match fuel with
  | O => []
  | S fuel' =>
      match st !! i with
      | None => []
      | Some n =>
          i :: (if has_children n && expanded n
                then children n ≫= vis fuel' st else [])
      end
  end.

(** The lines of the control: the visible traversal from the root. *)
Definition visible_lines c : list NodeID :=
  vis (size (nodes c)) (nodes c) (root c).

(** The nodes a stack of iterators of [find_cursor] has yet to visit. *)
Definition stack_lines st (stack : list (list NodeID)) : list NodeID :=
  stack ≫= (λ it, it ≫= vis (size st) st).

(** ** The traversal in the words of the specification *)

(** The position of a node among its siblings. *)
Definition position (self : NodeID) (siblings : list NodeID) : option nat :=
  fst <$> list_find (λ x, x = self) siblings.

Definition siblings_of st (self : NodeID) : list NodeID :=
  default [] (n ← st !! self; p ← parent n; pn ← st !! p; Some (children pn)).

(** The next sibling: the node one position further in the parent's
    children. *)
Definition next_sibling_spec st (self : NodeID) : option NodeID :=
  i ← position self (siblings_of st self); siblings_of st self !! S i.

(** The previous sibling: the node one position before. *)
Definition previous_sibling_spec st (self : NodeID) : option NodeID :=
  i ← position self (siblings_of st self);
  match i with O => None | S j => siblings_of st self !! j end.

(** The ancestors of a node, nearest first. *)
Fixpoint ancestors (fuel : nat) st (self : NodeID) : list NodeID :=
  match fuel with
  | O => []
  | S fuel' =>
      match st !! self ≫= parent with
      | Some p => p :: ancestors fuel' st p
      | None => []
      end
  end.

(** [next_node] as the specification words it: the first child of an
    expanded node with children; else the next sibling; else the next
    sibling of the first ancestor that has one; else none. *)
Definition next_node_spec st (self : NodeID) : option NodeID :=
  match st !! self with
  | None => None
  | Some n =>
      if expanded n && has_children n then head (children n)
      else
        match next_sibling_spec st self with
        | Some s => Some s
        | None =>
            head (omap (next_sibling_spec st) (ancestors (size st) st self))
        end
  end.

(** What follows the visible traversal below a node: its next sibling, or
    else the next sibling of its first ancestor that has one. *)
Definition next_after st (self : NodeID) : option NodeID :=
  match next_sibling_spec st self with
  | Some s => Some s
  | None => head (omap (next_sibling_spec st) (ancestors (size st) st self))
  end.

(** The last visible descendant of a node: its last child, again and
    again, while the node at hand is expanded and has children. *)
Inductive last_visible st : NodeID → NodeID → Prop :=
| last_visible_here i n :
    st !! i = Some n → expanded n && has_children n = false →
    last_visible st i i
| last_visible_down i n ch r :
    st !! i = Some n → expanded n && has_children n = true →
    last (children n) = Some ch → last_visible st ch r →
    last_visible st i r.

(** [previous_node] as the specification words it: the last visible
    descendant of the previous sibling if there is one; else the parent if
    there is one; else none. *)
Definition previous_node_spec st (self : NodeID) (r : option NodeID) : Prop :=
  match previous_sibling_spec st self with
  | Some s => ∃ d, r = Some d ∧ last_visible st s d
  | None => ∃ n, st !! self = Some n ∧ r = parent n
  end.

(** ** [previous_node] without the second test in the helper's fallback *)

Fixpoint last_sibling_simple (fuel : nat) st (node : NodeID) : option NodeID :=
  match fuel with
  | O => None
  | S fuel' =>
      n ← st !! node;
      if expanded n && has_children n then
        ch ← last (children n); last_sibling_simple fuel' st ch
      else Some node
  end.

Definition previous_node_simple st (self : NodeID) : option (option NodeID) :=
  sibling ← previous_sibling st self;
  match sibling with
  | Some s => r ← last_sibling_simple (size st) st s; Some (Some r)
  | None => n ← st !! self; Some (parent n)
  end.

End Shape.

(** ** Calls that act at the cursor *)

(** The prefix of a list up to the first occurrence of [i], included. *)
Fixpoint upto (i : NodeID) (l : list NodeID) : list NodeID :=
  match l with
  | [] => []
  | x :: l' => if decide (x = i) then [x] else x :: upto i l'
  end.

(** [cursor_line] is the line where [find_cursor] finds the cursor. *)
Definition line_ok {D} (c : TreeControl D) : Prop :=
  find_cursor c = Some (Some (cursor_line c)).

(** A call that adds to, expands or collapses a node does so on the cursor
    node. *)
Definition is_local {D} (o : call D) (c : TreeControl D) : bool :=
  match o with
  | Add i _ _ | Expand i _ | Toggle i => bool_decide (i = cursor c)
  | CursorDown | CursorUp => true
  end.

Fixpoint all_local {D} (os : list (call D)) (c : TreeControl D) : bool :=
  match os with
  | [] => true
  | o :: os' =>
      is_local o c
      && match exec o c with Some c' => all_local os' c' | None => true end
  end.

(** No node is marked empty or loaded. *)
Definition plain {D} (c : TreeControl D) : Prop :=
  ∀ i n, nodes c !! i = Some n → empty n = false ∧ loaded n = false.

(** ** The tree of the specification's examples

    A root with children [X, Y], where [X] has children [X1, X2]; the
    control numbers them root = 0, X = 1, Y = 2, X1 = 3, X2 = 4. *)
Definition example_build : list (call unit) :=
  [Add 0 "X" tt; Add 0 "Y" tt; Add 1 "X1" tt; Add 1 "X2" tt].

Definition expand_all : list (call unit) :=
  [Expand 0 true; Expand 1 true; Expand 2 true; Expand 3 true; Expand 4 true].

Definition after (os : list (call unit)) : TreeControl unit :=
  default (init "root" tt) (run os (init "root" tt)).

Definition example_tree : TreeControl unit := after (example_build ++ expand_all).

Definition label_of {D} (c : TreeControl D) (i : NodeID) : option string :=
  label <$> nodes c !! i.

(** The cursor walks down to [Y] while [X] is collapsed; then [X] is
    expanded. *)
Definition stale_line_calls : list (call unit) :=
  example_build ++
  [Expand 0 true; CursorDown; CursorDown; CursorDown; Expand 1 true].

(** The cursor walks down to [Y] in the fully expanded tree; then [X] is
    collapsed. *)
Definition stale_line_calls_collapse : list (call unit) :=
  example_build ++ expand_all ++
  [CursorDown; CursorDown; CursorDown; CursorDown; CursorDown; Expand 1 false].

(** The cursor is shown and on the expanded root. *)
Definition shown_at_root : list (call unit) :=
  example_build ++ [Expand 0 true; CursorDown].

(** The cursor walks down to [X1]; then [X] is collapsed. *)
Definition hidden_cursor_calls : list (call unit) :=
  example_build ++
  [Expand 0 true; Expand 1 true; CursorDown; CursorDown; CursorDown;
   Expand 1 false].

(** Every node that is added to, expanded or collapsed is the cursor node
    of the moment. *)
Definition local_calls : list (call unit) :=
  [Add 0 "X" tt; Add 0 "Y" tt; Expand 0 true; CursorDown; CursorDown;
   Add 1 "X1" tt; Toggle 1; CursorDown; CursorUp; Toggle 1; CursorDown].

(** The node [X] of the example tree, expanded. *)
Definition node_X : TreeNode unit :=
  mkNode (Some 0%nat) 1 "X" tt false true false [3; 4]%nat.

(** The cursor is on [Y]; the label of [X] is clicked. *)
Definition click_calls : list (call unit) :=
  example_build ++ [Expand 0 true; CursorDown; CursorDown; CursorDown].

End Tree.

(** * Part III: the cache keeps its ring, and what follows *)

Module LRUFacts.
Import LRU.

Section Ring.
Context {K : Type} `{Countable K} {V : Type}.
Implicit Types (h : list (link K V)) (r p n a z : ref).
Implicit Types (e : entry K V) (l : list (entry K V)).
Implicit Types (s : LRUCache K V) (k : K) (v : V).

Lemma snoc_inv l : l ≠ [] → ∃ l' e, l = l' ++ [e].
Proof.
  induction l as [|e l' _] using rev_ind; [done|]. intros _. by exists l', e.
Qed.

Lemma last_ref_app l1 l2 d : last_ref (l1 ++ l2) d = last_ref l2 (last_ref l1 d).
Proof. revert d. induction l1 as [|e l1 IH]; intros d; simpl; auto. Qed.

Lemma last_ref_snoc l e d : last_ref (l ++ [e]) d = eref e.
Proof. by rewrite last_ref_app. Qed.

Lemma last_ref_nonempty l d d' : l ≠ [] → last_ref l d = last_ref l d'.
Proof. by destruct l. Qed.

Lemma first_ref_app l1 l2 d : first_ref (l1 ++ l2) d = first_ref l1 (first_ref l2 d).
Proof. by destruct l1. Qed.

Lemma first_ref_nonempty l d d' : l ≠ [] → first_ref l d = first_ref l d'.
Proof. by destruct l. Qed.

Lemma last_ref_elem l d : l ≠ [] → last_ref l d ∈ refs l.
Proof.
  intros [l' [e ->]]%snoc_inv. rewrite last_ref_snoc. unfold refs.
  rewrite fmap_app. set_solver.
Qed.

Lemma first_ref_elem l d : l ≠ [] → first_ref l d ∈ refs l.
Proof. destruct l; [done|]. intros _. simpl. set_solver. Qed.

Lemma dseg_app h p l1 l2 n :
  dseg h p (l1 ++ l2) n ↔
  dseg h p l1 (first_ref l2 n) ∧ dseg h (last_ref l1 p) l2 n.
Proof.
  revert p. induction l1 as [|e l1 IH]; intros p; simpl; [tauto|].
  rewrite IH, first_ref_app. tauto.
Qed.

Lemma dseg_frame h h' p l n :
  (∀ r, r ∈ refs l → h' !! r = h !! r) → dseg h p l n → dseg h' p l n.
Proof.
  revert p. induction l as [|e l IH]; intros p Hfr; simpl; [done|].
  intros [Hl Hd]. split.
  - rewrite Hfr; [done|]. apply list_elem_of_here.
  - apply IH; [|done]. intros r Hr. apply Hfr. by apply list_elem_of_further.
Qed.

Lemma dseg_alter_frame h f r p l n :
  r ∉ refs l → dseg h p l n → dseg (alter f r h) p l n.
Proof.
  intros Hr. apply dseg_frame. intros r' Hr'.
  apply list_lookup_alter_ne. intros ->. done.
Qed.

Lemma dseg_lookup h p l n e :
  dseg h p l n → e ∈ l →
  ∃ p' n', h !! eref e = Some (Link p' n' (ekey e) (evalue e)).
Proof.
  revert p. induction l as [|e' l IH]; intros p; simpl; [set_solver|].
  intros [Hl Hd] [->|He]%elem_of_cons; eauto.
Qed.

Lemma dseg_lookup_ref h p l n r :
  dseg h p l n → r ∈ refs l → ∃ p' n' k v, h !! r = Some (Link p' n' k v).
Proof.
  intros Hd (e & -> & He)%list_elem_of_fmap.
  destruct (dseg_lookup _ _ _ _ _ Hd He) as (p' & n' & Hl). eauto.
Qed.

(** Writing [PREV] of the first link of a segment. *)
Lemma dseg_set_prev h p p' e l n :
  eref e ∉ refs l → dseg h p (e :: l) n →
  dseg (alter (set_prev p') (eref e) h) p' (e :: l) n.
Proof.
  intros Hne [Hl Hd]. split.
  - by rewrite list_lookup_alter_eq, Hl.
  - by apply dseg_alter_frame.
Qed.

(** Writing [NEXT] of the last link of a segment. *)
Lemma dseg_set_next h p l e n n' :
  eref e ∉ refs l → dseg h p (l ++ [e]) n →
  dseg (alter (set_next n') (eref e) h) p (l ++ [e]) n'.
Proof.
  intros Hne [Hd [Hl _]]%dseg_app. apply dseg_app. split.
  - by apply dseg_alter_frame.
  - split; [|done]. by rewrite list_lookup_alter_eq, Hl.
Qed.

(** Taking the link of [e] out of a ring whose first link is [r]: the two
    writes [e.PREV.NEXT = e.NEXT] and [e.NEXT.PREV = e.PREV]. *)
Lemma dseg_unlink h l1 e l2 r :
  l1 ≠ [] → first_ref l1 r = r → NoDup (refs (l1 ++ e :: l2)) →
  dseg h (last_ref (l1 ++ e :: l2) r) (l1 ++ e :: l2) r →
  let pa := last_ref l1 r in
  let na := first_ref l2 r in
  let h' := alter (set_prev pa) na (alter (set_next na) pa h) in
  dseg h' (last_ref (l1 ++ l2) r) (l1 ++ l2) r ∧ h' !! eref e = h !! eref e.
Proof.
  intros Hne Hr Hnd Hd pa na h'.
  unfold refs in Hnd. rewrite fmap_app, fmap_cons in Hnd.
  apply NoDup_app in Hnd as (Hnd1 & Hdisj & Hnd2).
  apply NoDup_cons in Hnd2 as [He2 Hnd2].
  assert (He1 : eref e ∉ refs l1).
  { intros Hin. apply (Hdisj _ Hin). apply list_elem_of_here. }
  assert (Hpa : pa ∈ refs l1) by by apply last_ref_elem.
  apply dseg_app in Hd as [Hd1 [Hle Hd2]]. simpl in Hd1.
  destruct (snoc_inv _ Hne) as (l1' & ep & Hl1).
  assert (Hpe : pa = eref ep) by (unfold pa; by rewrite Hl1, last_ref_snoc).
  assert (Hep : eref ep ∉ refs l1').
  { rewrite Hl1 in Hnd1. unfold refs in Hnd1. rewrite fmap_app in Hnd1.
    apply NoDup_app in Hnd1 as (_ & Hd' & _). intros Hin.
    apply (Hd' _ Hin). apply list_elem_of_here. }
  assert (Hd1' : dseg (alter (set_next na) pa h)
                   (last_ref (l1 ++ e :: l2) r) l1 na).
  { pose proof Hd1 as Hd1c. rewrite Hl1 in Hd1c.
    rewrite Hpe, Hl1. eapply dseg_set_next; [done|exact Hd1c]. }
  split.
  - destruct l2 as [|f l2].
    + (* the last link leaves: the new last link is [pa] *)
      rewrite app_nil_r. fold pa. subst na. simpl.
      destruct l1 as [|e0 l1]; [done|]. simpl in Hr. subst r h'.
      apply NoDup_cons in Hnd1 as [Hnd0 _].
      eapply dseg_set_prev; [exact Hnd0|exact Hd1'].
    + assert (Hf : eref f ∉ refs l2).
      { by apply NoDup_cons in Hnd2 as [? _]. }
      assert (Hf1 : eref f ∉ refs l1).
      { intros Hin. apply (Hdisj _ Hin). apply list_elem_of_further, list_elem_of_here. }
      assert (Hpa2 : pa ∉ refs (f :: l2)).
      { intros Hin. apply (Hdisj _ Hpa). by apply list_elem_of_further. }
      rewrite !last_ref_app in *. simpl last_ref in *.
      apply dseg_app. subst h' na. simpl first_ref in *. split.
      * by apply dseg_alter_frame.
      * rewrite (last_ref_nonempty l1 _ r) by done. fold pa.
        eapply dseg_set_prev; [exact Hf|].
        apply dseg_alter_frame; [exact Hpa2|exact Hd2].
  - subst h'. rewrite !list_lookup_alter_ne; [done| |].
    + intros ->. by apply He1.
    + intros Hna. destruct l2 as [|f l2]; subst na; simpl in Hna.
      * apply He1. rewrite <-Hna, <-Hr. by apply first_ref_elem.
      * apply He2. rewrite <-Hna. apply list_elem_of_here.
Qed.

(** Putting a link [a] in front of a ring: the two writes
    [r.PREV.NEXT = a] and [r.PREV = a], [a] already pointing to both. *)
Lemma dseg_push h l r a k v :
  l ≠ [] → first_ref l r = r → NoDup (refs l) → a ∉ refs l →
  dseg h (last_ref l r) l r →
  h !! a = Some (Link (last_ref l r) r k v) →
  let z := last_ref l r in
  dseg (alter (set_prev a) r (alter (set_next a) z h)) z (Entry a k v :: l) a.
Proof.
  intros Hne Hr Hnd Ha Hd Hl z.
  assert (Hz : z ∈ refs l) by by apply last_ref_elem.
  assert (Hrl : r ∈ refs l) by (rewrite <-Hr; by apply first_ref_elem).
  split; simpl.
  - rewrite !list_lookup_alter_ne by (intros ->; done).
    by rewrite (first_ref_nonempty l a r), Hr.
  - destruct (snoc_inv _ Hne) as (l' & ez & Hl').
    assert (Hze : z = eref ez) by (unfold z; by rewrite Hl', last_ref_snoc).
    assert (Hd1 : dseg (alter (set_next a) z h) z l a).
    { pose proof Hd as Hdc. fold z in Hdc. rewrite Hze, Hl' in Hdc.
      rewrite Hze, Hl'. eapply dseg_set_next; [|exact Hdc].
      rewrite Hl' in Hnd. unfold refs in Hnd. rewrite fmap_app in Hnd.
      apply NoDup_app in Hnd as (_ & Hd' & _). intros Hin.
      apply (Hd' _ Hin). apply list_elem_of_here. }
    destruct l as [|e0 l0]; [done|]. simpl in Hr. subst r.
    apply NoDup_cons in Hnd as [Hnd0 _].
    eapply dseg_set_prev; [exact Hnd0|exact Hd1].
Qed.

(** Following [NEXT] along a segment lists its keys. *)
Lemma walk_dseg h p l n :
  dseg h p l n → walk h (first_ref l n) (length l) = keys l.
Proof.
  revert p. induction l as [|e l IH]; intros p; simpl; [done|].
  intros [-> Hd]. f_equal. eauto.
Qed.

Lemma index_fst l : (index l).*1 = keys l.
Proof. unfold index, keys. rewrite <-list_fmap_compose. done. Qed.

Lemma rep_size s l : rep s l → size (cache s) = length l.
Proof.
  intros Hr. rewrite (rep_cache _ _ Hr), map_size_list_to_map.
  - unfold index. by rewrite length_fmap.
  - rewrite index_fst. apply Hr.
Qed.

Lemma rep_len s l : rep s l → len s = Z.of_nat (length l).
Proof. intros Hr. unfold len. by rewrite (rep_size _ _ Hr). Qed.

Lemma rep_lookup s l k r :
  rep s l → cache s !! k = Some r ↔ ∃ v, Entry r k v ∈ l.
Proof.
  intros Hr. rewrite (rep_cache _ _ Hr), <-elem_of_list_to_map
    by (rewrite index_fst; apply Hr).
  unfold index. rewrite list_elem_of_fmap. split.
  - intros ([r' k' v] & [= -> ->] & Hin). eauto.
  - intros [v Hin]. by exists (Entry r k v).
Qed.

Lemma rep_lookup_None s l k : rep s l → cache s !! k = None ↔ k ∉ keys l.
Proof.
  intros Hr. by rewrite (rep_cache _ _ Hr), <-not_elem_of_list_to_map, index_fst.
Qed.

Lemma rep_contains s l k : rep s l → contains k s = bool_decide (k ∈ keys l).
Proof.
  intros Hr. unfold contains. apply bool_decide_ext.
  rewrite <-not_eq_None_Some, (rep_lookup_None _ _ _ Hr).
  split; [apply dec_stable|auto].
Qed.

Lemma rep_order s l : rep s l → order s = keys l.
Proof.
  intros Hr. unfold order. rewrite (rep_size _ _ Hr).
  rewrite <-(rep_root _ _ Hr) at 1. eapply walk_dseg, Hr.
Qed.

(** ** Running the method bodies *)

Lemma bind_ok {A B} (m : M K V A) (f : A → M K V B) s (x : A) s1 :
  m s = Ok x s1 → bind m f s = f x s1.
Proof. unfold bind. by intros ->. Qed.

Lemma bind_assoc {A B C} (m : M K V A) (f : A → M K V B) (g : B → M K V C) s :
  bind (bind m f) g s = bind m (λ x, bind (f x) g) s.
Proof. unfold bind. by destruct (m s). Qed.

Lemma item0_ok (s : LRUCache K V) r p n k v :
  heap s !! r = Some (Link p n k v) → item0 r s = Ok p s.
Proof. unfold item0. by intros ->. Qed.
Lemma item1_ok (s : LRUCache K V) r p n k v :
  heap s !! r = Some (Link p n k v) → item1 r s = Ok n s.
Proof. unfold item1. by intros ->. Qed.
Lemma item2_ok (s : LRUCache K V) r p n k v :
  heap s !! r = Some (Link p n k v) → item2 r s = Ok k s.
Proof. unfold item2. by intros ->. Qed.
Lemma item3_ok (s : LRUCache K V) r p n k v :
  heap s !! r = Some (Link p n k v) → item3 r s = Ok v s.
Proof. unfold item3. by intros ->. Qed.
Lemma setitem0_ok (s : LRUCache K V) r x p n k v :
  heap s !! r = Some (Link p n k v) →
  setitem0 r x s = Ok tt (with_heap (alter (set_prev x) r (heap s)) s).
Proof. unfold setitem0. by intros ->. Qed.
Lemma setitem1_ok (s : LRUCache K V) r x p n k v :
  heap s !! r = Some (Link p n k v) →
  setitem1 r x s = Ok tt (with_heap (alter (set_next x) r (heap s)) s).
Proof. unfold setitem1. by intros ->. Qed.

Lemma is_link_alter_prev h r r' x :
  is_link h r → is_link (alter (set_prev x) r' h) r.
Proof.
  intros (p & n & k & v & Hl). unfold is_link. rewrite list_lookup_alter.
  case_decide; subst; rewrite Hl; simpl; eauto.
Qed.
Lemma is_link_alter_next h r r' x :
  is_link h r → is_link (alter (set_next x) r' h) r.
Proof.
  intros (p & n & k & v & Hl). unfold is_link. rewrite list_lookup_alter.
  case_decide; subst; rewrite Hl; simpl; eauto.
Qed.

(** One statement of a method body at a time. *)
Ltac run_item0 H :=
  rewrite ?bind_assoc; erewrite bind_ok by (eapply item0_ok; exact H).
Ltac run_item1 H :=
  rewrite ?bind_assoc; erewrite bind_ok by (eapply item1_ok; exact H).
Ltac run_item2 H :=
  rewrite ?bind_assoc; erewrite bind_ok by (eapply item2_ok; exact H).
Ltac run_setitem0 H :=
  rewrite ?bind_assoc; erewrite bind_ok by (eapply setitem0_ok; exact H).
Ltac run_setitem1 H :=
  rewrite ?bind_assoc; erewrite bind_ok by (eapply setitem1_ok; exact H).
Ltac run_pure := rewrite ?bind_assoc; erewrite bind_ok by reflexivity.

(** [get] on a key that is not cached returns the default and changes
    nothing. *)
Lemma get_absent s l k d : rep s l → k ∉ keys l → get k d s = Ok d s.
Proof.
  intros Hr Hk. apply (rep_lookup_None _ _ _ Hr) in Hk.
  unfold get. run_pure. by rewrite Hk.
Qed.

(** [get] on the entry at the root returns its value and changes nothing. *)
Lemma get_root s a k v l d :
  rep s (Entry a k v :: l) → get k d s = Ok v s.
Proof.
  intros Hr.
  assert (Hc : cache s !! k = Some a).
  { apply (rep_lookup _ _ _ _ Hr). exists v. apply list_elem_of_here. }
  pose proof (rep_root _ _ Hr) as Hroot. simpl in Hroot.
  destruct (rep_ring _ _ Hr) as [Hl _]. simpl in Hl.
  unfold get. run_pure. rewrite Hc. run_pure.
  rewrite decide_True by done. run_pure.
  eapply item3_ok. exact Hl.
Qed.

(** [get] on an entry further down the ring takes its link out and puts it
    in front of the root. *)
Lemma get_move s l1 a k v l2 d :
  l1 ≠ [] → rep s (l1 ++ Entry a k v :: l2) →
  ∃ s', get k d s = Ok v s' ∧ rep s' (Entry a k v :: l1 ++ l2)
        ∧ maxsize s' = maxsize s ∧ full s' = full s ∧ cache s' = cache s.
Proof.
  intros Hne Hr. set (e := Entry a k v) in *. set (r := root s).
  pose proof (rep_refs _ _ Hr) as Hnd.
  pose proof (rep_ring _ _ Hr) as Hd. fold r in Hd.
  pose proof (rep_root _ _ Hr) as Hroot. fold r in Hroot.
  rewrite first_ref_app, (first_ref_nonempty l1 _ r) in Hroot by done.
  assert (Hc : cache s !! k = Some a).
  { apply (rep_lookup _ _ _ _ Hr). exists v. set_solver. }
  assert (Har : a ≠ r).
  { intros Heq. unfold refs in Hnd. rewrite fmap_app in Hnd.
    apply NoDup_app in Hnd as (_ & Hdisj & _).
    apply (Hdisj r); [rewrite <-Hroot; by apply first_ref_elem|].
    rewrite <-Heq. apply list_elem_of_here. }
  set (pa := last_ref l1 r). set (na := first_ref l2 r).
  assert (Hla : heap s !! a = Some (Link pa na k v)).
  { apply dseg_app in Hd as [_ [Hla _]].
    by rewrite (last_ref_nonempty l1 _ r) in Hla. }
  assert (Hin1 : ∀ x, x ∈ refs l1 → x ∈ refs (l1 ++ e :: l2)).
  { intros x Hx. unfold refs in *. rewrite fmap_app. apply elem_of_app. by left. }
  assert (Hin2 : ∀ x, x ∈ refs l2 → x ∈ refs (l1 ++ e :: l2)).
  { intros x Hx. unfold refs in *. rewrite fmap_app. apply elem_of_app. right.
    by apply list_elem_of_further. }
  assert (Hpa : is_link (heap s) pa).
  { eapply dseg_lookup_ref; [exact Hd|]. by apply Hin1, last_ref_elem. }
  assert (Hna : is_link (heap s) na).
  { eapply dseg_lookup_ref; [exact Hd|]. unfold na. destruct l2 as [|f l2].
    - simpl. apply Hin1. rewrite <-Hroot. by apply first_ref_elem.
    - by apply Hin2, first_ref_elem. }
  set (h1 := alter (set_next na) pa (heap s)).
  set (h2 := alter (set_prev pa) na h1).
  destruct (dseg_unlink _ _ _ _ _ Hne Hroot Hnd Hd) as [Hd2 Ha2].
  fold pa na h1 h2 in Hd2, Ha2. simpl in Ha2. rewrite Hla in Ha2.
  assert (Ha1 : h1 !! a = Some (Link pa na k v)).
  { unfold h1. rewrite list_lookup_alter_ne; [done|]. intros Heq.
    unfold refs in Hnd. rewrite fmap_app in Hnd.
    apply NoDup_app in Hnd as (_ & Hdisj & _).
    apply (Hdisj pa); [by apply last_ref_elem|].
    rewrite Heq. apply list_elem_of_here. }
  assert (Hna1 : is_link h1 na) by by apply is_link_alter_next.
  set (l' := l1 ++ l2) in *. set (z := last_ref l' r) in *.
  assert (Hne' : l' ≠ []) by (unfold l'; by destruct l1).
  assert (Hroot' : first_ref l' r = r).
  { unfold l'. by rewrite first_ref_app, (first_ref_nonempty l1 _ r). }
  assert (Hnd' : NoDup (refs l') ∧ a ∉ refs l').
  { unfold refs, l' in *. rewrite fmap_app in *. simpl in Hnd.
    apply NoDup_app in Hnd as (Hn1 & Hdisj & Hn2).
    apply NoDup_cons in Hn2 as [Hn2a Hn2]. split.
    - apply NoDup_app. split_and!; [done| |done].
      intros x Hx1 Hx2. apply (Hdisj x Hx1). by apply list_elem_of_further.
    - intros [Hx|Hx]%elem_of_app; [|done].
      apply (Hdisj a Hx). apply list_elem_of_here. }
  destruct Hnd' as [Hnd' Ha'].
  assert (Hr2 : ∃ n', h2 !! r = Some (Link z n' (ekey (default e (head l'))) (evalue (default e (head l'))))).
  { destruct l' as [|e0 l0]; [done|]. simpl in Hroot'. destruct Hd2 as [Hl _].
    rewrite Hroot' in Hl. simpl. eauto. }
  destruct Hr2 as [nr Hr2].
  set (h3 := alter (set_prev z) a h2).
  set (h4 := alter (set_next r) a h3).
  assert (Ha3 : h3 !! a = Some (Link z na k v)).
  { unfold h3. by rewrite list_lookup_alter_eq, Ha2. }
  assert (Ha4 : h4 !! a = Some (Link z r k v)).
  { unfold h4. by rewrite list_lookup_alter_eq, Ha3. }
  assert (Hd4 : dseg h4 z l' r).
  { unfold h4, h3. by do 2 (apply dseg_alter_frame; [done|]). }
  assert (Hr4 : h4 !! r = Some (Link z nr (ekey (default e (head l'))) (evalue (default e (head l'))))).
  { unfold h4, h3. by rewrite !list_lookup_alter_ne. }
  assert (Hz4 : is_link h4 z).
  { eapply dseg_lookup_ref; [exact Hd4|]. by apply last_ref_elem. }
  set (h5 := alter (set_next a) z h4).
  assert (Hr5 : is_link h5 r).
  { apply is_link_alter_next. red. eauto. }
  pose proof (dseg_push _ _ _ _ _ _ Hne' Hroot' Hnd' Ha' Hd4 Ha4) as Hd6.
  fold z h5 in Hd6. set (h6 := alter (set_prev a) r h5) in *.
  exists (with_root a (with_heap h6 s)). split; [|split; [|done]].
  - unfold get. run_pure. rewrite Hc. run_pure.
    rewrite decide_False by done.
    run_item0 Hla. run_item1 Hla.
    destruct Hpa as (?&?&?&?&Hpa). run_setitem1 Hpa.
    run_item1 Ha1. run_item0 Ha1.
    destruct Hna1 as (?&?&?&?&Hna1). run_setitem0 Hna1.
    run_pure. run_item0 Hr2. run_setitem0 Ha2. run_setitem1 Ha3.
    run_item0 Hr4. destruct Hz4 as (?&?&?&?&Hz4). run_setitem1 Hz4.
    destruct Hr5 as (?&?&?&?&Hr5). run_setitem0 Hr5. run_pure.
    eapply item3_ok. destruct Hd6 as [Hl6 _]. exact Hl6.
  - split.
    + by apply NoDup_cons.
    + pose proof (rep_keys _ _ Hr) as Hk. unfold keys, l' in *. simpl.
      rewrite fmap_app in *. simpl in Hk.
      by rewrite Permutation_middle.
    + change (cache s = list_to_map (index (e :: l'))).
      rewrite (rep_cache _ _ Hr). apply list_to_map_proper.
      * rewrite index_fst. apply Hr.
      * unfold index, l'. rewrite !fmap_app. simpl.
        by rewrite fmap_app, <-Permutation_middle.
    + done.
    + done.
    + change (dseg h6 (last_ref l' a) (e :: l') a).
      rewrite (last_ref_nonempty l' a r) by done. exact Hd6.
Qed.

(** A new list object leaves the ring in place, and is not one of its
    links. *)
Lemma dseg_alloc h c p l n : dseg h p l n → dseg (h ++ [c]) p l n.
Proof.
  intros Hd. eapply dseg_frame; [|exact Hd]. intros r Hr.
  destruct (dseg_lookup_ref _ _ _ _ _ Hd Hr) as (?&?&?&?&Hl).
  rewrite Hl. by apply lookup_app_l_Some.
Qed.

Lemma dseg_fresh h p l n : dseg h p l n → length h ∉ refs l.
Proof.
  intros Hd Hr. destruct (dseg_lookup_ref _ _ _ _ _ Hd Hr) as (?&?&?&?&Hl).
  apply lookup_lt_Some in Hl. lia.
Qed.

(** [set] on a key that is already cached changes nothing: the whole body
    is under [if link is None]. *)
Lemma set_present (s : LRUCache K V) k v :
  is_Some (cache s !! k) → set k v s = Ok tt s.
Proof. intros [r Hc]. unfold set. run_pure. by rewrite Hc. Qed.

(** [set] of the first key turns the empty root list into a link that
    points to itself. *)
Lemma set_first s k v :
  rep s [] → full s = false → 1 ≤ maxsize s →
  ∃ s', set k v s = Ok tt s' ∧ rep s' [Entry (root s) k v]
        ∧ maxsize s' = maxsize s ∧ full s' = false.
Proof.
  intros Hr Hfull Hmax.
  pose proof (rep_nil _ _ Hr eq_refl) as Hnil.
  pose proof (rep_cache _ _ Hr) as Hc. simpl in Hc.
  set (r := root s) in *.
  set (h1 := <[r := Link r r k v]> (heap s)).
  set (s1 := with_cache (<[k := r]> (cache s)) (with_heap h1 s)).
  assert (Hlt : (r < length (heap s))%nat) by by apply lookup_lt_Some in Hnil.
  exists s1. split; [|split; [|done]].
  - unfold set. run_pure. rewrite Hc, lookup_empty.
    run_pure. unfold is_empty. run_pure. fold r. rewrite Hnil.
    unfold slice_assign. run_pure. run_pure. run_pure.
    replace (full _ || _) with false; [done|].
    cbn [full with_cache with_heap maxsize]. rewrite Hfull. simpl.
    unfold len. cbn [cache with_cache]. rewrite Hc.
    rewrite map_size_insert_None, map_size_empty by apply lookup_empty.
    symmetry. apply Z.ltb_ge. lia.
  - split.
    + apply NoDup_singleton.
    + apply NoDup_singleton.
    + unfold s1. cbn [cache with_cache]. by rewrite Hc.
    + done.
    + done.
    + simpl. split; [|done]. unfold h1. by apply list_lookup_insert_eq.
Qed.

(** [set] of a key that is not cached, in a cache that is not empty: a new
    link goes in front of the root and becomes the root; then, when the
    cache is full or has outgrown [maxsize], the link before the new root
    is taken out of the ring and its key out of the dictionary. *)
Lemma set_new s l k v :
  rep s l → l ≠ [] → k ∉ keys l →
  let a := length (heap s) in
  let over := full s || (maxsize s <? Z.of_nat (S (length l))) in
  ∃ s', set k v s = Ok tt s'
        ∧ rep s' (Entry a k v :: (if over then removelast l else l))
        ∧ maxsize s' = maxsize s ∧ full s' = over.
Proof.
  intros Hr Hne Hk a over. set (r := root s).
  pose proof (rep_refs _ _ Hr) as Hnd.
  pose proof (rep_keys _ _ Hr) as Hndk.
  pose proof (rep_ring _ _ Hr) as Hd. fold r in Hd.
  pose proof (rep_root _ _ Hr) as Hroot. fold r in Hroot.
  pose proof (proj2 (rep_lookup_None _ _ _ Hr) Hk) as Hc.
  set (z := last_ref l r) in *.
  assert (Hlr : ∃ nr k0 v0, heap s !! r = Some (Link z nr k0 v0)).
  { destruct l as [|e0 l0]; [done|]. simpl in Hroot. destruct Hd as [Hl _].
    rewrite Hroot in Hl. eauto. }
  destruct Hlr as (nr & k0 & v0 & Hlr).
  set (h1 := heap s ++ [Link z r k v]).
  assert (Hd1 : dseg h1 z l r) by by apply dseg_alloc.
  assert (Ha : a ∉ refs l) by by eapply dseg_fresh.
  assert (Hla1 : h1 !! a = Some (Link z r k v)).
  { unfold h1, a. by rewrite list_lookup_middle. }
  assert (Hlr1 : h1 !! r = Some (Link z nr k0 v0)) by by apply lookup_app_l_Some.
  assert (Hz1 : is_link h1 z).
  { eapply dseg_lookup_ref; [exact Hd1|]. by apply last_ref_elem. }
  set (h2 := alter (set_next a) z h1).
  assert (Hr2 : is_link h2 r) by (apply is_link_alter_next; red; eauto).
  pose proof (dseg_push _ _ _ _ _ _ Hne Hroot Hnd Ha Hd1 Hla1) as Hd3.
  fold z h2 in Hd3. cbv zeta in Hd3.
  set (h3 := alter (set_prev a) r h2) in *. set (e := Entry a k v) in *.
  set (s3 := with_cache (<[k := a]> (cache s)) (with_root a (with_heap h3 s))).
  assert (Hrun : set k v s =
    (let* over := gets (λ s, full s || (maxsize s <? len s)) in
     if over then
       do modify (with_full true) in
       let* root_ := gets root in
       let* last := item0 root_ in
       let* l0 := item0 last in
       do setitem1 l0 root_ in
       let* l0 := item0 last in
       do setitem0 root_ l0 in
       let* k := item2 last in
       cache_delitem k
     else ret tt) s3).
  { unfold set. run_pure. rewrite Hc. run_pure.
    unfold is_empty. run_pure. fold r. rewrite Hlr.
    run_item0 Hlr. unfold alloc. run_pure. run_pure.
    run_item0 Hlr1. destruct Hz1 as (?&?&?&?&Hz1). run_setitem1 Hz1.
    destruct Hr2 as (?&?&?&?&Hr2). run_setitem0 Hr2. run_pure. done. }
  assert (Hrep3 : rep s3 (e :: l)).
  { split.
    - by apply NoDup_cons.
    - by apply NoDup_cons.
    - unfold s3. cbn [cache with_cache]. by rewrite (rep_cache _ _ Hr).
    - done.
    - done.
    - change (dseg h3 (last_ref l a) (e :: l) a).
      rewrite (last_ref_nonempty l a r) by done. exact Hd3. }
  assert (Hover : full s3 || (maxsize s3 <? len s3) = over).
  { unfold over. by rewrite (rep_len _ _ Hrep3). }
  rewrite Hrun. run_pure. rewrite Hover. destruct over.
  - (* the last link is taken out *)
    destruct (snoc_inv _ Hne) as (l0 & ez & Hl). rewrite Hl, removelast_last.
    rewrite Hl in Hrep3, Hd3, Hnd, Hndk, Hk.
    assert (Hze : z = eref ez) by (unfold z; by rewrite Hl, last_ref_snoc).
    set (l1 := e :: l0) in *. set (y := last_ref l1 a).
    assert (Hne1 : l1 ≠ []) by done.
    assert (Hnd3 : NoDup (refs (l1 ++ [ez]))) by apply Hrep3.
    assert (Hd3' : dseg h3 (last_ref (l1 ++ [ez]) a) (l1 ++ [ez]) a).
    { rewrite last_ref_snoc, <-Hze. exact Hd3. }
    destruct (dseg_unlink _ _ _ _ _ Hne1 eq_refl Hnd3 Hd3') as [Hd5 _].
    fold y in Hd5. cbn [first_ref] in Hd5. rewrite !app_nil_r in Hd5.
    set (h4 := alter (set_next a) y h3) in *.
    set (h5 := alter (set_prev y) a h4) in *.
    assert (Hla3 : ∃ na, h3 !! a = Some (Link z na k v)).
    { destruct Hd3 as [Hl3 _]. eauto. }
    destruct Hla3 as [na Hla3].
    assert (Hlz3 : h3 !! z = Some (Link y a (ekey ez) (evalue ez))).
    { apply dseg_app in Hd3' as [_ [Hlz _]]. rewrite <-Hze in Hlz.
      by rewrite (last_ref_nonempty l1 _ a) in Hlz. }
    assert (Hy3 : is_link h3 y).
    { eapply dseg_lookup_ref; [exact Hd3'|]. unfold refs.
      rewrite fmap_app. apply elem_of_app. left. by apply last_ref_elem. }
    assert (Hyz : y ≠ z).
    { intros Heq. unfold refs in Hnd3. rewrite fmap_app in Hnd3.
      apply NoDup_app in Hnd3 as (_ & Hdisj & _).
      apply (Hdisj y); [by apply last_ref_elem|].
      rewrite Heq, Hze. apply list_elem_of_here. }
    assert (Hlz4 : h4 !! z = Some (Link y a (ekey ez) (evalue ez))).
    { unfold h4. by rewrite list_lookup_alter_ne. }
    assert (Ha4 : is_link h4 a) by (apply is_link_alter_next; red; eauto).
    assert (Hlz5 : h5 !! z = Some (Link y a (ekey ez) (evalue ez))).
    { unfold h5. rewrite list_lookup_alter_ne; [done|]. intros <-.
      apply Ha. rewrite Hl. unfold refs. rewrite fmap_app. apply elem_of_app.
      right. rewrite Hze. apply list_elem_of_here. }
    assert (Hkz : (ekey ez ∉ keys l0) ∧ (ekey ez ≠ k)).
    { unfold keys in *. rewrite fmap_app in *. simpl in *. split.
      - apply NoDup_app in Hndk as (_ & Hdisj & _). intros Hin.
        apply (Hdisj _ Hin). apply list_elem_of_here.
      - intros Heq. apply Hk. apply elem_of_app. right. rewrite Heq.
        apply list_elem_of_here. }
    destruct Hkz as [Hkz0 Hkzk].
    assert (Hcz : cache s3 !! ekey ez = Some z).
    { apply (rep_lookup _ _ _ _ Hrep3). exists (evalue ez). rewrite Hze.
      destruct ez. simpl. apply list_elem_of_further, elem_of_app. right.
      apply list_elem_of_here. }
    exists (with_cache (delete (ekey ez) (cache s3))
              (with_heap h5 (with_full true s3))).
    split; [|split; [|done]].
    + run_pure. run_pure. run_item0 Hla3. run_item0 Hlz3.
      destruct Hy3 as (?&?&?&?&Hy3). run_setitem1 Hy3.
      run_item0 Hlz4. destruct Ha4 as (?&?&?&?&Ha4). run_setitem0 Ha4.
      run_item2 Hlz5. unfold cache_delitem.
      cbn [cache with_heap with_full with_cache]. by rewrite Hcz.
    + split.
      * unfold refs in Hnd3. rewrite fmap_app in Hnd3.
        apply NoDup_app in Hnd3 as [Hn _]. exact Hn.
      * pose proof (rep_keys _ _ Hrep3) as Hk3.
        change (NoDup (ekey <$> (l1 ++ [ez]))) in Hk3.
        rewrite fmap_app in Hk3. apply NoDup_app in Hk3 as [Hn _]. exact Hn.
      * cbn [cache with_cache]. rewrite (rep_cache _ _ Hrep3).
        change (index (e :: l0 ++ [ez])) with (index (l1 ++ [ez])).
        unfold index. rewrite fmap_app. simpl.
        change (list_fmap _ _ _ l0) with (index l0).
        rewrite list_to_map_snoc by by rewrite index_fst.
        rewrite delete_insert_ne, delete_insert_eq by done. f_equal.
        apply delete_id, not_elem_of_list_to_map_1. by rewrite index_fst.
      * done.
      * done.
      * exact Hd5.
  - exists s3. split; [done|]. split; [done|]. split; [done|].
    by apply orb_false_iff in Hover as [Hf _].
Qed.

(** ** What the observations see of a represented list *)

Lemma rep_mru s e l : rep s (e :: l) → mru s = Some (ekey e).
Proof.
  intros Hr. destruct (rep_ring _ _ Hr) as [Hl _].
  pose proof (rep_root _ _ Hr) as Hroot. simpl in Hroot.
  unfold mru. by rewrite <-Hroot, Hl.
Qed.

Lemma last_keys l e : last (keys (l ++ [e])) = Some (ekey e).
Proof. unfold keys. rewrite fmap_app. apply last_snoc. Qed.

Lemma rep_lru s l : rep s l → l ≠ [] → lru s = last (keys l).
Proof.
  intros Hr Hne. pose proof (rep_ring _ _ Hr) as Hd.
  pose proof (rep_root _ _ Hr) as Hroot.
  assert (Hlr : ∃ n k v, heap s !! root s = Some (Link (last_ref l (root s)) n k v)).
  { destruct l as [|e l']; [done|]. simpl in Hroot. destruct Hd as [Hl _].
    rewrite Hroot in Hl. eauto. }
  destruct Hlr as (n & k & v & Hlr).
  destruct (snoc_inv _ Hne) as (l' & ez & ->).
  rewrite last_keys. rewrite last_ref_snoc in Hd, Hlr.
  apply dseg_app in Hd as [_ [Hlz _]].
  unfold lru. by rewrite Hlr, Hlz.
Qed.

(** ** The invariant holds from the constructor on *)

Lemma init_rep (m : Z) : rep (init (K:=K) (V:=V) m) [].
Proof. split; try done; apply NoDup_nil_2. Qed.

Lemma init_bounded (m : Z) : 1 ≤ m → bounded (init (K:=K) (V:=V) m) [].
Proof. intros Hm. split; simpl; [done|lia|done]. Qed.

Lemma keys_split l k :
  k ∈ keys l → ∃ l1 a v l2, l = l1 ++ Entry a k v :: l2.
Proof.
  intros ([a k' v] & -> & Hin)%list_elem_of_fmap.
  apply list_elem_of_split in Hin as (l1 & l2 & ->). by exists l1, a, v, l2.
Qed.

Lemma bounded_set_new s s' l k v a :
  bounded s l → l ≠ [] → maxsize s' = maxsize s →
  full s' = full s || (maxsize s <? Z.of_nat (S (length l))) →
  bounded s'
    (Entry a k v ::
       (if full s || (maxsize s <? Z.of_nat (S (length l)))
        then removelast l else l)).
Proof.
  intros [Hpos Hlen Hfull] Hne Hmax Hf.
  destruct (snoc_inv _ Hne) as (l0 & ez & ->).
  rewrite length_app in *. simpl in *.
  destruct (full s) eqn:Efull; simpl in *.
  - rewrite removelast_last. specialize (Hfull eq_refl).
    split; rewrite ?Hmax; simpl; lia.
  - destruct (maxsize s <? _) eqn:Elt.
    + apply Z.ltb_lt in Elt. rewrite removelast_last.
      split; rewrite ?Hmax; simpl; lia.
    + apply Z.ltb_ge in Elt.
      split; rewrite ?Hmax, ?Hf; simpl; rewrite ?length_app; simpl; try lia; done.
Qed.

(** Every call succeeds on a represented cache of positive capacity and
    leaves a represented cache of the same capacity. *)
Lemma exec_inv s l c :
  rep s l → bounded s l →
  ∃ s' l', exec c s = Ok tt s' ∧ rep s' l' ∧ bounded s' l'
           ∧ maxsize s' = maxsize s.
Proof.
  intros Hr Hb. destruct c as [k v|k d|]; simpl.
  3:{ eexists _, []. split; [reflexivity|]. split_and!.
      - split; simpl; try done; try apply NoDup_nil_2.
        intros _. by rewrite list_lookup_middle.
      - split; simpl; [apply Hb| |done]. pose proof (bounded_pos _ _ Hb). lia.
      - done. }
  - destruct (decide (k ∈ keys l)) as [Hin|Hnin].
    + exists s, l. split; [|done]. apply set_present.
      rewrite <-not_eq_None_Some, (rep_lookup_None _ _ _ Hr). tauto.
    + destruct (decide (l = [])) as [->|Hne].
      * assert (Hfull : full s = false).
        { destruct (full s) eqn:E; [|done].
          pose proof (bounded_full _ _ Hb E). pose proof (bounded_pos _ _ Hb).
          simpl in *. lia. }
        destruct (set_first _ k v Hr Hfull (bounded_pos _ _ Hb))
          as (s' & Hs & Hr' & Hm & Hf).
        exists s', [Entry (root s) k v]. split_and!; try done.
        split; rewrite ?Hm, ?Hf; simpl; [apply Hb| |done].
        pose proof (bounded_pos _ _ Hb). lia.
      * destruct (set_new _ _ k v Hr Hne Hnin) as (s' & Hs & Hr' & Hm & Hf).
        eexists s', _. split_and!; [done|exact Hr'| |done].
        by apply bounded_set_new.
  - destruct (decide (k ∈ keys l)) as [Hin|Hnin].
    + destruct (keys_split _ _ Hin) as (l1 & a & v & l2 & ->).
      destruct (decide (l1 = [])) as [->|Hne].
      * exists s, (Entry a k v :: l2). by rewrite (get_root _ _ _ _ _ _ Hr).
      * destruct (get_move _ _ _ _ _ _ d Hne Hr) as (s' & -> & Hr' & Hm & Hf & _).
        exists s', (Entry a k v :: l1 ++ l2). split_and!; try done.
        destruct Hb as [Hpos Hlen Hfull].
        rewrite length_app in *. simpl in *.
        split; rewrite ?Hm, ?Hf; simpl; rewrite ?length_app; [done|lia|].
        intros Hff. specialize (Hfull Hff). lia.
    + exists s, l. by rewrite (get_absent _ _ _ _ Hr Hnin).
Qed.

Lemma run_inv cs s l :
  rep s l → bounded s l →
  ∃ s' l', run cs s = Ok tt s' ∧ rep s' l' ∧ bounded s' l'
           ∧ maxsize s' = maxsize s.
Proof.
  revert s l. induction cs as [|c cs IH]; intros s l Hr Hb; simpl.
  - by exists s, l.
  - destruct (exec_inv _ _ c Hr Hb) as (s1 & l1 & -> & Hr1 & Hb1 & Hm1).
    destruct (IH _ _ Hr1 Hb1) as (s2 & l2 & Hrun & Hr2 & Hb2 & Hm2).
    exists s2, l2. split_and!; try done. congruence.
Qed.

Lemma run_init_inv cs m s :
  1 ≤ m → run cs (init m) = Ok tt s →
  ∃ l, rep s l ∧ bounded s l ∧ maxsize s = m.
Proof.
  intros Hm Hrun.
  destruct (run_inv cs _ _ (init_rep m) (init_bounded m Hm))
    as (s' & l & Hrun' & Hr & Hb & Hmax).
  rewrite Hrun in Hrun'. injection Hrun' as ->. by exists l.
Qed.

(** The value read under a key of a represented cache. *)
Lemma rep_peek_items s l a k v : rep s l → Entry a k v ∈ l → peek k s = Some v.
Proof.
  intros Hr Hin. unfold peek.
  rewrite (proj2 (rep_lookup _ _ _ _ Hr) (ex_intro _ v Hin)).
  destruct (dseg_lookup _ _ _ _ _ (rep_ring _ _ Hr) Hin) as (p & n & Hl).
  simpl in Hl. by rewrite Hl.
Qed.

(** ** [__getitem__] *)

Lemma getitem_get s k d : is_Some (cache s !! k) → getitem k s = get k d s.
Proof. intros [r Hc]. unfold getitem, get, bind, gets. by rewrite Hc. Qed.

Lemma getitem_missing s k : cache s !! k = None → getitem k s = Raise KeyError.
Proof. intros Hc. unfold getitem, bind, gets. by rewrite Hc. Qed.

(** ** The list of items of a represented cache *)

Lemma rep_items s l : rep s l → items s = item_of <$> l.
Proof.
  intros Hr. unfold items. rewrite (rep_order _ _ Hr).
  assert (Hsub : ∀ l0, (∀ e, e ∈ l0 → e ∈ l) →
    omap (λ k, pair k <$> peek k s) (keys l0) = item_of <$> l0).
  { induction l0 as [|[a k v] l0 IH]; intros Hsub; [done|].
    unfold keys. rewrite !fmap_cons. cbn [omap list_omap ekey].
    rewrite (rep_peek_items s l a k v Hr) by apply Hsub, list_elem_of_here.
    cbn [fmap option_fmap option_map]. f_equal. apply IH.
    intros e He. by apply Hsub, list_elem_of_further. }
  by apply Hsub.
Qed.

Lemma item_keys l : (item_of <$> l).*1 = keys l.
Proof. unfold keys. rewrite <-list_fmap_compose. by apply list_fmap_ext. Qed.

Lemma removelast_fmap {A B} (f : A → B) (xs : list A) :
  f <$> removelast xs = removelast (f <$> xs).
Proof.
  induction xs as [|x [|y xs] IH]; [done|done|].
  change (f x :: (f <$> removelast (y :: xs))
          = f x :: removelast (f <$> y :: xs)).
  by rewrite IH.
Qed.

Lemma filter_key_absent l k :
  k ∉ keys l →
  filter (λ kv : K * V, kv.1 = k) (item_of <$> l) = []
  ∧ filter (λ kv : K * V, kv.1 ≠ k) (item_of <$> l) = item_of <$> l.
Proof.
  induction l as [|[a k' v] l IH]; [done|].
  unfold keys. rewrite fmap_cons. intros [Hk Hl]%not_elem_of_cons.
  destruct (IH Hl) as [IH1 IH2]. rewrite fmap_cons. simpl in Hk. split.
  - rewrite filter_cons_False by (simpl; congruence). done.
  - rewrite filter_cons_True by (simpl; congruence). by rewrite IH2.
Qed.

(** Every call does to the items of a represented cache of positive
    capacity what the list model says. *)
Lemma exec_model s l c :
  rep s l → bounded s l →
  ∃ s' l', exec c s = Ok tt s' ∧ rep s' l' ∧ bounded s' l'
           ∧ maxsize s' = maxsize s
           ∧ item_of <$> l' = lru_step (maxsize s) c (item_of <$> l).
Proof.
  intros Hr Hb. destruct c as [k v|k d|]; simpl.
  3:{ eexists _, []. split; [reflexivity|]. split_and!.
      - split; simpl; try done; try apply NoDup_nil_2.
        intros _. by rewrite list_lookup_middle.
      - split; simpl; [apply Hb| |done]. pose proof (bounded_pos _ _ Hb). lia.
      - done.
      - done. }
  - unfold lru_set. rewrite item_keys, length_fmap.
    destruct (decide (k ∈ keys l)) as [Hin|Hnin].
    + exists s, l. split_and!; try done. apply set_present.
      rewrite <-not_eq_None_Some, (rep_lookup_None _ _ _ Hr). tauto.
    + destruct (decide (l = [])) as [->|Hne].
      * assert (Hfull : full s = false).
        { destruct (full s) eqn:E; [|done].
          pose proof (bounded_full _ _ Hb E). pose proof (bounded_pos _ _ Hb).
          simpl in *. lia. }
        destruct (set_first _ k v Hr Hfull (bounded_pos _ _ Hb))
          as (s' & Hs & Hr' & Hm & Hf).
        exists s', [Entry (root s) k v]. split_and!; try done.
        -- split; rewrite ?Hm, ?Hf; simpl; [apply Hb| |done].
           pose proof (bounded_pos _ _ Hb). lia.
        -- pose proof (bounded_pos _ _ Hb). simpl.
           by rewrite (proj2 (Z.ltb_ge _ _)) by lia.
      * destruct (set_new _ _ k v Hr Hne Hnin) as (s' & Hs & Hr' & Hm & Hf).
        eexists s', _. split_and!; [done|exact Hr'| |done|].
        -- by apply bounded_set_new.
        -- assert (Hov : full s || (maxsize s <? Z.of_nat (S (length l)))
                         = (maxsize s <? Z.of_nat (S (length l)))).
           { destruct (full s) eqn:E; [|done]. simpl. symmetry.
             apply Z.ltb_lt. pose proof (bounded_full _ _ Hb E). lia. }
           rewrite Hov. rewrite fmap_cons.
           destruct (maxsize s <? _); [by rewrite removelast_fmap|done].
  - unfold lru_get. destruct (decide (k ∈ keys l)) as [Hin|Hnin].
    + destruct (keys_split _ _ Hin) as (l1 & a & v & l2 & ->).
      pose proof (rep_keys _ _ Hr) as Hnd. unfold keys in Hnd.
      rewrite fmap_app, fmap_cons in Hnd.
      apply NoDup_app in Hnd as (_ & Hd1 & [Hd2 _]%NoDup_cons). simpl in *.
      assert (Hk1 : k ∉ keys l1).
      { intros Hin1. by apply (Hd1 _ Hin1), list_elem_of_here. }
      destruct (filter_key_absent _ _ Hk1) as [F1 F1'].
      destruct (filter_key_absent l2 k Hd2) as [F2 F2'].
      assert (Hmodel : item_of <$> Entry a k v :: l1 ++ l2 =
        filter (λ kv : K * V, kv.1 = k) (item_of <$> l1 ++ Entry a k v :: l2)
        ++ filter (λ kv : K * V, kv.1 ≠ k) (item_of <$> l1 ++ Entry a k v :: l2)).
      { rewrite !fmap_app, !fmap_cons, !filter_app.
        rewrite (filter_cons_True (λ kv : K * V, kv.1 = k)) by done.
        rewrite (filter_cons_False (λ kv : K * V, kv.1 ≠ k))
          by (intros Hkk; by apply Hkk).
        rewrite F1, F1', F2, F2'. by rewrite fmap_app. }
      destruct (decide (l1 = [])) as [->|Hne].
      * exists s, (Entry a k v :: l2). rewrite (get_root _ _ _ _ _ _ Hr).
        split_and!; try done.
      * destruct (get_move _ _ _ _ _ _ d Hne Hr) as (s' & -> & Hr' & Hm & Hf & _).
        exists s', (Entry a k v :: l1 ++ l2). split_and!; try done.
        destruct Hb as [Hpos Hlen Hfull].
        rewrite length_app in *. simpl in *.
        split; rewrite ?Hm, ?Hf; simpl; rewrite ?length_app; [done|lia|].
        intros Hff. specialize (Hfull Hff). lia.
    + exists s, l. rewrite (get_absent _ _ _ _ Hr Hnin).
      destruct (filter_key_absent _ _ Hnin) as [-> ->]. by split_and!.
Qed.

Lemma run_model cs s l :
  rep s l → bounded s l →
  ∃ s' l', run cs s = Ok tt s' ∧ rep s' l' ∧ bounded s' l'
           ∧ maxsize s' = maxsize s
           ∧ item_of <$> l' = lru_run (maxsize s) cs (item_of <$> l).
Proof.
  revert s l. induction cs as [|c cs IH]; intros s l Hr Hb; simpl.
  - by exists s, l.
  - destruct (exec_model _ _ c Hr Hb) as (s1 & l1 & -> & Hr1 & Hb1 & Hm1 & Hl1).
    destruct (IH _ _ Hr1 Hb1) as (s2 & l2 & Hrun & Hr2 & Hb2 & Hm2 & Hl2).
    exists s2, l2. split_and!; try done; [congruence|].
    by rewrite Hl2, Hm1, Hl1.
Qed.

(** ** A cache whose capacity is not positive *)

Lemma init_fresh (m : Z) : fresh (init (K:=K) (V:=V) m).
Proof. by split_and!. Qed.

Lemma clear_fresh s :
  ∃ s', clear s = Ok tt s' ∧ fresh s' ∧ maxsize s' = maxsize s.
Proof.
  eexists. split; [reflexivity|]. split; [|done]. split_and!; try done.
  simpl. by rewrite list_lookup_middle.
Qed.

Lemma get_empty s k d : cache s = ∅ → get k d s = Ok d s.
Proof. intros Hc. unfold get. run_pure. by rewrite Hc, lookup_empty. Qed.

Lemma set_fresh s k v :
  fresh s → maxsize s ≤ 0 →
  ∃ s', set k v s = Ok tt s' ∧ void k s' ∧ maxsize s' = maxsize s.
Proof.
  intros (Hc & Hfull & Hnil) Hm. set (r := root s) in *.
  assert (Hlt : (r < length (heap s))%nat) by by apply lookup_lt_Some in Hnil.
  set (h1 := <[r := Link r r k v]> (heap s)).
  assert (H1 : h1 !! r = Some (Link r r k v)) by by apply list_lookup_insert_eq.
  set (h2 := alter (set_next r) r h1).
  assert (H2 : h2 !! r = Some (Link r r k v)).
  { unfold h2. by rewrite list_lookup_alter_eq, H1. }
  set (h3 := alter (set_prev r) r h2).
  assert (H3 : h3 !! r = Some (Link r r k v)).
  { unfold h3. by rewrite list_lookup_alter_eq, H2. }
  exists (mkLRU (maxsize s) ∅ true r h3). split; [|split; [|done]].
  - unfold set. run_pure. rewrite Hc, lookup_empty.
    run_pure. unfold is_empty. run_pure. fold r. rewrite Hnil.
    unfold slice_assign. run_pure. run_pure. run_pure.
    replace (full _ || _) with true.
    2:{ cbn [full with_cache with_heap maxsize]. rewrite Hfull. simpl.
        unfold len. cbn [cache with_cache]. rewrite Hc.
        rewrite map_size_insert_None, map_size_empty by apply lookup_empty.
        symmetry. apply Z.ltb_lt. lia. }
    run_pure. run_pure. run_item0 H1. run_item0 H1. run_setitem1 H1.
    run_item0 H2. run_setitem0 H2. run_item2 H3.
    unfold cache_delitem. cbn [cache with_cache with_heap with_full root].
    fold r. rewrite lookup_insert_eq. unfold with_cache, with_heap, with_full.
    cbn. rewrite Hc, delete_insert_eq, delete_empty. done.
  - split_and!; [done|done|]. by exists v.
Qed.

Lemma set_void s kr k v :
  void kr s →
  if decide (k = kr)
  then ∃ s', set k v s = Ok tt s' ∧ void k s' ∧ maxsize s' = maxsize s
  else set k v s = Raise KeyError.
Proof.
  intros (Hc & Hfull & vr & Hr). set (r := root s) in *.
  set (a := length (heap s)).
  assert (Hlt : (r < a)%nat) by by apply lookup_lt_Some in Hr.
  assert (Hne : r ≠ a) by lia.
  set (h1 := heap s ++ [Link r r k v]).
  assert (H1r : h1 !! r = Some (Link r r kr vr)) by by apply lookup_app_l_Some.
  assert (H1a : h1 !! a = Some (Link r r k v)) by by apply list_lookup_middle.
  set (h2 := alter (set_next a) r h1).
  assert (H2r : h2 !! r = Some (Link r a kr vr)).
  { unfold h2. by rewrite list_lookup_alter_eq, H1r. }
  set (h3 := alter (set_prev a) r h2).
  assert (H3r : h3 !! r = Some (Link a a kr vr)).
  { unfold h3. by rewrite list_lookup_alter_eq, H2r. }
  assert (H3a : h3 !! a = Some (Link r r k v)).
  { unfold h3, h2. by rewrite !list_lookup_alter_ne. }
  set (h4 := alter (set_next a) a h3).
  assert (H4a : h4 !! a = Some (Link r a k v)).
  { unfold h4. by rewrite list_lookup_alter_eq, H3a. }
  assert (H4r : h4 !! r = Some (Link a a kr vr)).
  { unfold h4. by rewrite list_lookup_alter_ne. }
  set (h5 := alter (set_prev a) a h4).
  assert (H5a : h5 !! a = Some (Link a a k v)).
  { unfold h5. by rewrite list_lookup_alter_eq, H4a. }
  assert (H5r : h5 !! r = Some (Link a a kr vr)).
  { unfold h5. by rewrite list_lookup_alter_ne. }
  assert (Hrun : set k v s =
    cache_delitem kr (mkLRU (maxsize s) (<[k := a]> ∅) true a h5)).
  { unfold set. run_pure. rewrite Hc, lookup_empty.
    run_pure. unfold is_empty. run_pure. fold r. rewrite Hr.
    run_item0 Hr. unfold alloc. run_pure. run_pure. run_item0 H1r.
    run_setitem1 H1r. run_setitem0 H2r. run_pure. run_pure.
    replace (full _ || _) with true
      by (cbn [full with_cache with_heap with_root]; by rewrite Hfull).
    run_pure. run_pure. run_item0 H3a. run_item0 H3r. run_setitem1 H3a.
    run_item0 H4r. run_setitem0 H4a. run_item2 H5r.
    unfold with_cache, with_heap, with_full, with_root. cbn. by rewrite Hc. }
  rewrite Hrun. unfold cache_delitem. cbn [cache].
  destruct (decide (k = kr)) as [->|Hk].
  - rewrite lookup_insert_eq. eexists. split; [reflexivity|].
    split; [|done]. split_and!; cbn.
    + by rewrite delete_insert_eq, delete_empty.
    + done.
    + by exists v.
  - by rewrite lookup_insert_ne, lookup_empty.
Qed.

(** The states a cache of capacity [m ≤ 0] is in after a run. *)
Lemma run_void cs s0 s :
  maxsize s0 ≤ 0 → fresh s0 ∨ (∃ kr, void kr s0) →
  run cs s0 = Ok tt s →
  maxsize s = maxsize s0 ∧ cache s = ∅
  ∧ (fresh s ∨ ∃ kr, void kr s)
  ∧ ∀ cs' k v, cs = cs' ++ [Set_ k v] → void k s.
Proof.
  revert s0. induction cs as [|c cs IH]; intros s0 Hm Hs0; simpl.
  - intros [= <-]. split_and!; [done| |done|].
    + destruct Hs0 as [Hf|[kr Hv]]; [apply Hf|apply Hv].
    + intros [|??] ?? [=].
  - destruct (exec c s0) as [[] s1|] eqn:Hex; [|done]. intros Hrun.
    assert (H1 : maxsize s1 = maxsize s0 ∧ (fresh s1 ∨ ∃ kr, void kr s1)
                 ∧ ∀ k v, c = Set_ k v → void k s1).
    { destruct c as [k v|k d|]; simpl in Hex.
      - destruct Hs0 as [Hf|[kr Hv]].
        + destruct (set_fresh _ k v Hf Hm) as (s' & Hs & Hv' & Hm').
          rewrite Hs in Hex. injection Hex as <-.
          split_and!; [done|eauto|]. by intros ?? [= <- <-].
        + pose proof (set_void _ _ k v Hv) as Hs.
          destruct (decide (k = kr)) as [->|Hk]; [|congruence].
          destruct Hs as (s' & Hs & Hv' & Hm').
          rewrite Hs in Hex. injection Hex as <-.
          split_and!; [done|eauto|]. by intros ?? [= <- <-].
      - rewrite get_empty in Hex
          by (destruct Hs0 as [Hf|[kr Hv]]; [apply Hf|apply Hv]).
        injection Hex as <-. by split_and!.
      - destruct (clear_fresh s0) as (s' & Hs & Hf & Hm').
        rewrite Hs in Hex. injection Hex as <-. split_and!; [done|eauto|done]. }
    destruct H1 as (Hm1 & Hs1 & Hset).
    destruct (IH s1 ltac:(lia) Hs1 Hrun) as (Hm2 & Hc2 & Hs2 & Hlast).
    split_and!; [congruence|done|done|].
    intros cs' k v Heq. destruct cs' as [|c' cs'].
    + injection Heq as -> ->. simpl in Hrun. injection Hrun as <-.
      by apply (Hset k v).
    + injection Heq as -> ->. by eapply Hlast.
Qed.

End Ring.

(** ** Properties of [set], [get] and [len] *)

Section Properties.
Context {K : Type} `{Countable K} {V : Type}.
Implicit Types (s : LRUCache K V) (cs : list (call K V)) (k : K) (v d : V).

Lemma contains_false_keys s l k :
  rep s l → contains k s = false → k ∉ keys l.
Proof.
  intros Hr Hc. rewrite (rep_contains _ _ _ Hr) in Hc.
  by apply bool_decide_eq_false in Hc.
Qed.

Lemma contains_true_keys s l k :
  rep s l → contains k s = true → k ∈ keys l.
Proof.
  intros Hr Hc. rewrite (rep_contains _ _ _ Hr) in Hc.
  by apply bool_decide_eq_true in Hc.
Qed.

(** [set] of a new key on a cache of positive capacity puts the key at the
    root, whatever else it does. *)
Lemma set_new_key s l k v :
  rep s l → bounded s l → k ∉ keys l →
  ∃ s' a l', set k v s = Ok tt s' ∧ rep s' (Entry a k v :: l').
Proof.
  intros Hr Hb Hk. destruct (decide (l = [])) as [->|Hne].
  - assert (Hfull : full s = false).
    { destruct (full s) eqn:E; [|done].
      pose proof (bounded_full _ _ Hb E). pose proof (bounded_pos _ _ Hb).
      simpl in *. lia. }
    destruct (set_first _ k v Hr Hfull (bounded_pos _ _ Hb)) as (s' & Hs & Hr' & _).
    by exists s', (root s), [].
  - destruct (set_new _ _ k v Hr Hne Hk) as (s' & Hs & Hr' & _).
    by eexists s', _, _.
Qed.

(** C1, as the code has it.  On a cache of positive capacity, in any state
    reached by [set], [get] and [clear] calls: when [k] is not yet a key,
    [set k v]
    makes [k] the most recently used key and [get k] then returns [v] and
    leaves [k] the most recently used; when [k] is already a key, [set k v]
    changes nothing, neither the value stored under [k] nor the recency
    order, and [get k] returns the value that was stored under [k] before
    the [set], and makes [k] the most recently used key. *)
Theorem set_then_get (m : Z) cs s k v d :
  1 ≤ m → run cs (init m) = Ok tt s →
  ∃ s1, set k v s = Ok tt s1 ∧
    if contains k s
    then s1 = s
         ∧ ∃ v0 s2, peek k s = Some v0 ∧ get k d s1 = Ok v0 s2
                    ∧ mru s2 = Some k ∧ peek k s2 = Some v0
    else mru s1 = Some k ∧ get k d s1 = Ok v s1.
Proof.
  intros Hm Hrun. destruct (run_init_inv _ _ _ Hm Hrun) as (l & Hr & Hb & _).
  destruct (contains k s) eqn:Hc.
  - exists s. split.
    { apply set_present. unfold contains in Hc.
      by apply bool_decide_eq_true in Hc. }
    split; [done|].
    destruct (keys_split _ _ (contains_true_keys _ _ _ Hr Hc))
      as (l1 & a & v0 & l2 & ->).
    assert (Hpk : peek k s = Some v0).
    { apply (rep_peek_items _ _ a _ _ Hr). apply elem_of_app. right.
      apply list_elem_of_here. }
    destruct (decide (l1 = [])) as [->|Hne].
    + exists v0, s. split_and!; [done|by eapply get_root| |done].
      by rewrite (rep_mru _ _ _ Hr).
    + destruct (get_move _ _ _ _ _ _ d Hne Hr) as (s2 & Hg & Hr2 & _).
      exists v0, s2. split_and!; [done|done| |].
      * by rewrite (rep_mru _ _ _ Hr2).
      * apply (rep_peek_items _ _ a _ _ Hr2). apply list_elem_of_here.
  - destruct (set_new_key _ _ k v Hr Hb (contains_false_keys _ _ _ Hr Hc))
      as (s1 & a & l' & Hs & Hr1).
    exists s1. split; [done|]. split.
    + by rewrite (rep_mru _ _ _ Hr1).
    + by eapply get_root.
Qed.

Lemma keys_removelast (l : list (entry K V)) :
  keys (removelast l) = removelast (keys l).
Proof.
  destruct (decide (l = [])) as [->|Hne]; [done|].
  destruct (snoc_inv _ Hne) as (l0 & ez & ->).
  unfold keys. rewrite fmap_app. simpl. by rewrite !removelast_last.
Qed.

(** The eviction step of [set], on a cache of positive capacity. *)
Lemma set_evicts s l k v :
  rep s l → bounded s l → k ∉ keys l →
  full s || (maxsize s <? len s + 1) = true →
  ∃ s' kl, set k v s = Ok tt s' ∧ lru s = Some kl ∧ last (order s) = Some kl
    ∧ order s' = k :: removelast (order s)
    ∧ (∀ k', contains k' s' = bool_decide (k' ∈ order s'))
    ∧ len s' = len s
    ∧ rep s' (Entry (length (heap s)) k v :: removelast l)
    ∧ maxsize s' = maxsize s ∧ full s' = true.
Proof.
  intros Hr Hb Hk Hover.
  rewrite (rep_len _ _ Hr) in Hover.
  replace (Z.of_nat (length l) + 1) with (Z.of_nat (S (length l))) in Hover by lia.
  assert (Hne : l ≠ []).
  { intros ->. simpl in Hover. apply orb_true_iff in Hover as [Hf|Hlt].
    - pose proof (bounded_full _ _ Hb Hf). pose proof (bounded_pos _ _ Hb).
      simpl in *. lia.
    - apply Z.ltb_lt in Hlt. pose proof (bounded_pos _ _ Hb). lia. }
  destruct (set_new _ _ k v Hr Hne Hk) as (s' & Hs & Hr' & Hmax & Hf).
  rewrite Hover in Hr', Hf.
  destruct (snoc_inv _ Hne) as (l0 & ez & Hl).
  exists s', (ekey ez). split_and!; try done.
  - rewrite (rep_lru _ _ Hr Hne), Hl. apply last_keys.
  - rewrite (rep_order _ _ Hr), Hl. apply last_keys.
  - rewrite (rep_order _ _ Hr), (rep_order _ _ Hr'). simpl.
    by rewrite keys_removelast.
  - intros k'. by rewrite (rep_contains _ _ _ Hr'), (rep_order _ _ Hr').
  - rewrite (rep_len _ _ Hr), (rep_len _ _ Hr'), Hl, removelast_last.
    rewrite length_app. simpl. lia.
Qed.

(** The scenario of the specification: capacity 2 and
    [set(a,1); set(b,2); get(a); set(c,3)]. *)
Lemma scenario_capacity_2 (a b c : K) (v1 v2 v3 d : V) :
  a ≠ b → a ≠ c → b ≠ c →
  ∃ s, run [Set_ a v1; Set_ b v2; Get_ a d; Set_ c v3] (init 2) = Ok tt s
    ∧ contains a s = true ∧ contains c s = true ∧ contains b s = false.
Proof.
  intros Hab Hac Hbc. unfold run, exec.
  destruct (set_first _ a v1 (init_rep 2) eq_refl ltac:(simpl; lia))
    as (s1 & -> & Hr1 & Hm1 & Hf1).
  assert (Hkb : b ∉ keys [Entry (root (init (K:=K) (V:=V) 2)) a v1]).
  { unfold keys. simpl. by intros [?|[]%elem_of_nil]%elem_of_cons. }
  destruct (set_new _ _ b v2 Hr1 ltac:(discriminate) Hkb)
    as (s2 & -> & Hr2 & Hm2 & Hf2).
  rewrite Hf1, Hm1 in Hr2, Hf2. cbn in Hr2, Hf2.
  set (eb := Entry (length (heap s1)) b v2) in *.
  assert (Hne : [eb] ≠ []) by discriminate.
  destruct (get_move s2 [eb] 0%nat a v1 [] d Hne Hr2)
    as (s3 & -> & Hr3 & Hm3 & Hf3 & _).
  assert (Hkc : c ∉ keys (Entry 0%nat a v1 :: [eb] ++ [])).
  { unfold keys. simpl.
    intros [?|[?|[]%elem_of_nil]%elem_of_cons]%elem_of_cons; congruence. }
  destruct (set_new _ _ c v3 Hr3 ltac:(discriminate) Hkc)
    as (s4 & -> & Hr4 & Hm4 & Hf4).
  rewrite Hf3, Hf2, Hm3, Hm2, Hm1 in Hr4. cbn in Hr4.
  exists s4. split; [done|].
  rewrite !(rep_contains _ _ _ Hr4). unfold keys. simpl. split_and!.
  - apply bool_decide_eq_true. apply list_elem_of_further, list_elem_of_here.
  - apply bool_decide_eq_true. apply list_elem_of_here.
  - apply bool_decide_eq_false.
    intros [?|[?|[]%elem_of_nil]%elem_of_cons]%elem_of_cons; congruence.
Qed.

(** C2, for caches of positive capacity.  In any state reached by [set],
    [get] and [clear] calls, when [set] introduces a new key and the dictionary
    outgrows [maxsize], or [full] was already set, [set] returns with
    exactly the least recently used key [self.root[0][2]] gone: the recency
    order afterwards is the new key followed by the old order without its
    last key, and [len] is what it was.  In particular capacity 2 and
    [set(a,1); set(b,2); get(a); set(c,3)] leave [a] and [c] contained and
    [b] not. *)
Theorem set_evicts_lru :
  (∀ (m : Z) cs s k v,
     1 ≤ m → run cs (init m) = Ok tt s → contains k s = false →
     full s || (maxsize s <? len s + 1) = true →
     ∃ s' kl, set k v s = Ok tt s' ∧ lru s = Some kl
       ∧ last (order s) = Some kl
       ∧ order s' = k :: removelast (order s)
       ∧ (∀ k', contains k' s' = bool_decide (k' ∈ order s'))
       ∧ len s' = len s)
  ∧ (∀ (a b c : K) (v1 v2 v3 d : V),
       a ≠ b → a ≠ c → b ≠ c →
       ∃ s, run [Set_ a v1; Set_ b v2; Get_ a d; Set_ c v3] (init 2) = Ok tt s
         ∧ contains a s = true ∧ contains c s = true ∧ contains b s = false).
Proof.
  split.
  - intros m cs s k v Hm Hrun Hc Hover.
    destruct (run_init_inv _ _ _ Hm Hrun) as (l & Hr & Hb & _).
    destruct (set_evicts _ _ k v Hr Hb (contains_false_keys _ _ _ Hr Hc) Hover)
      as (s' & kl & ? & ? & ? & ? & ? & ? & _).
    by exists s', kl.
  - apply scenario_capacity_2.
Qed.

(** C3.  On a cache constructed with positive capacity every sequence of
    [set], [get] and [clear] calls runs without an exception, and [len] never
    exceeds [maxsize]; once [full] is set, [len] is exactly [maxsize]. *)
Theorem len_never_exceeds_maxsize (m : Z) cs :
  1 ≤ m →
  ∃ s, run cs (init m) = Ok tt s ∧ len s ≤ m ∧ (full s = true → len s = m).
Proof.
  intros Hm.
  destruct (run_inv cs _ _ (init_rep m) (init_bounded m Hm))
    as (s & l & Hrun & Hr & Hb & Hmax).
  simpl in Hmax. exists s. split; [done|].
  rewrite (rep_len _ _ Hr), <-Hmax. split; apply Hb.
Qed.

(** C9, as the code has it.  The constructor never reports an error: for
    every [maxsize], positive or not, it returns an empty cache with that
    [maxsize] and [full] unset. *)
Theorem construct_never_fails (m : Z) :
  ∃ s : LRUCache K V, construct m = inr s
    ∧ maxsize s = m ∧ len s = 0 ∧ full s = false
    ∧ ∀ k, contains k s = false.
Proof. exists (init m). split_and!; try done. Qed.

Lemma rep_peek s l a k v : rep s l → Entry a k v ∈ l → peek k s = Some v.
Proof.
  intros Hr Hin. unfold peek.
  rewrite (proj2 (rep_lookup _ _ _ _ Hr) (ex_intro _ v Hin)).
  destruct (dseg_lookup _ _ _ _ _ (rep_ring _ _ Hr) Hin) as (p & n & Hl).
  simpl in Hl. by rewrite Hl.
Qed.

Lemma rep_peek_None s l k : rep s l → k ∉ keys l → peek k s = None.
Proof.
  intros Hr Hk. unfold peek. by rewrite (proj2 (rep_lookup_None _ _ _ Hr) Hk).
Qed.

Lemma rep_peek_perm s s' l l' k :
  rep s l → rep s' l' → l ≡ₚ l' → peek k s' = peek k s.
Proof.
  intros Hr Hr' Hp. destruct (decide (k ∈ keys l)) as [Hin|Hnin].
  - destruct (keys_split _ _ Hin) as (l1 & a & v & l2 & Hl).
    assert (He : Entry a k v ∈ l).
    { rewrite Hl. apply elem_of_app. right. apply list_elem_of_here. }
    rewrite (rep_peek _ _ _ _ _ Hr He). apply (rep_peek _ _ a _ _ Hr').
    by rewrite <-Hp.
  - rewrite (rep_peek_None _ _ _ Hr Hnin). apply (rep_peek_None _ _ _ Hr').
    unfold keys in *. by rewrite <-Hp.
Qed.

Lemma filter_other_keys (k : K) (ks : list K) :
  k ∉ ks → filter (λ k', k' ≠ k) ks = ks.
Proof.
  induction ks as [|x ks IH]; [done|].
  intros [Hx Hks]%not_elem_of_cons.
  rewrite filter_cons_True by done. by rewrite IH.
Qed.

(** [get] on a cached key returns the value cached under it and makes the
    key the most recently used, the other keys keeping their order and all
    keys their values; on a key that is not cached it returns the default
    and changes nothing. *)
Theorem get_marks_most_recent (m : Z) cs s k d :
  1 ≤ m → run cs (init m) = Ok tt s →
  ∃ s', get k d s = Ok (default d (peek k s)) s' ∧
    if contains k s
    then mru s' = Some k
         ∧ order s' = k :: filter (λ k', k' ≠ k) (order s)
         ∧ (∀ k', peek k' s' = peek k' s)
         ∧ len s' = len s
    else s' = s.
Proof.
  intros Hm Hrun. destruct (run_init_inv _ _ _ Hm Hrun) as (l & Hr & Hb & _).
  destruct (contains k s) eqn:Hc.
  - destruct (keys_split _ _ (contains_true_keys _ _ _ Hr Hc))
      as (l1 & a & v & l2 & ->).
    assert (Hpk : peek k s = Some v).
    { apply (rep_peek _ _ a _ _ Hr). apply elem_of_app. right.
      apply list_elem_of_here. }
    assert (Hs : ∃ s', get k d s = Ok v s' ∧ rep s' (Entry a k v :: l1 ++ l2)).
    { destruct (decide (l1 = [])) as [->|Hne].
      - exists s. split; [by eapply get_root|done].
      - destruct (get_move _ _ _ _ _ _ d Hne Hr) as (s' & Hg & Hr' & _). eauto. }
    destruct Hs as (s' & Hg & Hr'). exists s'. rewrite Hpk. split; [done|].
    pose proof (rep_keys _ _ Hr) as Hnd. unfold keys in Hnd.
    rewrite fmap_app, fmap_cons in Hnd.
    apply NoDup_app in Hnd as (_ & Hd1 & [Hd2 _]%NoDup_cons). simpl in *.
    split_and!.
    + by rewrite (rep_mru _ _ _ Hr').
    + rewrite (rep_order _ _ Hr), (rep_order _ _ Hr'). unfold keys.
      rewrite !fmap_cons, !fmap_app, fmap_cons, filter_app. simpl.
      rewrite filter_cons_False by (intros Hkk; by apply Hkk).
      rewrite !filter_other_keys; [done|done|].
      intros Hin. by apply (Hd1 _ Hin), list_elem_of_here.
    + intros k'. apply (rep_peek_perm _ _ _ _ _ Hr Hr').
      by rewrite Permutation_middle.
    + rewrite (rep_len _ _ Hr), (rep_len _ _ Hr'). simpl.
      rewrite !length_app. simpl. lia.
  - pose proof (contains_false_keys _ _ _ Hr Hc) as Hk.
    exists s. rewrite (rep_peek_None _ _ _ Hr Hk). simpl.
    split; [by eapply get_absent|done].
Qed.

(** [clear] leaves an empty cache of the same capacity: [len] is 0, no key
    is contained, and [full] is unset. *)
Theorem clear_empties s :
  ∃ s', clear s = Ok tt s' ∧ len s' = 0 ∧ full s' = false
        ∧ maxsize s' = maxsize s ∧ ∀ k, contains k s' = false.
Proof. eexists. split; [reflexivity|]. by split_and!. Qed.

(** [__getitem__] on a cached key does what [get] does: it returns the
    value cached under the key and makes the key the most recently used,
    all keys keeping their values; on a key that is not cached it raises
    [KeyError]. *)
Theorem getitem_cached_or_KeyError (m : Z) cs s k :
  1 ≤ m → run cs (init m) = Ok tt s →
  if contains k s
  then ∃ v s', getitem k s = Ok v s' ∧ peek k s = Some v
         ∧ (∀ d, get k d s = Ok v s')
         ∧ mru s' = Some k ∧ len s' = len s
         ∧ (∀ k', peek k' s' = peek k' s)
  else getitem k s = Raise KeyError.
Proof.
  intros Hm Hrun. destruct (run_init_inv _ _ _ Hm Hrun) as (l & Hr & Hb & _).
  destruct (contains k s) eqn:Hc.
  - assert (Hsome : is_Some (cache s !! k)).
    { unfold contains in Hc. by apply bool_decide_eq_true in Hc. }
    destruct (keys_split _ _ (contains_true_keys _ _ _ Hr Hc))
      as (l1 & a & v & l2 & ->).
    assert (Hpk : peek k s = Some v).
    { apply (rep_peek _ _ a _ _ Hr). apply elem_of_app. right.
      apply list_elem_of_here. }
    assert (Hs : ∃ s', getitem k s = Ok v s' ∧ rep s' (Entry a k v :: l1 ++ l2)).
    { rewrite (getitem_get _ _ v Hsome).
      destruct (decide (l1 = [])) as [->|Hne].
      - exists s. split; [by eapply get_root|done].
      - destruct (get_move _ _ _ _ _ _ v Hne Hr) as (s' & Hg & Hr' & _). eauto. }
    destruct Hs as (s' & Hg & Hr'). exists v, s'. split_and!; try done.
    + intros d. by rewrite <-(getitem_get _ _ d Hsome).
    + by rewrite (rep_mru _ _ _ Hr').
    + rewrite (rep_len _ _ Hr), (rep_len _ _ Hr'). simpl.
      rewrite !length_app. simpl. lia.
    + intros k'. apply (rep_peek_perm _ _ _ _ _ Hr Hr').
      by rewrite Permutation_middle.
  - apply getitem_missing. apply (rep_lookup_None _ _ _ Hr).
    by apply (contains_false_keys s).
Qed.

(** A cache of positive capacity is the list of its items, most recently
    used first: after any sequence of [set], [get] and [clear] calls the
    items are those the list model computes, where [set] of a cached key
    does nothing, [set] of a new key puts it in front and drops the last
    item when the list outgrows the capacity, [get] of a cached key moves
    its item to the front, and [clear] empties the list.  The keys of the
    list are distinct, the key at the root is the first and the key before
    the root is the last. *)
Theorem lru_refines_list (m : Z) cs s :
  1 ≤ m → run cs (init m) = Ok tt s →
  items s = lru_run m cs []
  ∧ order s = (items s).*1
  ∧ NoDup (items s).*1
  ∧ len s = Z.of_nat (length (items s))
  ∧ mru s = head (items s).*1
  ∧ lru s = last (items s).*1
  ∧ ∀ k, peek k s = (list_to_map (items s) : gmap K V) !! k.
Proof.
  intros Hm Hrun.
  destruct (run_model cs _ _ (init_rep m) (init_bounded m Hm))
    as (s' & l & Hrun' & Hr & Hb & Hmax & Hl).
  rewrite Hrun in Hrun'. injection Hrun' as <-.
  rewrite (rep_items _ _ Hr). split_and!.
  - exact Hl.
  - by rewrite item_keys, (rep_order _ _ Hr).
  - rewrite item_keys. apply Hr.
  - by rewrite (rep_len _ _ Hr), length_fmap.
  - rewrite item_keys. destruct l as [|e l].
    + unfold mru. by rewrite (rep_nil _ _ Hr eq_refl).
    + by rewrite (rep_mru _ _ _ Hr).
  - rewrite item_keys. destruct (decide (l = [])) as [->|Hne].
    + unfold lru. by rewrite (rep_nil _ _ Hr eq_refl).
    + by apply rep_lru.
  - intros k. destruct (decide (k ∈ keys l)) as [Hin|Hnin].
    + destruct (keys_split _ _ Hin) as (l1 & a & v & l2 & Heq).
      assert (He : Entry a k v ∈ l).
      { rewrite Heq. apply elem_of_app. right. apply list_elem_of_here. }
      rewrite (rep_peek _ _ _ _ _ Hr He). symmetry.
      apply elem_of_list_to_map_1; [rewrite item_keys; apply Hr|].
      apply list_elem_of_fmap. by exists (Entry a k v).
    + rewrite (rep_peek_None _ _ _ Hr Hnin). symmetry.
      apply not_elem_of_list_to_map_1. by rewrite item_keys.
Qed.

(** A cache whose capacity is zero or negative never keeps an entry: after
    any sequence of calls that did not raise, it is empty and [get] returns
    its default.  It takes a [set] of the key of the [set] before, and
    raises [KeyError] on a [set] of any other key. *)
Theorem capacity_not_positive (m : Z) cs s :
  m ≤ 0 → run cs (init m) = Ok tt s →
  len s = 0 ∧ (∀ k, contains k s = false)
  ∧ (∀ k d, get k d s = Ok d s)
  ∧ (∀ k, getitem k s = Raise KeyError)
  ∧ (∀ cs' k v, cs = cs' ++ [Set_ k v] →
       (∀ k' v', k' ≠ k → set k' v' s = Raise KeyError)
       ∧ (∀ v', ∃ s', set k v' s = Ok tt s' ∧ len s' = 0)).
Proof.
  intros Hm Hrun.
  destruct (run_void cs (init m) s Hm (or_introl (init_fresh m)) Hrun)
    as (_ & Hc & _ & Hlast).
  split_and!.
  - unfold len. by rewrite Hc, map_size_empty.
  - intros k. unfold contains. rewrite Hc, lookup_empty.
    apply bool_decide_eq_false. by intros [? ?].
  - intros k d. by apply get_empty.
  - intros k. apply getitem_missing. by rewrite Hc, lookup_empty.
  - intros cs' k v Heq. pose proof (Hlast _ _ _ Heq) as Hv. split.
    + intros k' v' Hk. pose proof (set_void _ _ k' v' Hv) as Hs.
      by rewrite decide_False in Hs.
    + intros v'. pose proof (set_void _ _ k v' Hv) as Hs.
      rewrite decide_True in Hs by done.
      destruct Hs as (s' & Hs & (Hc' & _) & _). exists s'. split; [done|].
      unfold len. by rewrite Hc', map_size_empty.
Qed.

End Properties.

(** ** Concrete runs *)

Section Examples.
Local Open Scope string_scope.
Local Open Scope Z_scope.

(** C1 fails as stated.  With capacity 2, [set(a,1); set(a,2)] leaves 1
    under [a], and [set(a,1); set(b,2); set(a,3)] leaves [b] the most
    recently used key; with capacity 0, [set(a,1)] leaves nothing under
    [a], so [get(a)] returns its default. *)
Lemma set_keeps_cached_value :
  (run same_key_twice (init 2) = Ok tt (after same_key_twice 2)
   ∧ get "a" 0 (after same_key_twice 2) = Ok 1 (after same_key_twice 2))
  ∧ (run old_key_again (init 2) = Ok tt (after old_key_again 2)
     ∧ mru (after old_key_again 2) = Some "b"
     ∧ get "a" 0 (after one_key 2) = Ok 1 (after one_key 2))
  ∧ (set "a" 1 (init 0) = Ok tt (after one_key 0)
     ∧ get "a" 7 (after one_key 0) = Ok 7 (after one_key 0)).
Proof. by vm_compute. Qed.

Lemma set_then_get_witness :
  (∃ s1, set "b" 2 (after one_key 2) = Ok tt s1 ∧
     if contains "b" (after one_key 2)
     then s1 = after one_key 2
          ∧ ∃ v0 s2, peek "b" (after one_key 2) = Some v0
                     ∧ get "b" 0 s1 = Ok v0 s2
                     ∧ mru s2 = Some "b" ∧ peek "b" s2 = Some v0
     else mru s1 = Some "b" ∧ get "b" 0 s1 = Ok 2 s1)
  ∧ (∃ s1, set "a" 5 (after two_keys 2) = Ok tt s1 ∧
       if contains "a" (after two_keys 2)
       then s1 = after two_keys 2
            ∧ ∃ v0 s2, peek "a" (after two_keys 2) = Some v0
                       ∧ get "a" 0 s1 = Ok v0 s2
                       ∧ mru s2 = Some "a" ∧ peek "a" s2 = Some v0
       else mru s1 = Some "a" ∧ get "a" 0 s1 = Ok 5 s1).
Proof.
  split.
  - apply (set_then_get 2 one_key); [lia|by vm_compute].
  - apply (set_then_get 2 two_keys); [lia|by vm_compute].
Defined.

(** C2 fails as stated.  A cache of capacity 0 is [full] after its first
    [set]; the next [set] of a new key raises [KeyError] at
    [del self.cache[last[2]]] instead of returning. *)
Lemma set_raises_on_capacity_0 :
  set "a" 1 (init 0) = Ok tt (after one_key 0)
  ∧ full (after one_key 0) = true
  ∧ contains "b" (after one_key 0) = false
  ∧ set "b" 2 (after one_key 0) = Raise KeyError.
Proof. by vm_compute. Qed.

Lemma set_evicts_lru_witness :
  ∃ s' kl, set "c" 3 (after three_calls 2) = Ok tt s'
    ∧ lru (after three_calls 2) = Some kl
    ∧ last (order (after three_calls 2)) = Some kl
    ∧ order s' = "c" :: removelast (order (after three_calls 2))
    ∧ (∀ k', contains k' s' = bool_decide (k' ∈ order s'))
    ∧ len s' = len (after three_calls 2).
Proof.
  apply (proj1 set_evicts_lru 2 three_calls); [lia|by vm_compute..].
Defined.

Lemma len_never_exceeds_maxsize_witness :
  ∃ s, run three_keys (init 2) = Ok tt s ∧ len s ≤ 2
       ∧ (full s = true → len s = 2).
Proof. apply len_never_exceeds_maxsize. lia. Defined.

Lemma get_marks_most_recent_witness :
  ∃ s', get "a" 0 (after two_keys 2)
        = Ok (default 0 (peek "a" (after two_keys 2))) s' ∧
    if contains "a" (after two_keys 2)
    then mru s' = Some "a"
         ∧ order s' = "a" :: filter (λ k', k' ≠ "a") (order (after two_keys 2))
         ∧ (∀ k', peek k' s' = peek k' (after two_keys 2))
         ∧ len s' = len (after two_keys 2)
    else s' = after two_keys 2.
Proof. apply (get_marks_most_recent 2 two_keys); [lia|by vm_compute]. Defined.

Lemma getitem_cached_or_KeyError_witness :
  if contains "a" (after two_keys 2)
  then ∃ v s', getitem "a" (after two_keys 2) = Ok v s'
         ∧ peek "a" (after two_keys 2) = Some v
         ∧ (∀ d, get "a" d (after two_keys 2) = Ok v s')
         ∧ mru s' = Some "a" ∧ len s' = len (after two_keys 2)
         ∧ (∀ k', peek k' s' = peek k' (after two_keys 2))
  else getitem "a" (after two_keys 2) = Raise KeyError.
Proof.
  apply (getitem_cached_or_KeyError 2 two_keys); [lia|by vm_compute].
Defined.

Lemma lru_refines_list_witness :
  items (after three_calls 2) = lru_run 2 three_calls [].
Proof. apply (lru_refines_list 2 three_calls); [lia|by vm_compute]. Defined.

Lemma capacity_not_positive_witness :
  (∀ k' v', k' ≠ "a" → set k' v' (after one_key 0) = Raise KeyError)
  ∧ (∀ v', ∃ s', set "a" v' (after one_key 0) = Ok tt s' ∧ len s' = 0).
Proof.
  destruct (capacity_not_positive 0 one_key (after one_key 0))
    as (_ & _ & _ & _ & Hlast); [lia|by vm_compute|].
  exact (Hlast [] "a" 1 eq_refl).
Defined.

(** C9 fails as stated.  [LRUCache(0)] and [LRUCache(-1)] are constructed
    without an error, and the cache takes a [set]. *)
Lemma construct_accepts_capacity_0 :
  construct (K:=string) (V:=Z) 0 = inr (init 0)
  ∧ construct (K:=string) (V:=Z) (-1) = inr (init (-1))
  ∧ set "a" 1 (init 0) = Ok tt (after one_key 0).
Proof. by vm_compute. Qed.

End Examples.

End LRUFacts.

(** * Part III, continued: the wrapper of [fifo_cache] *)

Module FifoFacts.
Import Fifo.

Section Wrapper.
Context {A : Type} `{Countable A} {T : Type}.
Variable maxsize : Z.
Variable func : A → T.
Implicit Types (s : closure A T) (a : A) (inputs : list A).

Lemma decorator_inv : inv maxsize func decorator.
Proof.
  split; simpl.
  - intros a. rewrite lookup_empty. split; [by intros ?%elem_of_nil|by intros [? ?]].
  - apply NoDup_nil_2.
  - intros a t. by rewrite lookup_empty.
  - done.
Qed.

(** A hit returns the cached result, whatever the keyword arguments, and
    changes nothing. *)
Lemma wrapper_hit {KW} s a (kw : list (string * KW)) :
  inv maxsize func s → is_Some (cache s !! a) →
  wrapper maxsize func a kw s = Return (func a) s.
Proof.
  intros Hi [t Hc]. unfold wrapper. rewrite Hc.
  by rewrite (inv_val _ _ _ Hi _ _ Hc).
Qed.

Lemma wrapper_kwargs {KW} s a (kw : list (string * KW)) :
  cache s !! a = None → kw ≠ [] →
  wrapper maxsize func a kw s = Raise Assertion.
Proof. intros Hc Hkw. unfold wrapper. rewrite Hc. by destruct kw. Qed.

(** A miss calls [func], appends the arguments to the queue and, when the
    queue has outgrown [maxsize], drops the arguments at its head. *)
Lemma wrapper_miss {KW} s a :
  inv maxsize func s → cache s !! a = None →
  ∃ s', wrapper maxsize func (KW:=KW) a [] s = Return (func a) s'
        ∧ inv maxsize func s'
        ∧ calls s' = calls s ++ [a]
        ∧ queue s' =
            drop (if maxsize <? Z.of_nat (S (length (queue s))) then 1 else 0)
                 (queue s ++ [a]).
Proof.
  intros Hi Hc.
  assert (Hna : a ∉ queue s).
  { rewrite (inv_dom _ _ _ Hi), Hc. by intros [? ?]. }
  set (cache1 := <[a := func a]> (cache s)).
  set (queue1 := queue s ++ [a]).
  assert (Hnd1 : NoDup queue1).
  { apply NoDup_app. split_and!; [apply Hi| |apply NoDup_singleton].
    intros x Hx ->%list_elem_of_singleton. done. }
  assert (Hdom1 : ∀ b, b ∈ queue1 ↔ is_Some (cache1 !! b)).
  { intros b. unfold queue1, cache1. rewrite elem_of_app, list_elem_of_singleton.
    destruct (decide (b = a)) as [->|Hne].
    - rewrite lookup_insert_eq. split; [eauto|by right].
    - rewrite lookup_insert_ne by done. rewrite (inv_dom _ _ _ Hi). tauto. }
  assert (Hval1 : ∀ b t, cache1 !! b = Some t → t = func b).
  { intros b t. unfold cache1. destruct (decide (b = a)) as [->|Hne].
    - rewrite lookup_insert_eq. congruence.
    - rewrite lookup_insert_ne by done. apply (inv_val _ _ _ Hi). }
  assert (Hq1 : queue1 =
    drop (length (calls s) - Z.to_nat maxsize) (calls s ++ [a])).
  { unfold queue1. rewrite (inv_queue _ _ _ Hi) at 1.
    rewrite drop_app_le by lia. done. }
  assert (Hlen : length queue1 =
    S (length (calls s) - (length (calls s) - Z.to_nat maxsize))).
  { unfold queue1. rewrite length_app. rewrite (inv_queue _ _ _ Hi) at 1.
    rewrite length_drop. simpl. lia. }
  assert (Hlen' : length queue1 = S (length (queue s))).
  { unfold queue1. rewrite length_app. simpl. lia. }
  unfold wrapper. rewrite Hc. cbv zeta. fold cache1 queue1. rewrite <-Hlen'.
  destruct (maxsize <? Z.of_nat (length queue1)) eqn:Hov.
  - apply Z.ltb_lt in Hov.
    destruct queue1 as [|x queue2] eqn:Hq; [done|].
    destruct (Hdom1 x) as [[t Ht] _]; [apply list_elem_of_here|].
    rewrite Ht. eexists. split; [reflexivity|].
    apply NoDup_cons in Hnd1 as [Hx Hnd2]. split_and!; [split| |]; simpl.
    + intros b. destruct (decide (b = x)) as [->|Hne].
      * rewrite lookup_delete_eq. split; [done|by intros [? ?]].
      * rewrite lookup_delete_ne by done. rewrite <-Hdom1.
        rewrite elem_of_cons. tauto.
    + done.
    + intros b t'. destruct (decide (b = x)) as [->|Hne].
      * by rewrite lookup_delete_eq.
      * rewrite lookup_delete_ne by done. apply Hval1.
    + rewrite length_app. simpl.
      change queue2 with (drop 1 (x :: queue2)). rewrite Hq1, drop_drop.
      f_equal. lia.
    + done.
    + by rewrite drop_0.
  - apply Z.ltb_ge in Hov. eexists. split; [reflexivity|].
    split_and!; [split| |]; simpl; try done.
    rewrite length_app. simpl. fold queue1. rewrite Hq1. f_equal. lia.
Qed.

Lemma inv_size s : inv maxsize func s → size (cache s) = length (queue s).
Proof.
  intros Hi. rewrite <-size_dom.
  assert (Hd : dom (cache s) = list_to_set (C:=gset A) (queue s)).
  { apply set_eq. intros a.
    by rewrite elem_of_dom, elem_of_list_to_set, (inv_dom _ _ _ Hi). }
  rewrite Hd. apply size_list_to_set, Hi.
Qed.

Lemma inv_bound s :
  inv maxsize func s → Z.of_nat (length (queue s)) ≤ Z.max 0 maxsize.
Proof.
  intros Hi. rewrite (inv_queue _ _ _ Hi), length_drop. lia.
Qed.

Lemma inv_lookup s a :
  inv maxsize func s →
  cache s !! a = if decide (a ∈ queue s) then Some (func a) else None.
Proof.
  intros Hi. destruct (decide (a ∈ queue s)) as [Hin|Hnin].
  - apply (inv_dom _ _ _ Hi) in Hin as [t Ht].
    by rewrite Ht, (inv_val _ _ _ Hi _ _ Ht).
  - rewrite (inv_dom _ _ _ Hi) in Hnin. by apply eq_None_not_Some.
Qed.

(** Every call returns what [func] returns, and keeps the invariant. *)
Lemma fifo_run_inv inputs s :
  inv maxsize func s →
  ∃ s', run maxsize func inputs s = Some (func <$> inputs, s')
        ∧ inv maxsize func s'.
Proof.
  revert s. induction inputs as [|a inputs IH]; intros s Hi; simpl.
  - by exists s.
  - destruct (cache s !! a) as [t|] eqn:Hc.
    + rewrite (wrapper_hit s a [] Hi) by eauto.
      destruct (IH s Hi) as (s' & -> & Hi'). by exists s'.
    + destruct (wrapper_miss (KW:=Empty_set) s a Hi Hc) as (s1 & -> & Hi1 & _).
      destruct (IH s1 Hi1) as (s' & -> & Hi'). by exists s'.
Qed.

Lemma fifo_reached inputs rs s :
  run maxsize func inputs decorator = Some (rs, s) → inv maxsize func s.
Proof.
  intros Hrun. destruct (fifo_run_inv inputs decorator decorator_inv)
    as (s' & Hrun' & Hi). congruence.
Qed.

(** With no more arguments than the cache has room for, nothing is ever
    dropped. *)
Lemma fifo_run_once inputs (all : list A) s rs s' :
  inv maxsize func s → calls s = queue s →
  NoDup all → Z.of_nat (length all) ≤ maxsize →
  (∀ a, a ∈ queue s → a ∈ all) → (∀ a, a ∈ inputs → a ∈ all) →
  run maxsize func inputs s = Some (rs, s') →
  calls s' = queue s'
  ∧ ∀ a, a ∈ queue s' ↔ a ∈ queue s ∨ a ∈ inputs.
Proof.
  intros Hi Hcq Hnd Hlen. revert s rs Hi Hcq.
  induction inputs as [|a inputs IH]; intros s rs Hi Hcq Hq Hin; simpl.
  - intros [= <- <-]. split; [done|]. intros a. rewrite elem_of_nil. tauto.
  - destruct (cache s !! a) as [t|] eqn:Hc.
    + rewrite (wrapper_hit s a [] Hi) by eauto.
      destruct (run _ _ inputs s) as [[rs1 s1]|] eqn:Hrun; [|done].
      intros [= <- <-].
      destruct (IH s rs1 Hi Hcq Hq) as [Hcq' Hq']; [|done|].
      { intros b Hb. by apply Hin, list_elem_of_further. }
      split; [done|]. intros b. rewrite Hq', elem_of_cons.
      assert (a ∈ queue s) by (apply (inv_dom _ _ _ Hi); eauto).
      split; [tauto|]. intros [?|[->|?]]; tauto.
    + destruct (wrapper_miss (KW:=Empty_set) s a Hi Hc)
        as (s1 & -> & Hi1 & Hc1 & Hq1).
      assert (Hna : a ∉ queue s).
      { rewrite (inv_dom _ _ _ Hi), Hc. by intros [? ?]. }
      assert (Hsub : queue s ++ [a] ⊆+ all).
      { apply NoDup_submseteq.
        - apply NoDup_app. split_and!; [apply Hi| |apply NoDup_singleton].
          intros x Hx ->%list_elem_of_singleton. done.
        - intros x [Hx| ->%list_elem_of_singleton]%elem_of_app; [by apply Hq|].
          apply Hin, list_elem_of_here. }
      apply submseteq_length in Hsub. rewrite length_app in Hsub. simpl in Hsub.
      rewrite (proj2 (Z.ltb_ge _ _)), drop_0 in Hq1 by lia.
      destruct (run _ _ inputs s1) as [[rs1 s2]|] eqn:Hrun; [|done].
      intros [= <- <-].
      destruct (IH s1 rs1 Hi1) as [Hcq' Hq']; [congruence| | |done|].
      { intros b. rewrite Hq1.
        intros [Hb| ->%list_elem_of_singleton]%elem_of_app; [by apply Hq|].
        apply Hin, list_elem_of_here. }
      { intros b Hb. by apply Hin, list_elem_of_further. }
      split; [done|]. intros b.
      rewrite Hq', Hq1, elem_of_app, list_elem_of_singleton, elem_of_cons.
      tauto.
Qed.

(** A cache without room calls [func] every time. *)
Lemma fifo_run_empty inputs s rs s' :
  maxsize ≤ 0 → inv maxsize func s →
  run maxsize func inputs s = Some (rs, s') →
  calls s' = calls s ++ inputs ∧ inv maxsize func s'.
Proof.
  intros Hm. revert s rs. induction inputs as [|a inputs IH]; intros s rs Hi; simpl.
  - intros [= <- <-]. by rewrite app_nil_r.
  - assert (Hq : queue s = []).
    { rewrite (inv_queue _ _ _ Hi). apply drop_ge. lia. }
    assert (Hc : cache s !! a = None).
    { apply eq_None_not_Some. rewrite <-(inv_dom _ _ _ Hi), Hq.
      by intros ?%elem_of_nil. }
    destruct (wrapper_miss (KW:=Empty_set) s a Hi Hc) as (s1 & -> & Hi1 & Hc1 & _).
    destruct (run _ _ inputs s1) as [[rs1 s2]|] eqn:Hrun; [|done].
    intros [= <- <-]. destruct (IH s1 rs1 Hi1 Hrun) as [Hc2 Hi2].
    split; [|done]. by rewrite Hc2, Hc1, <-app_assoc.
Qed.

(** ** Properties of the wrapper *)

(** Behind [fifo_cache], whatever its [maxsize], every call without keyword
    arguments returns what the decorated function returns on the same
    arguments; no call raises. *)
Theorem wrapper_returns_func inputs :
  ∃ s, run maxsize func inputs decorator = Some (func <$> inputs, s).
Proof.
  destruct (fifo_run_inv inputs decorator decorator_inv) as (s & Hrun & _).
  by exists s.
Qed.

(** The cache holds the results of the arguments computed last, as many as
    [maxsize] allows and each once, whatever has been looked up since: the
    queue is the end of the list of computed arguments, and the dictionary
    maps exactly the arguments in the queue, each to its result. *)
Theorem fifo_keeps_last_computed inputs rs s :
  run maxsize func inputs decorator = Some (rs, s) →
  queue s = drop (length (calls s) - Z.to_nat maxsize) (calls s)
  ∧ NoDup (queue s)
  ∧ (∀ a, cache s !! a = if decide (a ∈ queue s) then Some (func a) else None)
  ∧ size (cache s) = length (queue s)
  ∧ Z.of_nat (size (cache s)) ≤ Z.max 0 maxsize.
Proof.
  intros Hi%fifo_reached. split_and!.
  - apply Hi.
  - apply Hi.
  - intros a. by apply inv_lookup.
  - by apply inv_size.
  - rewrite inv_size by done. by apply inv_bound.
Qed.

(** One call, in any state the closure reaches.  On cached arguments it
    returns the cached result and changes nothing, keyword arguments or
    not.  On other arguments it raises [AssertionError] when there are
    keyword arguments; without them it calls the function once, returns its
    result, appends the arguments to the queue and drops the head of the
    queue when the queue has outgrown [maxsize]. *)
Theorem wrapper_hit_or_miss inputs rs s a :
  run maxsize func inputs decorator = Some (rs, s) →
  (∀ KW (kw : list (string * KW)),
     is_Some (cache s !! a) → wrapper maxsize func a kw s = Return (func a) s)
  ∧ (∀ KW (kw : list (string * KW)),
       cache s !! a = None → kw ≠ [] →
       wrapper maxsize func a kw s = Raise Assertion)
  ∧ (cache s !! a = None →
     ∃ s', wrapper maxsize func (KW:=Empty_set) a [] s = Return (func a) s'
       ∧ calls s' = calls s ++ [a]
       ∧ queue s' =
           drop (if maxsize <? Z.of_nat (S (length (queue s))) then 1 else 0)
                (queue s ++ [a])).
Proof.
  intros Hi%fifo_reached. split_and!.
  - intros KW kw Hc. by apply wrapper_hit.
  - intros KW kw Hc Hkw. by apply wrapper_kwargs.
  - intros Hc. destruct (wrapper_miss (KW:=Empty_set) s a Hi Hc)
      as (s' & Hw & _ & Hcalls & Hq). by exists s'.
Qed.

(** When the calls have no more distinct arguments than [maxsize], the
    function is called exactly once on each of them, and nothing is
    dropped. *)
Theorem fifo_computes_once inputs rs s :
  Z.of_nat (length (remove_dups inputs)) ≤ maxsize →
  run maxsize func inputs decorator = Some (rs, s) →
  NoDup (calls s) ∧ (∀ a, a ∈ calls s ↔ a ∈ inputs) ∧ queue s = calls s.
Proof.
  intros Hlen Hrun. pose proof (fifo_reached _ _ _ Hrun) as Hi.
  destruct (fifo_run_once inputs (remove_dups inputs) decorator rs s
              decorator_inv eq_refl (NoDup_remove_dups _) Hlen) as [Hcq Hq];
    [by intros ? ?%elem_of_nil|by intros a ?%elem_of_remove_dups|done|].
  rewrite Hcq. split_and!; [apply Hi| |done].
  intros a. rewrite Hq. simpl. rewrite elem_of_nil. tauto.
Qed.

(** With a [maxsize] that is zero or negative nothing stays cached: the
    function is called at every call. *)
Theorem fifo_capacity_not_positive inputs rs s :
  maxsize ≤ 0 → run maxsize func inputs decorator = Some (rs, s) →
  calls s = inputs ∧ queue s = [] ∧ cache s = ∅.
Proof.
  intros Hm Hrun.
  destruct (fifo_run_empty inputs decorator rs s Hm decorator_inv Hrun)
    as [Hc Hi].
  assert (Hq : queue s = []).
  { rewrite (inv_queue _ _ _ Hi). apply drop_ge. lia. }
  split_and!; [done|done|].
  apply map_empty. intros a. apply eq_None_not_Some.
  rewrite <-(inv_dom _ _ _ Hi), Hq. by intros ?%elem_of_nil.
Qed.

End Wrapper.

(** ** Concrete runs: [double] *)

Lemma fifo_keeps_last_computed_witness :
  queue (after 2 printed)
  = drop (length (calls (after 2 printed)) - Z.to_nat 2)
         (calls (after 2 printed))
  ∧ NoDup (queue (after 2 printed))
  ∧ (∀ a, cache (after 2 printed) !! a
          = if decide (a ∈ queue (after 2 printed))
            then Some (double_func a) else None)
  ∧ size (cache (after 2 printed)) = length (queue (after 2 printed))
  ∧ Z.of_nat (size (cache (after 2 printed))) ≤ Z.max 0 2.
Proof.
  apply (fifo_keeps_last_computed 2 double_func printed [1; 4; 4; 9; 16]).
  by vm_compute.
Defined.

Lemma wrapper_hit_or_miss_witness :
  wrapper 10 double_func 2 [("n"%string, 3)] (after 10 printed)
  = Return 4 (after 10 printed).
Proof.
  apply (wrapper_hit_or_miss 10 double_func printed [1; 4; 4; 9; 16]
           (after 10 printed) 2).
  - by vm_compute.
  - eexists. by vm_compute.
Defined.

Lemma fifo_computes_once_witness :
  NoDup (calls (after 10 printed))
  ∧ (∀ a, a ∈ calls (after 10 printed) ↔ a ∈ printed)
  ∧ queue (after 10 printed) = calls (after 10 printed).
Proof.
  apply (fifo_computes_once 10 double_func printed [1; 4; 4; 9; 16]);
    by vm_compute.
Defined.

Lemma fifo_capacity_not_positive_witness :
  calls (after 0 printed) = printed
  ∧ queue (after 0 printed) = [] ∧ cache (after 0 printed) = ∅.
Proof.
  apply (fifo_capacity_not_positive 0 double_func printed [1; 4; 4; 9; 16]);
    [lia|by vm_compute].
Defined.

End FifoFacts.

(** * Part IV: the traversal and the cursor on the trees a control builds *)

Module TreeFacts.
Import Tree.

Section Shape.
Context {D : Type}.
Implicit Types (st : gmap NodeID (TreeNode D)) (c : TreeControl D).

(** ** Scanning the siblings *)

Lemma next_sibling_scan_position self l :
  next_sibling_scan self l = (i ← position self l; l !! S i).
Proof.
  unfold position. induction l as [|x l IH]; simpl; [done|].
  case_decide as Hx; simpl.
  - by destruct l.
  - rewrite IH. by destruct (list_find _ l) as [[i y]|].
Qed.

Lemma previous_sibling_scan_position self sib l :
  previous_sibling_scan self sib l =
  (i ← position self l; match i with O => sib | S j => l !! j end).
Proof.
  unfold position. revert sib. induction l as [|x l IH]; intros sib; simpl; [done|].
  case_decide as Hx; simpl; [done|].
  rewrite IH. destruct (list_find _ l) as [[i y]|]; simpl; [|done].
  by destruct i.
Qed.

Lemma next_sibling_scan_Some self l s :
  next_sibling_scan self l = Some s →
  ∃ l1 l2, l = l1 ++ self :: s :: l2 ∧ self ∉ l1.
Proof.
  induction l as [|x l IH]; simpl; [done|]. case_decide as Hx.
  - subst x. destruct l as [|y l]; simpl; [done|]. intros [= ->].
    exists [], l. split; [done|]. apply not_elem_of_nil.
  - intros (l1 & l2 & -> & Hn)%IH. exists (x :: l1), l2. split; [done|].
    intros [->|?]%elem_of_cons; done.
Qed.

Lemma next_sibling_scan_None self l :
  next_sibling_scan self l = None → self ∈ l → NoDup l →
  last l = Some self.
Proof.
  induction l as [|x l IH]; simpl; [by intros _ ?%elem_of_nil|].
  intros Hs Hin [Hx Hnd]%NoDup_cons. case_decide as Hd.
  - subst x. by destruct l.
  - apply elem_of_cons in Hin as [->|Hin]; [done|].
    specialize (IH Hs Hin Hnd). destruct l; [done|]. done.
Qed.

Lemma previous_sibling_scan_app self sib l1 l2 :
  self ∉ l1 →
  previous_sibling_scan self sib (l1 ++ self :: l2) =
  match last l1 with Some x => Some x | None => sib end.
Proof.
  revert sib. induction l1 as [|x l1 IH]; intros sib Hn; simpl.
  - by rewrite decide_True.
  - apply not_elem_of_cons in Hn as [Hx Hn]. rewrite decide_False by done.
    rewrite IH by done. destruct l1 as [|y l1]; [done|].
    change (last (x :: y :: l1)) with (last (y :: l1)).
    destruct (last (y :: l1)) eqn:E; [done|]. by apply last_None in E.
Qed.

(** ** The control keeps its trees well formed *)

Lemma size_alter (f : TreeNode D → TreeNode D) i st :
  size (alter f i st) = size st.
Proof. by rewrite <-!size_dom, dom_alter_L. Qed.

Lemma init_wf lbl (d : D) : wf (init lbl d).
Proof.
  split; simpl.
  - apply map_size_singleton.
  - intros i n [-> _]%lookup_singleton_Some. done.
  - intros i n [-> <-]%lookup_singleton_Some. done.
  - done.
  - eexists. by rewrite lookup_singleton_eq.
  - intros i n p [-> <-]%lookup_singleton_Some. done.
  - intros p pn i [-> <-]%lookup_singleton_Some. by intros ?%elem_of_nil.
  - intros p pn [-> <-]%lookup_singleton_Some. apply NoDup_nil_2.
  - intros i n [-> _]%lookup_singleton_Some. done.
  - rewrite lookup_singleton_eq. eauto.
Qed.

(** Rewriting one node without touching [parent], [children] and
    [node_id]. *)
Lemma alter_wf (f : TreeNode D → TreeNode D) i c :
  (∀ n, parent (f n) = parent n) → (∀ n, children (f n) = children n) →
  (∀ n, node_id (f n) = node_id n) →
  wf c → wf (with_nodes (alter f i (nodes c)) c).
Proof.
  intros Hp Hc Hi Hwf.
  assert (Hinv : ∀ j n', alter f i (nodes c) !! j = Some n' →
    ∃ n, nodes c !! j = Some n ∧ parent n' = parent n
         ∧ children n' = children n ∧ node_id n' = node_id n).
  { intros j n'. rewrite lookup_alter. case_decide as Hij.
    - subst j. destruct (nodes c !! i) as [n|]; [|done]. intros [= <-].
      exists n. by rewrite Hp, Hc, Hi.
    - intros Hl. by exists n'. }
  assert (Hfwd : ∀ j n, nodes c !! j = Some n →
    ∃ n', alter f i (nodes c) !! j = Some n' ∧ parent n' = parent n
          ∧ children n' = children n ∧ node_id n' = node_id n).
  { intros j n Hl. rewrite lookup_alter. case_decide as Hij.
    - subst j. rewrite Hl. exists (f n). by rewrite Hp, Hc, Hi.
    - by exists n. }
  split; simpl.
  - rewrite size_alter. apply Hwf.
  - intros j n' (n & Hl & _)%Hinv. by eapply wf_dom.
  - intros j n' (n & Hl & _ & _ & ->)%Hinv. by eapply wf_id.
  - apply Hwf.
  - destruct (wf_root_node _ Hwf) as (n & Hl & Hpar).
    destruct (Hfwd _ _ Hl) as (n' & Hl' & Hpar' & _).
    exists n'. by rewrite Hpar'.
  - intros j n' p (n & Hl & -> & _)%Hinv Hpar.
    destruct (wf_parent _ Hwf _ _ _ Hl Hpar) as (Hlt & pn & Hlp & Hin).
    split; [done|]. destruct (Hfwd _ _ Hlp) as (pn' & Hlp' & _ & Hch & _).
    exists pn'. by rewrite Hch.
  - intros p pn' j (pn & Hlp & _ & -> & _)%Hinv Hin.
    destruct (wf_child _ Hwf _ _ _ Hlp Hin) as (n & Hl & Hpar).
    destruct (Hfwd _ _ Hl) as (n' & Hl' & Hpar' & _).
    exists n'. by rewrite Hpar'.
  - intros p pn' (pn & Hlp & _ & -> & _)%Hinv. by eapply wf_nodup.
  - intros j n' (n & Hl & -> & _)%Hinv. by eapply wf_orphan.
  - destruct (wf_cursor _ Hwf) as [n Hl].
    destruct (Hfwd _ _ Hl) as (n' & Hl' & _). eauto.
Qed.

Lemma expand_wf i b c : wf c → wf (expand i b c).
Proof. by apply alter_wf. Qed.

Lemma toggle_wf i c c' : wf c → toggle i c = Some c' → wf c'.
Proof.
  unfold toggle. intros Hwf. destruct (nodes c !! i); simpl; [|done].
  intros [= <-]. by apply expand_wf.
Qed.

Lemma control_add_wf i lbl (d : D) c c' :
  wf c → control_add i lbl d c = Some c' → wf c'.
Proof.
  intros Hwf. unfold control_add.
  destruct (nodes c !! i) as [n0|] eqn:Hi; simpl; [|done]. intros [= <-].
  set (new := S (next_id c)).
  set (child := mkNode (Some i) new lbl d false false false []).
  assert (Hnew : (nodes c) !! new = None).
  { destruct ((nodes c) !! new) as [n|] eqn:Hn; [|done].
    apply (wf_dom _ Hwf) in Hn. unfold new in Hn. lia. }
  assert (Hi_le : (i ≤ next_id c)%nat) by by eapply wf_dom.
  assert (Hlook : ∀ j, <[new := child]> (alter (append_child new) i (nodes c)) !! j =
    if decide (j = new) then Some child
    else if decide (j = i) then Some (append_child new n0) else (nodes c) !! j).
  { intros j. rewrite lookup_insert. case_decide as H1; [by rewrite decide_True|].
    rewrite decide_False by done. rewrite lookup_alter. case_decide as H2.
    - subst j. rewrite decide_True by done. by rewrite Hi.
    - by rewrite decide_False. }
  assert (Hold : ∀ j n, (nodes c) !! j = Some n → j ≠ new).
  { intros j n Hl ->. congruence. }
  split; simpl; fold new child.
  - rewrite map_size_insert_None.
    + rewrite size_alter. f_equal. apply Hwf.
    + rewrite lookup_alter_ne; [done|]. unfold new. lia.
  - intros j n. rewrite Hlook. repeat case_decide; subst.
    + done.
    + intros _. lia.
    + intros Hl. apply (wf_dom _ Hwf) in Hl. lia.
  - intros j n. rewrite Hlook. repeat case_decide; subst.
    + by intros [= <-].
    + intros [= <-]. simpl. by eapply wf_id.
    + by apply wf_id.
  - apply Hwf.
  - destruct (wf_root_node _ Hwf) as (n & Hl & Hpar). rewrite Hlook.
    rewrite decide_False by (unfold new; lia). case_decide; subst.
    + exists (append_child new n0). split; [done|]. simpl. congruence.
    + by exists n.
  - intros j n p. rewrite Hlook. repeat case_decide; subst.
    + intros [= <-] [= <-]. split; [unfold new; lia|].
      exists (append_child new n0). rewrite Hlook.
      rewrite decide_False by (unfold new; lia). rewrite decide_True by done.
      split; [done|]. simpl. apply elem_of_app. right. apply list_elem_of_here.
    + intros [= <-] Hpar. simpl in Hpar.
      destruct (wf_parent _ Hwf _ _ _ Hi Hpar) as (Hlt & pn & Hlp & Hin).
      split; [done|]. exists pn. rewrite Hlook.
      rewrite decide_False by (by eapply Hold).
      rewrite decide_False by lia. done.
    + intros Hl Hpar.
      destruct (wf_parent _ Hwf _ _ _ Hl Hpar) as (Hlt & pn & Hlp & Hin).
      split; [done|]. rewrite Hlook.
      rewrite decide_False by (by eapply Hold). case_decide; subst.
      * exists (append_child new n0). split; [done|]. simpl.
        rewrite Hi in Hlp. injection Hlp as ->.
        apply elem_of_app. by left.
      * by exists pn.
  - intros p pn j. rewrite Hlook. repeat case_decide; subst.
    + intros [= <-]. by intros ?%elem_of_nil.
    + intros [= <-]. simpl. intros [Hin|Hin]%elem_of_app.
      * destruct (wf_child _ Hwf _ _ _ Hi Hin) as (n & Hl & Hpar).
        rewrite Hlook. rewrite decide_False by (by eapply Hold).
        case_decide; subst.
        -- rewrite Hi in Hl. injection Hl as ->.
           by exists (append_child new n).
        -- by exists n.
      * apply list_elem_of_singleton in Hin as ->.
        exists child. rewrite Hlook. by rewrite decide_True.
    + intros Hlp Hin.
      destruct (wf_child _ Hwf _ _ _ Hlp Hin) as (n & Hl & Hpar).
      rewrite Hlook. rewrite decide_False by (by eapply Hold).
      case_decide; subst.
      * rewrite Hi in Hl. injection Hl as ->.
        by exists (append_child new n).
      * by exists n.
  - intros p pn. rewrite Hlook. repeat case_decide; subst.
    + intros [= <-]. apply NoDup_nil_2.
    + intros [= <-]. simpl. apply NoDup_app. split_and!.
      * by eapply wf_nodup.
      * intros x Hin ->%list_elem_of_singleton.
        destruct (wf_child _ Hwf _ _ _ Hi Hin) as (n & Hl & _).
        congruence.
      * apply NoDup_singleton.
    + by apply wf_nodup.
  - intros j n. rewrite Hlook. repeat case_decide; subst.
    + by intros [= <-].
    + intros [= <-]. simpl. by eapply wf_orphan.
    + by apply wf_orphan.
  - destruct (wf_cursor _ Hwf) as [n Hl]. rewrite Hlook.
    repeat case_decide; eauto.
Qed.

Lemma add_wf i lbl (d : D) c c' : wf c → add i lbl d c = Some c' → wf c'.
Proof.
  intros Hwf. unfold add. destruct (nodes c !! i) as [n|]; simpl; [|done].
  destruct (control_add _ _ _ _) as [c1|] eqn:Hadd; simpl; [|done].
  intros [= <-]. apply alter_wf; try done. by eapply control_add_wf.
Qed.

Lemma cursor_down_wf c c' : wf c → cursor_down c = Some c' → wf c'.
Proof.
  intros Hwf. unfold cursor_down. destruct (show_cursor c); simpl.
  - destruct (nodes c !! cursor c); simpl; [|done].
    destruct (next_node _ _) as [[nx|]|]; simpl; [| |done].
    + destruct (nodes c !! nx) as [n|] eqn:Hn; simpl; [|done]. intros [= <-].
      destruct Hwf. split; simpl; try done.
      rewrite (wf_id0 _ _ Hn). eauto.
    + by intros [= <-].
  - intros [= <-]. by destruct Hwf.
Qed.

Lemma cursor_up_wf c c' : wf c → cursor_up c = Some c' → wf c'.
Proof.
  intros Hwf. unfold cursor_up. destruct (show_cursor c); simpl.
  - destruct (nodes c !! cursor c); simpl; [|done].
    destruct (previous_node _ _) as [[nx|]|]; simpl; [| |done].
    + destruct (nodes c !! nx) as [n|] eqn:Hn; simpl; [|done]. intros [= <-].
      destruct Hwf. split; simpl; try done.
      rewrite (wf_id0 _ _ Hn). eauto.
    + by intros [= <-].
  - intros [= <-]. by destruct Hwf.
Qed.

Lemma exec_wf o c c' : wf c → exec o c = Some c' → wf c'.
Proof.
  intros Hwf. destruct o; simpl.
  - by apply add_wf.
  - intros [= <-]. by apply expand_wf.
  - by apply toggle_wf.
  - by apply cursor_down_wf.
  - by apply cursor_up_wf.
Qed.

Lemma run_wf os c c' : wf c → run os c = Some c' → wf c'.
Proof.
  revert c. induction os as [|o os IH]; intros c Hwf; simpl.
  - by intros [= <-].
  - destruct (exec o c) as [c1|] eqn:Hex; simpl; [|done].
    apply IH. by eapply exec_wf.
Qed.

Lemma built_wf os lbl (d : D) c : run os (init lbl d) = Some c → wf c.
Proof. apply run_wf, init_wf. Qed.

End Shape.

(** ** The traversal on a well-formed tree *)

Section Traversal.
Context {D : Type} (c : TreeControl D) (Hwf : wf c).
Local Abbreviation st := (nodes c).
Implicit Types (n pn : TreeNode D) (i p s r : NodeID).

Lemma node_lt_size i n : st !! i = Some n → (i < size st)%nat.
Proof.
  intros Hl. rewrite (wf_size _ Hwf). apply (wf_dom _ Hwf) in Hl. lia.
Qed.

Lemma siblings_of_child i n p pn :
  st !! i = Some n → parent n = Some p → st !! p = Some pn →
  siblings_of st i = children pn.
Proof. intros Hl Hp Hlp. unfold siblings_of. by rewrite Hl; simpl; rewrite Hp; simpl; rewrite Hlp. Qed.

Lemma siblings_of_root i n :
  st !! i = Some n → parent n = None → siblings_of st i = [].
Proof. intros Hl Hp. unfold siblings_of. by rewrite Hl; simpl; rewrite Hp. Qed.

Lemma next_sibling_is_spec i n :
  st !! i = Some n → next_sibling st i = Some (next_sibling_spec st i).
Proof.
  intros Hl. unfold next_sibling, next_sibling_spec. rewrite Hl. simpl.
  destruct (parent n) as [p|] eqn:Hp.
  - destruct (wf_parent _ Hwf _ _ _ Hl Hp) as (_ & pn & Hlp & _).
    rewrite (siblings_of_child _ _ _ _ Hl Hp Hlp), Hlp. simpl.
    by rewrite next_sibling_scan_position.
  - by rewrite (siblings_of_root _ _ Hl Hp).
Qed.

Lemma previous_sibling_is_spec i n :
  st !! i = Some n → previous_sibling st i = Some (previous_sibling_spec st i).
Proof.
  intros Hl. unfold previous_sibling, previous_sibling_spec. rewrite Hl. simpl.
  destruct (parent n) as [p|] eqn:Hp.
  - destruct (wf_parent _ Hwf _ _ _ Hl Hp) as (_ & pn & Hlp & _).
    rewrite (siblings_of_child _ _ _ _ Hl Hp Hlp), Hlp. simpl.
    by rewrite previous_sibling_scan_position.
  - by rewrite (siblings_of_root _ _ Hl Hp).
Qed.

(** The climbing loop finds the next sibling of the first ancestor that has
    one, and the fuel of [next_node] is enough for it. *)
Lemma next_node_loop_ancestors fuel i n :
  st !! i = Some n → (i < fuel)%nat →
  next_node_loop fuel st i =
  Some (head (omap (next_sibling_spec st) (ancestors fuel st i))).
Proof.
  revert i n. induction fuel as [|fuel IH]; intros i n Hl Hlt; [lia|].
  simpl. rewrite Hl. simpl. destruct (parent n) as [p|] eqn:Hp; [|done].
  destruct (wf_parent _ Hwf _ _ _ Hl Hp) as (Hpi & pn & Hlp & _).
  rewrite (next_sibling_is_spec _ _ Hlp). simpl.
  destruct (next_sibling_spec st p) as [s|]; [done|].
  apply (IH _ _ Hlp). lia.
Qed.

Lemma has_children_head n :
  has_children n = true → ∃ ch, head (children n) = Some ch.
Proof. unfold has_children. destruct (children n); [done|]. eauto. Qed.

Lemma has_children_last n :
  has_children n = true → ∃ ch, last (children n) = Some ch.
Proof.
  unfold has_children. destruct (children n) as [|x l] eqn:E; [done|].
  intros _. destruct (last (x :: l)) eqn:El; [eauto|]. by apply last_None in El.
Qed.

Lemma next_node_is_spec i n :
  st !! i = Some n → next_node st i = Some (next_node_spec st i).
Proof.
  intros Hl. unfold next_node, next_node_spec. rewrite Hl. simpl.
  destruct (expanded n && has_children n) eqn:E.
  - apply andb_true_iff in E as [_ (ch & Hch)%has_children_head].
    by rewrite Hch.
  - rewrite (next_sibling_is_spec _ _ Hl). simpl.
    destruct (next_sibling_spec st i) as [s|]; [done|].
    apply (next_node_loop_ancestors _ _ _ Hl). by eapply node_lt_size.
Qed.

(** The helper of [previous_node] computes the last visible descendant. *)
Lemma last_sibling_sound fuel i r :
  last_sibling fuel st i = Some r → last_visible st i r.
Proof.
  revert i. induction fuel as [|fuel IH]; intros i; simpl; [done|].
  destruct (st !! i) as [n|] eqn:Hl; simpl; [|done].
  destruct (expanded n && has_children n) eqn:E.
  - destruct (last (children n)) as [ch|] eqn:Hch; simpl; [|done].
    intros Hr. eapply last_visible_down; eauto.
  - rewrite andb_comm, E. intros [= <-]. by eapply last_visible_here.
Qed.

Lemma last_sibling_total fuel i n :
  st !! i = Some n → (size st ≤ fuel + i)%nat →
  is_Some (last_sibling fuel st i).
Proof.
  revert i n. induction fuel as [|fuel IH]; intros i n Hl Hf.
  - apply node_lt_size in Hl. lia.
  - simpl. rewrite Hl. simpl. destruct (expanded n && has_children n) eqn:E.
    + apply andb_true_iff in E as [_ (ch & Hch)%has_children_last].
      rewrite Hch. simpl.
      destruct (wf_child _ Hwf i n ch Hl) as (nc & Hlc & Hpc).
      { apply last_Some in Hch as [l' ->]. apply elem_of_app. right.
        apply list_elem_of_here. }
      destruct (wf_parent _ Hwf _ _ _ Hlc Hpc) as [Hlt _].
      apply (IH _ _ Hlc). lia.
    + rewrite andb_comm, E. eauto.
Qed.

Lemma last_visible_functional i r r' :
  last_visible st i r → last_visible st i r' → r = r'.
Proof.
  intros H1. revert r'. induction H1 as [i n Hl E|i n ch r Hl E Hch _ IH];
    intros r' H2; inversion H2; subst; simplify_eq; eauto; congruence.
Qed.

Lemma last_sibling_complete i n r :
  st !! i = Some n → last_visible st i r →
  last_sibling (size st) st i = Some r.
Proof.
  intros Hl Hv.
  destruct (last_sibling_total (size st) i n Hl) as [r' Hr']; [lia|].
  rewrite Hr'. f_equal.
  eapply last_visible_functional; [|exact Hv]. by eapply last_sibling_sound.
Qed.

(** A previous or next sibling is a node of the control. *)
Lemma siblings_of_elem i x :
  x ∈ siblings_of st i → ∃ nx, st !! x = Some nx.
Proof.
  unfold siblings_of. destruct (st !! i) as [n|] eqn:Hl; simpl; [|by intros ?%elem_of_nil].
  destruct (parent n) as [p|]; simpl; [|by intros ?%elem_of_nil].
  destruct (st !! p) as [pn|] eqn:Hlp; simpl; [|by intros ?%elem_of_nil].
  intros Hin. destruct (wf_child _ Hwf _ _ _ Hlp Hin) as (nx & Hx & _). eauto.
Qed.

Lemma previous_sibling_spec_elem i s :
  previous_sibling_spec st i = Some s → ∃ ns, st !! s = Some ns.
Proof.
  unfold previous_sibling_spec.
  destruct (position i (siblings_of st i)) as [[|j]|]; simpl; try done.
  intros Hj. apply siblings_of_elem with i. by eapply list_elem_of_lookup_2.
Qed.

Lemma previous_node_is_spec i n :
  st !! i = Some n →
  ∃ o : option NodeID, previous_node st i = Some o ∧ previous_node_spec st i o
       ∧ ∀ o', previous_node_spec st i o' → o' = o.
Proof.
  intros Hl. unfold previous_node, previous_node_spec.
  rewrite (previous_sibling_is_spec _ _ Hl). simpl.
  destruct (previous_sibling_spec st i) as [s|] eqn:Hs.
  - destruct (previous_sibling_spec_elem _ _ Hs) as [ns Hls].
    destruct (last_sibling_total (size st) s ns Hls) as [d Hd]; [lia|].
    rewrite Hd. simpl. exists (Some d). split; [done|].
    pose proof (last_sibling_sound _ _ _ Hd) as Hv. split; [eauto|].
    intros r' (d' & -> & Hv'). f_equal.
    by eapply last_visible_functional.
  - rewrite Hl. simpl. exists (parent n). split; [done|]. split; [eauto|].
    intros r' (n' & Hl' & ->). congruence.
Qed.

(** ** [previous_node] undoes [next_node] on the visible traversal *)

Lemma visible_parent i n p :
  visible st i → st !! i = Some n → parent n = Some p →
  ∃ pn, st !! p = Some pn ∧ expanded pn = true ∧ visible st p.
Proof.
  intros Hv Hl Hp. inversion Hv as [? n' Hl' Hp'|? n' p' pn Hl' Hp' Hlp He Hvp];
    subst; simplify_eq. eauto.
Qed.

Lemma previous_sibling_of_next i n s :
  st !! i = Some n → next_sibling st i = Some (Some s) →
  ∃ ns, st !! s = Some ns ∧ previous_sibling st s = Some (Some i).
Proof.
  intros Hl. unfold next_sibling. rewrite Hl. simpl.
  destruct (parent n) as [p|] eqn:Hp; [|done].
  destruct (st !! p) as [pn|] eqn:Hlp; simpl; [|done].
  intros [= Hs]. destruct (next_sibling_scan_Some _ _ _ Hs) as (l1 & l2 & Hch & Hi).
  pose proof (wf_nodup _ Hwf _ _ Hlp) as Hnd. rewrite Hch in Hnd.
  destruct (wf_child _ Hwf p pn s Hlp) as (ns & Hls & Hps).
  { rewrite Hch. apply elem_of_app. right.
    apply list_elem_of_further, list_elem_of_here. }
  exists ns. split; [done|]. unfold previous_sibling.
  rewrite Hls. simpl. rewrite Hps, Hlp. simpl. do 2 f_equal.
  rewrite Hch. change (l1 ++ i :: s :: l2) with (l1 ++ [i] ++ s :: l2).
  rewrite app_assoc. rewrite previous_sibling_scan_app.
  - by rewrite last_snoc.
  - apply NoDup_app in Hnd as (_ & Hdisj & Hnd2).
    apply NoDup_cons in Hnd2 as [His _].
    intros [Hin|Hin]%elem_of_app.
    + apply (Hdisj _ Hin). apply list_elem_of_further, list_elem_of_here.
    + apply list_elem_of_singleton in Hin as ->. apply His, list_elem_of_here.
Qed.

Lemma last_child_of_no_next i n p pn :
  st !! i = Some n → parent n = Some p → st !! p = Some pn →
  next_sibling st i = Some None → last (children pn) = Some i.
Proof.
  intros Hl Hp Hlp. unfold next_sibling. rewrite Hl. simpl.
  rewrite Hp, Hlp. simpl. intros [= Hs].
  apply next_sibling_scan_None; [done| |by eapply wf_nodup].
  destruct (wf_parent _ Hwf _ _ _ Hl Hp) as (_ & pn' & Hlp' & Hin).
  by simplify_eq.
Qed.

Lemma last_has_children pn i : last (children pn) = Some i → has_children pn = true.
Proof. unfold has_children. by destruct (children pn). Qed.

Lemma climb_inverse fuel i n m r :
  st !! i = Some n → visible st i → next_sibling st i = Some None →
  next_node_loop fuel st i = Some (Some m) → last_visible st i r →
  ∃ a na, st !! a = Some na ∧ previous_sibling st m = Some (Some a)
          ∧ last_visible st a r.
Proof.
  revert i n. induction fuel as [|fuel IH]; intros i n Hl Hv Hns; simpl; [done|].
  rewrite Hl. simpl. destruct (parent n) as [p|] eqn:Hp; [|done].
  destruct (visible_parent _ _ _ Hv Hl Hp) as (pn & Hlp & He & Hvp).
  pose proof (last_child_of_no_next _ _ _ _ Hl Hp Hlp Hns) as Hlast.
  rewrite (next_sibling_is_spec _ _ Hlp). simpl.
  intros Hloop Hr.
  assert (Hrp : last_visible st p r).
  { eapply last_visible_down; [exact Hlp| |exact Hlast|exact Hr].
    by rewrite He, (last_has_children _ _ Hlast). }
  destruct (next_sibling_spec st p) as [s|] eqn:Hsp.
  - injection Hloop as ->.
    destruct (previous_sibling_of_next p pn m Hlp) as (nm & Hlm & Hpm).
    { by rewrite (next_sibling_is_spec _ _ Hlp), Hsp. }
    by exists p, pn.
  - apply (IH p pn Hlp Hvp); [|done|done].
    by rewrite (next_sibling_is_spec _ _ Hlp), Hsp.
Qed.

Lemma next_previous_inverse i n m :
  st !! i = Some n → visible st i → next_node st i = Some (Some m) →
  previous_node st m = Some (Some i).
Proof.
  intros Hl Hv. unfold next_node. rewrite Hl. simpl.
  destruct (expanded n && has_children n) eqn:E.
  - (* [m] is the first child of [i] *)
    destruct (children n) as [|ch l] eqn:Hch; simpl; [done|]. intros [= ->].
    destruct (wf_child _ Hwf i n m Hl) as (nm & Hlm & Hpm).
    { rewrite Hch. apply list_elem_of_here. }
    unfold previous_node, previous_sibling. rewrite Hlm. simpl.
    rewrite Hpm, Hl. simpl. rewrite Hch. simpl.
    by rewrite decide_True.
  - assert (Hhere : last_visible st i i) by by eapply last_visible_here.
    destruct (next_sibling st i) as [[s|]|] eqn:Hns; simpl; [| |done].
    + (* [m] is the next sibling of [i] *)
      intros [= ->].
      destruct (previous_sibling_of_next _ _ _ Hl Hns) as (nm & Hlm & Hpm).
      unfold previous_node. rewrite Hpm. simpl.
      by rewrite (last_sibling_complete _ _ _ Hl Hhere).
    + (* [m] is the next sibling of an ancestor of [i] *)
      intros Hloop.
      destruct (climb_inverse _ _ _ _ _ Hl Hv Hns Hloop Hhere)
        as (a & na & Hla & Hpm & Hva).
      unfold previous_node. rewrite Hpm. simpl.
      by rewrite (last_sibling_complete _ _ _ Hla Hva).
Qed.

(** The nodes the traversal returns are nodes of the control. *)
Lemma next_sibling_in_store i n s :
  st !! i = Some n → next_sibling st i = Some (Some s) → is_Some (st !! s).
Proof.
  intros Hl Hs. destruct (previous_sibling_of_next _ _ _ Hl Hs) as (ns & Hls & _).
  eauto.
Qed.

Lemma next_node_loop_in_store fuel i n m :
  st !! i = Some n → next_node_loop fuel st i = Some (Some m) →
  is_Some (st !! m).
Proof.
  revert i n. induction fuel as [|fuel IH]; intros i n Hl; simpl; [done|].
  rewrite Hl. simpl. destruct (parent n) as [p|] eqn:Hp; [|done].
  destruct (wf_parent _ Hwf _ _ _ Hl Hp) as (_ & pn & Hlp & _).
  destruct (next_sibling st p) as [[s|]|] eqn:Hs; simpl; [| |done].
  - intros [= ->]. by eapply next_sibling_in_store.
  - by apply IH with pn.
Qed.

Lemma next_node_in_store i n m :
  st !! i = Some n → next_node st i = Some (Some m) → is_Some (st !! m).
Proof.
  intros Hl. unfold next_node. rewrite Hl. simpl.
  destruct (expanded n && has_children n).
  - destruct (children n) as [|ch l] eqn:Hch; simpl; [done|]. intros [= ->].
    destruct (wf_child _ Hwf i n m Hl) as (nm & Hlm & _); [|eauto].
    rewrite Hch. apply list_elem_of_here.
  - destruct (next_sibling st i) as [[s|]|] eqn:Hs; simpl; [| |done].
    + intros [= ->]. by eapply next_sibling_in_store.
    + by apply next_node_loop_in_store with n.
Qed.

Lemma last_visible_in_store i r : last_visible st i r → is_Some (st !! r).
Proof. induction 1; eauto. Qed.

Lemma previous_node_in_store i n m :
  st !! i = Some n → previous_node st i = Some (Some m) → is_Some (st !! m).
Proof.
  intros Hl. unfold previous_node.
  destruct (previous_sibling st i) as [[s|]|]; simpl; [| |done].
  - destruct (last_sibling _ _ s) as [r|] eqn:Hr; simpl; [|done].
    intros [= ->]. eapply last_visible_in_store. by eapply last_sibling_sound.
  - rewrite Hl. simpl. intros [= Hp].
    destruct (wf_parent _ Hwf _ _ _ Hl Hp) as (_ & pn & Hlp & _). eauto.
Qed.

(** The cursor movements on a shown cursor. *)
Lemma cursor_down_shown :
  show_cursor c = true →
  ∃ o, next_node st (cursor c) = Some o ∧
    cursor_down c = Some
      match o with
      | Some nx => with_cursor nx (with_cursor_line (cursor_line c + 1) c)
      | None => c
      end.
Proof.
  intros Hs. destruct (wf_cursor _ Hwf) as [n Hl].
  exists (next_node_spec st (cursor c)).
  pose proof (next_node_is_spec _ _ Hl) as Hn. split; [done|].
  unfold cursor_down. rewrite Hs, Hl, Hn. simpl.
  destruct (next_node_spec st (cursor c)) as [nx|]; [|done].
  destruct (next_node_in_store _ _ _ Hl Hn) as [nn Hnn].
  rewrite Hnn. simpl. by rewrite (wf_id _ Hwf _ _ Hnn).
Qed.

Lemma cursor_up_shown :
  show_cursor c = true →
  ∃ o, previous_node st (cursor c) = Some o ∧
    cursor_up c = Some
      match o with
      | Some pv => with_cursor pv (with_cursor_line (cursor_line c - 1) c)
      | None => c
      end.
Proof.
  intros Hs. destruct (wf_cursor _ Hwf) as [n Hl].
  destruct (previous_node_is_spec _ _ Hl) as (o & Hp & _).
  exists o. split; [done|].
  unfold cursor_up. rewrite Hs, Hl, Hp. simpl.
  destruct o as [pv|]; [|done].
  destruct (previous_node_in_store _ _ _ Hl Hp) as [nn Hnn].
  rewrite Hnn. simpl. by rewrite (wf_id _ Hwf _ _ Hnn).
Qed.


(** ** The visible traversal and [find_cursor] *)

Lemma bind_ext_in {A B} (f g : A → list B) (l : list A) :
  (∀ x, x ∈ l → f x = g x) → l ≫= f = l ≫= g.
Proof.
  induction l as [|x l IH]; intros Hfg; [done|].
  rewrite !bind_cons, Hfg by apply list_elem_of_here. f_equal.
  apply IH. intros y Hy. by apply Hfg, list_elem_of_further.
Qed.

Lemma child_gt i n ch : st !! i = Some n → ch ∈ children n → (i < ch)%nat.
Proof.
  intros Hl Hin. destruct (wf_child _ Hwf _ _ _ Hl Hin) as (nc & Hlc & Hpc).
  by destruct (wf_parent _ Hwf _ _ _ Hlc Hpc).
Qed.

Lemma vis_cases f i x :
  x ∈ vis (S f) st i →
  ∃ n, st !! i = Some n ∧
    (x = i ∨ (has_children n && expanded n = true
              ∧ ∃ ch, ch ∈ children n ∧ x ∈ vis f st ch)).
Proof.
  simpl. destruct (st !! i) as [n|]; [|by intros ?%elem_of_nil].
  intros [->|Hin]%elem_of_cons; [eauto|]. exists n. split; [done|]. right.
  destruct (has_children n && expanded n); [|by apply elem_of_nil in Hin].
  split; [done|]. apply list_elem_of_bind in Hin as (ch & Hx & Hch). eauto.
Qed.

Lemma vis_ge f i x : x ∈ vis f st i → (i ≤ x)%nat.
Proof.
  revert i. induction f as [|f IH]; intros i; [by intros ?%elem_of_nil|].
  intros (n & Hl & [->|(_ & ch & Hch & Hx)])%vis_cases; [done|].
  apply IH in Hx. pose proof (child_gt _ _ _ Hl Hch). lia.
Qed.

Lemma vis_in_store f i x : x ∈ vis f st i → is_Some (st !! x).
Proof.
  revert i. induction f as [|f IH]; intros i; [by intros ?%elem_of_nil|].
  intros (n & Hl & [->|(_ & ch & Hch & Hx)])%vis_cases; eauto.
Qed.

Lemma vis_stable f i : (size st ≤ f + i)%nat → vis f st i = vis (S f) st i.
Proof.
  revert i. induction f as [|f IH]; intros i Hf.
  - simpl. destruct (st !! i) as [n|] eqn:Hl; [|done].
    apply node_lt_size in Hl. lia.
  - change (vis (S (S f)) st i) with
      (match st !! i with
       | None => []
       | Some n => i :: (if has_children n && expanded n
                         then children n ≫= vis (S f) st else [])
       end).
    simpl. destruct (st !! i) as [n|] eqn:Hl; [|done]. f_equal.
    destruct (has_children n && expanded n); [|done].
    apply bind_ext_in. intros ch Hch. apply IH.
    pose proof (child_gt _ _ _ Hl Hch). lia.
Qed.

Lemma vis_unfold i n :
  st !! i = Some n →
  vis (size st) st i =
  i :: (if has_children n && expanded n
        then children n ≫= vis (size st) st else []).
Proof.
  intros Hl. pose proof (node_lt_size _ _ Hl) as Hlt.
  destruct (size st) as [|k] eqn:Hk; [lia|]. simpl. rewrite Hl. f_equal.
  destruct (has_children n && expanded n); [|done].
  apply bind_ext_in. intros ch Hch.
  change (match st !! ch with
          | Some n0 => ch :: (if has_children n0 && expanded n0
                              then children n0 ≫= vis k st else [])
          | None => []
          end) with (vis (S k) st ch).
  apply vis_stable. pose proof (child_gt _ _ _ Hl Hch). lia.
Qed.

Lemma vis_visible f i x : visible st i → x ∈ vis f st i → visible st x.
Proof.
  revert i. induction f as [|f IH]; intros i Hv; [by intros ?%elem_of_nil|].
  intros (n & Hl & [->|(He & ch & Hch & Hx)])%vis_cases; [done|].
  apply (IH ch); [|done].
  destruct (wf_child _ Hwf _ _ _ Hl Hch) as (nc & Hlc & Hpc).
  apply andb_true_iff in He as [_ He]. by eapply visible_child.
Qed.

Lemma root_visible : visible st (root c).
Proof.
  rewrite (wf_root _ Hwf). destruct (wf_root_node _ Hwf) as (n & Hl & Hp).
  by eapply visible_root.
Qed.

Lemma visible_lines_visible x : x ∈ visible_lines c → visible st x.
Proof. apply vis_visible, root_visible. Qed.

(** Ancestors. *)
Lemma up_add k1 k2 i : up (k1 + k2) st i = up k1 st i ≫= up k2 st.
Proof.
  revert i. induction k1 as [|k1 IH]; intros i; simpl; [done|].
  destruct (st !! i) as [n|]; simpl; [|done].
  destruct (parent n) as [p|]; simpl; [|done]. apply IH.
Qed.

Lemma up_le k i a : up k st i = Some a → (a ≤ i)%nat.
Proof.
  revert i. induction k as [|k IH]; intros i; simpl; [by intros [= ->]|].
  destruct (st !! i) as [n|] eqn:Hl; simpl; [|done].
  destruct (parent n) as [p|] eqn:Hp; simpl; [|done].
  intros Ha%IH. destruct (wf_parent _ Hwf _ _ _ Hl Hp) as [Hlt _]. lia.
Qed.

Lemma vis_up f i x : x ∈ vis f st i → ∃ k, up k st x = Some i.
Proof.
  revert i. induction f as [|f IH]; intros i; [by intros ?%elem_of_nil|].
  intros (n & Hl & [->|(_ & ch & Hch & Hx)])%vis_cases; [by exists 0%nat|].
  destruct (IH _ Hx) as [k Hk].
  destruct (wf_child _ Hwf _ _ _ Hl Hch) as (nc & Hlc & Hpc).
  exists (k + 1)%nat. rewrite up_add, Hk. simpl. by rewrite Hlc; simpl; rewrite Hpc.
Qed.

Lemma up_same_parent_le k d x i ch1 ch2 n1 n2 :
  up k st x = Some ch1 → up (k + d) st x = Some ch2 →
  st !! ch1 = Some n1 → parent n1 = Some i →
  st !! ch2 = Some n2 → parent n2 = Some i → ch1 = ch2.
Proof.
  intros H1 H2 Hl1 Hp1 Hl2 Hp2. rewrite up_add, H1 in H2. simpl in H2.
  destruct d as [|d]; simpl in H2; [congruence|].
  rewrite Hl1 in H2. simpl in H2. rewrite Hp1 in H2. simpl in H2.
  apply up_le in H2. destruct (wf_parent _ Hwf _ _ _ Hl2 Hp2) as [Hlt _]. lia.
Qed.

Lemma up_same_parent k1 k2 x i ch1 ch2 n1 n2 :
  up k1 st x = Some ch1 → up k2 st x = Some ch2 →
  st !! ch1 = Some n1 → parent n1 = Some i →
  st !! ch2 = Some n2 → parent n2 = Some i → ch1 = ch2.
Proof.
  intros H1 H2 Hl1 Hp1 Hl2 Hp2. destruct (decide (k1 ≤ k2)%nat) as [Hle|Hgt].
  - replace k2 with (k1 + (k2 - k1))%nat in H2 by lia.
    by eapply up_same_parent_le.
  - replace k1 with (k2 + (k1 - k2))%nat in H1 by lia.
    symmetry. by eapply up_same_parent_le.
Qed.

(** No node is visited twice. *)
Lemma vis_NoDup f i : NoDup (vis f st i).
Proof.
  revert i. induction f as [|f IH]; intros i; simpl; [apply NoDup_nil_2|].
  destruct (st !! i) as [n|] eqn:Hl; [|apply NoDup_nil_2].
  apply NoDup_cons. split.
  - destruct (has_children n && expanded n); [|apply not_elem_of_nil].
    intros (ch & Hx & Hch)%list_elem_of_bind. apply vis_ge in Hx.
    pose proof (child_gt _ _ _ Hl Hch). lia.
  - destruct (has_children n && expanded n); [|apply NoDup_nil_2].
    apply NoDup_bind; [|auto|by eapply wf_nodup].
    intros ch1 ch2 y Hch1 Hch2 [k1 Hk1]%vis_up [k2 Hk2]%vis_up.
    destruct (wf_child _ Hwf _ _ _ Hl Hch1) as (n1 & Hl1 & Hp1).
    destruct (wf_child _ Hwf _ _ _ Hl Hch2) as (n2 & Hl2 & Hp2).
    by eapply up_same_parent.
Qed.

Lemma vis_length f i : (length (vis f st i) ≤ size st)%nat.
Proof.
  rewrite <-(length_map_to_list st), <-(length_fmap fst).
  apply submseteq_length, NoDup_submseteq; [apply vis_NoDup|].
  intros x [n Hl]%vis_in_store.
  apply list_elem_of_fmap. exists (x, n). split; [done|].
  by apply elem_of_map_to_list.
Qed.

Lemma stack_lines_nil stack : stack_lines st ([] :: stack) = stack_lines st stack.
Proof. unfold stack_lines. by rewrite bind_cons. Qed.

Lemma stack_lines_cons node n it stack :
  st !! node = Some n →
  stack_lines st ((node :: it) :: stack) =
  node :: stack_lines st
            (if has_children n && expanded n
             then children n :: it :: stack else it :: stack).
Proof.
  intros Hl. unfold stack_lines.
  rewrite !bind_cons, (vis_unfold _ _ Hl).
  destruct (has_children n && expanded n).
  - rewrite !bind_cons. simpl. by rewrite <-!app_assoc.
  - by rewrite !bind_cons.
Qed.

(** The loop of [find_cursor] finds the position of the target among the
    nodes the stack has yet to visit, and ends within the fuel of
    [find_cursor]. *)
Lemma find_cursor_loop_lines fuel target line stack :
  Forall (Forall (λ j, is_Some (st !! j))) stack →
  (2 * length (stack_lines st stack) + length stack < fuel)%nat →
  find_cursor_loop fuel st target line stack =
  Some ((λ q : nat * NodeID, line + Z.of_nat q.1)
          <$> list_find (λ x, x = target) (stack_lines st stack)).
Proof.
  revert line stack. induction fuel as [|fuel IH]; intros line stack Hst Hf; [lia|].
  destruct stack as [|[|node it] stack]; cbn [find_cursor_loop].
  - done.
  - rewrite stack_lines_nil in *. apply Forall_cons in Hst as [_ Hst].
    apply IH; [done|]. simpl in Hf. lia.
  - apply Forall_cons in Hst as [[[n Hl] Hit]%Forall_cons Hst].
    rewrite (stack_lines_cons _ _ _ _ Hl) in *.
    rewrite Hl. simpl. rewrite (wf_id _ Hwf _ _ Hl). simpl in Hf.
    case_decide as Hd.
    + simpl. do 2 f_equal. lia.
    + rewrite IH.
      * f_equal. destruct (list_find _ _) as [[k y]|]; simpl; [|done].
        f_equal. lia.
      * destruct (has_children n && expanded n).
        -- repeat (apply Forall_cons; split); try done.
           apply Forall_forall. intros ch Hch.
           destruct (wf_child _ Hwf _ _ _ Hl Hch) as (nc & Hlc & _). eauto.
        -- by repeat (apply Forall_cons; split).
      * destruct (has_children n && expanded n); cbn [length]; lia.
Qed.

Lemma stack_lines_root : stack_lines st [[root c]] = visible_lines c.
Proof.
  change (stack_lines st [[root c]])
    with ((vis (size st) st (root c) ++ []) ++ []).
  by rewrite !app_nil_r.
Qed.

Lemma find_cursor_position :
  find_cursor c =
  Some ((λ q : nat * NodeID, Z.of_nat q.1)
          <$> list_find (λ x, x = cursor c) (visible_lines c)).
Proof.
  unfold find_cursor. rewrite find_cursor_loop_lines.
  - by rewrite stack_lines_root.
  - repeat constructor. rewrite (wf_root _ Hwf).
    destruct (wf_root_node _ Hwf) as (n & Hl & _). eauto.
  - rewrite stack_lines_root. simpl.
    pose proof (vis_length (size st) (root c)). unfold visible_lines. lia.
Qed.

(** All proper ancestors of a node in the visible traversal are expanded. *)
Lemma visible_up_expanded x k a na :
  visible st x → up (S k) st x = Some a → st !! a = Some na →
  expanded na = true.
Proof.
  revert x. induction k as [|k IH]; intros x Hv; simpl.
  - destruct (st !! x) as [n|] eqn:Hl; simpl; [|done].
    destruct (parent n) as [p|] eqn:Hp; simpl; [|done]. intros [= ->] Hla.
    destruct (visible_parent _ _ _ Hv Hl Hp) as (pn & Hlp & He & _).
    congruence.
  - destruct (st !! x) as [n|] eqn:Hl; simpl; [|done].
    destruct (parent n) as [p|] eqn:Hp; simpl; [|done].
    destruct (visible_parent _ _ _ Hv Hl Hp) as (pn & Hlp & He & Hvp).
    intros Hup Hla. by apply (IH p Hvp).
Qed.

Lemma find_cursor_hidden k a na :
  up (S k) st (cursor c) = Some a → st !! a = Some na → expanded na = false →
  find_cursor c = Some None.
Proof.
  intros Hup Hla He. rewrite find_cursor_position.
  rewrite (proj2 (list_find_None _ _)); [done|].
  apply Forall_forall. intros x Hx ->.
  apply visible_lines_visible in Hx.
  rewrite (visible_up_expanded _ _ _ _ Hx Hup Hla) in He. done.
Qed.

(** ** [next_node] steps through the visible traversal *)

Lemma ancestors_stable f i :
  (i ≤ f)%nat → ancestors f st i = ancestors (S f) st i.
Proof.
  revert i. induction f as [|f IH]; intros i Hi.
  - simpl. destruct (st !! i) as [n|] eqn:Hl; simpl; [|done].
    destruct (parent n) as [p|] eqn:Hp; [|done].
    destruct (wf_parent _ Hwf _ _ _ Hl Hp) as [Hlt _]. lia.
  - change (ancestors (S (S f)) st i) with
      (match st !! i ≫= parent with
       | Some p => p :: ancestors (S f) st p
       | None => []
       end).
    simpl. destruct (st !! i) as [n|] eqn:Hl; simpl; [|done].
    destruct (parent n) as [p|] eqn:Hp; [|done]. f_equal. apply IH.
    destruct (wf_parent _ Hwf _ _ _ Hl Hp) as [Hlt _]. lia.
Qed.

Lemma next_sibling_scan_app i l1 l2 :
  i ∉ l1 → next_sibling_scan i (l1 ++ i :: l2) = head l2.
Proof.
  induction l1 as [|x l1 IH]; simpl.
  - intros _. by rewrite decide_True.
  - intros [Hx Hl1]%not_elem_of_cons. rewrite decide_False by done. auto.
Qed.

Lemma next_sibling_spec_split i n p pn l1 l2 :
  st !! i = Some n → parent n = Some p → st !! p = Some pn →
  children pn = l1 ++ i :: l2 → next_sibling_spec st i = head l2.
Proof.
  intros Hl Hp Hlp Hch.
  pose proof (next_sibling_is_spec _ _ Hl) as Hs. unfold next_sibling in Hs.
  rewrite Hl in Hs. simpl in Hs. rewrite Hp, Hlp in Hs. simpl in Hs.
  injection Hs as <-. rewrite Hch. apply next_sibling_scan_app.
  pose proof (wf_nodup _ Hwf _ _ Hlp) as Hnd. rewrite Hch in Hnd.
  apply NoDup_app in Hnd as (_ & Hdisj & _). intros Hin.
  apply (Hdisj _ Hin). apply list_elem_of_here.
Qed.

Lemma next_after_last_child i n p pn :
  st !! i = Some n → parent n = Some p → st !! p = Some pn →
  next_sibling_spec st i = None → next_after st i = next_after st p.
Proof.
  intros Hl Hp Hlp Hs. unfold next_after. rewrite Hs.
  pose proof (node_lt_size _ _ Hl) as Hlt.
  destruct (wf_parent _ Hwf _ _ _ Hl Hp) as [Hpi _].
  destruct (size st) as [|k] eqn:Hk; [lia|].
  change (ancestors (S k) st i) with
    (match st !! i ≫= parent with
     | Some p => p :: ancestors k st p
     | None => []
     end).
  rewrite Hl. simpl. rewrite Hp. simpl.
  rewrite (ancestors_stable k p) by lia.
  by destruct (next_sibling_spec st p).
Qed.

Lemma vis_head i n : st !! i = Some n → head (vis (size st) st i) = Some i.
Proof. intros Hl. by rewrite (vis_unfold _ _ Hl). Qed.

(** The visible traversal below a visible node is a segment of the lines
    of the control, followed by what [next_after] says. *)
Lemma visible_segment i :
  visible st i →
  ∃ pre post, visible_lines c = pre ++ vis (size st) st i ++ post
              ∧ head post = next_after st i.
Proof.
  induction 1 as [i n Hl Hp|i n p pn Hl Hp Hlp He Hv (pre & post & HL & Hpost)].
  - exists [], []. pose proof (wf_orphan _ Hwf _ _ Hl Hp) as Hi. subst i.
    unfold visible_lines. rewrite (wf_root _ Hwf), app_nil_r. split; [done|].
    unfold next_after, next_sibling_spec.
    rewrite (siblings_of_root _ _ Hl Hp). simpl.
    destruct (size st) as [|k]; [done|]. simpl. rewrite Hl. simpl.
    by rewrite Hp.
  - destruct (wf_parent _ Hwf _ _ _ Hl Hp) as (_ & pn' & Hlp' & Hin).
    simplify_eq. apply list_elem_of_split in Hin as (l1 & l2 & Hch).
    assert (Hhc : has_children pn = true).
    { unfold has_children. rewrite Hch. by destruct l1. }
    rewrite (vis_unfold _ _ Hlp), Hhc, He, Hch in HL. simpl in HL.
    rewrite bind_app, bind_cons in HL.
    exists (pre ++ p :: (l1 ≫= vis (size st) st)),
           ((l2 ≫= vis (size st) st) ++ post).
    split; [by rewrite HL, <-!app_assoc|].
    pose proof (next_sibling_spec_split _ _ _ _ _ _ Hl Hp Hlp Hch) as Hs.
    destruct l2 as [|s l2].
    + simpl. rewrite Hpost. symmetry.
      by eapply next_after_last_child.
    + rewrite bind_cons. simpl in Hs.
      destruct (wf_child _ Hwf p pn s Hlp) as (ns & Hls & _).
      { rewrite Hch. apply elem_of_app. right.
        apply list_elem_of_further, list_elem_of_here. }
      rewrite (vis_unfold _ _ Hls). simpl. unfold next_after. by rewrite Hs.
Qed.

Lemma lookup_after_middle {A} (l1 l2 : list A) x :
  (l1 ++ x :: l2) !! S (length l1) = head l2.
Proof.
  rewrite lookup_app_r by lia.
  replace (S (length l1) - length l1)%nat with 1%nat by lia.
  by destruct l2.
Qed.

(** The node after line [k] is [next_node] of the node at line [k]. *)
Lemma lines_next k i :
  visible_lines c !! k = Some i →
  next_node st i = Some (visible_lines c !! S k).
Proof.
  intros Hk.
  assert (Hin : i ∈ visible_lines c) by by eapply list_elem_of_lookup_2.
  destruct (vis_in_store _ _ _ Hin) as [n Hl].
  destruct (visible_segment i (visible_lines_visible _ Hin))
    as (pre & post & HL & Hpost).
  rewrite (next_node_is_spec _ _ Hl). f_equal.
  rewrite (vis_unfold _ _ Hl) in HL. simpl in HL.
  assert (k = length pre) as ->.
  { eapply NoDup_lookup; [apply (vis_NoDup (size st) (root c))|exact Hk|].
    fold (visible_lines c). rewrite HL. by apply list_lookup_middle. }
  rewrite HL, lookup_after_middle.
  unfold next_node_spec. rewrite Hl, (andb_comm (expanded n)).
  destruct (has_children n && expanded n) eqn:E.
  - apply andb_true_iff in E as [Hhc _]. unfold has_children in Hhc.
    destruct (children n) as [|ch l] eqn:Hch; [done|]. simpl.
    destruct (wf_child _ Hwf i n ch Hl) as (nc & Hlc & _).
    { rewrite Hch. apply list_elem_of_here. }
    by rewrite (vis_unfold _ _ Hlc).
  - simpl. by rewrite Hpost.
Qed.

(** ** Moving the cursor keeps [cursor_line] right *)

Lemma find_cursor_Some z :
  find_cursor c = Some (Some z) ↔
  ∃ k, z = Z.of_nat k ∧ visible_lines c !! k = Some (cursor c).
Proof.
  rewrite find_cursor_position. split.
  - destruct (list_find _ _) as [[k y]|] eqn:Hf; simpl; [|done].
    intros [= <-]. apply list_find_Some in Hf as (Hk & -> & _). eauto.
  - intros (k & -> & Hk).
    rewrite (proj2 (list_find_Some (λ x, x = cursor c) _ k (cursor c))); [done|].
    split_and!; [done|done|]. intros j y Hj Hlt ->.
    pose proof (NoDup_lookup _ _ _ _ (vis_NoDup (size st) (root c)) Hj Hk). lia.
Qed.

Lemma previous_node_root n :
  st !! 0%nat = Some n → previous_node st 0 = Some None.
Proof.
  intros Hl. destruct (wf_root_node _ Hwf) as (n' & Hl' & Hp). simplify_eq.
  unfold previous_node, previous_sibling. rewrite Hl. simpl. by rewrite Hp.
Qed.

Lemma lines_head : visible_lines c !! 0%nat = Some 0%nat.
Proof.
  destruct (wf_root_node _ Hwf) as (n & Hl & _). unfold visible_lines.
  rewrite (wf_root _ Hwf), (vis_unfold _ _ Hl). done.
Qed.

Lemma visible_in_lines i : visible st i → i ∈ visible_lines c.
Proof.
  intros Hv. assert (Hl : ∃ n, st !! i = Some n) by (inversion Hv; eauto).
  destruct Hl as [n Hl].
  destruct (visible_segment i Hv) as (pre & post & -> & _).
  rewrite (vis_unfold _ _ Hl). apply elem_of_app. right. apply list_elem_of_here.
Qed.

End Traversal.

Section Lines.
Context {D : Type}.
Implicit Types (st : gmap NodeID (TreeNode D)) (c : TreeControl D).

Lemma cursor_down_line_ok c c' :
  wf c → line_ok c → cursor_down c = Some c' → line_ok c'.
Proof.
  intros Hwf Hok Hd. pose proof (cursor_down_wf _ _ Hwf Hd) as Hwf'.
  destruct (show_cursor c) eqn:Hs.
  - destruct (cursor_down_shown c Hwf Hs) as (o & Ho & Hd').
    rewrite Hd' in Hd. injection Hd as <-. destruct o as [nx|]; [|done].
    apply (find_cursor_Some c Hwf) in Hok as (k & Hz & Hk).
    rewrite (lines_next c Hwf _ _ Hk) in Ho. injection Ho as Ho.
    apply (find_cursor_Some _ Hwf'). exists (S k). split; [simpl; lia|done].
  - unfold cursor_down in Hd. rewrite Hs in Hd. by injection Hd as <-.
Qed.

Lemma cursor_up_line_ok c c' :
  wf c → line_ok c → cursor_up c = Some c' → line_ok c'.
Proof.
  intros Hwf Hok Hu. pose proof (cursor_up_wf _ _ Hwf Hu) as Hwf'.
  destruct (show_cursor c) eqn:Hs.
  - destruct (cursor_up_shown c Hwf Hs) as (o & Ho & Hu').
    rewrite Hu' in Hu. injection Hu as <-. destruct o as [pv|]; [|done].
    apply (find_cursor_Some c Hwf) in Hok as (k & Hz & Hk).
    destruct k as [|k].
    + rewrite (lines_head c Hwf) in Hk. injection Hk as Hk.
      destruct (wf_root_node _ Hwf) as (n & Hl & _).
      rewrite <-Hk, (previous_node_root c Hwf _ Hl) in Ho. done.
    + destruct (lookup_lt_is_Some_2 (visible_lines c) k) as [j Hj].
      { apply lookup_lt_Some in Hk. lia. }
      pose proof (lines_next c Hwf _ _ Hj) as Hn. rewrite Hk in Hn.
      assert (Hv : visible (nodes c) j).
      { apply visible_lines_visible; [done|]. by eapply list_elem_of_lookup_2. }
      assert (Hlj : ∃ nj, nodes c !! j = Some nj) by (inversion Hv; eauto).
      destruct Hlj as [nj Hlj].
      rewrite (next_previous_inverse c Hwf _ _ _ Hlj Hv Hn) in Ho.
      injection Ho as <-.
      apply (find_cursor_Some _ Hwf'). exists k. split; [simpl; lia|done].
  - unfold cursor_up in Hu. rewrite Hs in Hu. by injection Hu as <-.
Qed.

(** The prefix up to a node. *)
Lemma upto_find i l :
  list_find (λ x, x = i) l = list_find (λ x, x = i) (upto i l).
Proof.
  induction l as [|x l IH]; simpl; [done|].
  case_decide; simpl; [by rewrite decide_True|].
  by rewrite decide_False, IH.
Qed.

Lemma upto_elem i l : i ∈ upto i l ↔ i ∈ l.
Proof.
  induction l as [|x l IH]; simpl; [done|]. case_decide; subst.
  - split; intros _; apply list_elem_of_here.
  - rewrite !elem_of_cons, IH. done.
Qed.

Lemma upto_notin i l : i ∉ l → upto i l = l.
Proof.
  induction l as [|x l IH]; simpl; [done|].
  intros [Hx Hl]%not_elem_of_cons. rewrite decide_False by done.
  by rewrite IH.
Qed.

Lemma upto_app i l1 l2 :
  upto i (l1 ++ l2) = if decide (i ∈ l1) then upto i l1 else l1 ++ upto i l2.
Proof.
  induction l1 as [|x l1 IH].
  - destruct (decide (i ∈ [])) as [Hin|_]; [|done]. by apply elem_of_nil in Hin.
  - change (upto i ((x :: l1) ++ l2))
      with (if decide (x = i) then [x] else x :: upto i (l1 ++ l2)).
    change (upto i (x :: l1))
      with (if decide (x = i) then [x] else x :: upto i l1).
    destruct (decide (x = i)) as [->|Hx].
    + destruct (decide (i ∈ i :: l1)) as [_|Hn]; [done|].
      destruct Hn. apply list_elem_of_here.
    + rewrite IH. destruct (decide (i ∈ l1)) as [Hin|Hnin].
      * destruct (decide (i ∈ x :: l1)) as [_|Hn]; [done|].
        destruct Hn. by apply list_elem_of_further.
      * destruct (decide (i ∈ x :: l1)) as [[?|?]%elem_of_cons|_];
          [congruence|done|done].
Qed.

Lemma upto_bind_ext i (f g : NodeID → list NodeID) l :
  (∀ x, x ∈ l → upto i (f x) = upto i (g x)) →
  upto i (l ≫= f) = upto i (l ≫= g).
Proof.
  induction l as [|x l IH]; intros Hfg; [done|].
  rewrite !bind_cons, !upto_app.
  pose proof (Hfg x (list_elem_of_here _ _)) as Hx.
  assert (IH' : upto i (l ≫= f) = upto i (l ≫= g)).
  { apply IH. intros y Hy. by apply Hfg, list_elem_of_further. }
  destruct (decide (i ∈ f x)) as [Hin|Hnin].
  - rewrite decide_True; [done|]. by rewrite <-upto_elem, <-Hx, upto_elem.
  - rewrite decide_False by (by rewrite <-upto_elem, <-Hx, upto_elem).
    rewrite IH'. f_equal.
    rewrite <-(upto_notin i (f x)) by done. rewrite Hx. apply upto_notin.
    by rewrite <-upto_elem, <-Hx, upto_elem.
Qed.

(** Changing the store at node [i], or beyond the nodes it has, leaves the
    visible traversal as it is up to [i]. *)
Lemma vis_upto c st' i f j :
  wf c →
  (∀ x n, x ≠ i → nodes c !! x = Some n → st' !! x = Some n) →
  (is_Some (nodes c !! i) → is_Some (st' !! i)) →
  is_Some (nodes c !! j) →
  upto i (vis f st' j) = upto i (vis f (nodes c) j).
Proof.
  intros Hwf Hsame Hi. revert j. induction f as [|f IH]; intros j [nj Hlj]; [done|].
  simpl. destruct (decide (j = i)) as [->|Hne].
  - destruct Hi as [ni Hli]; [eauto|]. rewrite Hlj, Hli. simpl.
    by rewrite !decide_True.
  - rewrite Hlj, (Hsame _ _ Hne Hlj). simpl. rewrite !decide_False by done.
    f_equal. destruct (has_children nj && expanded nj); [|done].
    apply upto_bind_ext. intros ch Hch. apply IH.
    destruct (wf_child _ Hwf _ _ _ Hlj Hch) as (nc & Hlc & _). eauto.
Qed.

Lemma vis_more_fuel c f d i :
  wf c → (size (nodes c) ≤ f + i)%nat →
  vis (f + d) (nodes c) i = vis f (nodes c) i.
Proof.
  intros Hwf Hf. induction d as [|d IH].
  - by rewrite Nat.add_0_r.
  - replace (f + S d)%nat with (S (f + d)) by lia.
    rewrite <-(vis_stable c Hwf) by lia. done.
Qed.

Lemma line_ok_local c c' :
  wf c → wf c' → line_ok c →
  cursor c' = cursor c → cursor_line c' = cursor_line c →
  (size (nodes c) ≤ size (nodes c'))%nat →
  (∀ x n, x ≠ cursor c → nodes c !! x = Some n → nodes c' !! x = Some n) →
  is_Some (nodes c' !! cursor c) →
  line_ok c'.
Proof.
  intros Hwf Hwf' Hok Hcur Hline Hsize Hsame Hi. unfold line_ok in *.
  rewrite (find_cursor_position c' Hwf'), Hcur, Hline.
  rewrite (find_cursor_position c Hwf) in Hok. rewrite <-Hok. f_equal. f_equal.
  rewrite upto_find, (upto_find _ (visible_lines c)). f_equal.
  unfold visible_lines. rewrite (wf_root _ Hwf), (wf_root _ Hwf').
  destruct (wf_root_node _ Hwf) as (n0 & Hl0 & _).
  rewrite (vis_upto c (nodes c') (cursor c) (size (nodes c')) 0 Hwf Hsame);
    [|done|eauto].
  replace (size (nodes c')) with (size (nodes c) + (size (nodes c') - size (nodes c)))%nat
    by lia.
  rewrite vis_more_fuel; [done|done|lia].
Qed.

Lemma expand_line_ok c b :
  wf c → line_ok c → line_ok (expand (cursor c) b c).
Proof.
  intros Hwf Hok. destruct (wf_cursor _ Hwf) as [n Hl].
  apply (line_ok_local c); try done.
  - by apply expand_wf.
  - simpl. by rewrite size_alter.
  - intros x nx Hne Hlx. simpl. by rewrite lookup_alter_ne.
  - simpl. rewrite lookup_alter_eq, Hl. simpl. eauto.
Qed.

Lemma add_line_ok c lbl d c' :
  wf c → line_ok c → add (cursor c) lbl d c = Some c' → line_ok c'.
Proof.
  intros Hwf Hok Hadd. pose proof (add_wf _ _ _ _ _ Hwf Hadd) as Hwf'.
  unfold add, control_add in Hadd.
  destruct (nodes c !! cursor c) as [n|] eqn:Hl; simpl in Hadd; [|done].
  rewrite (wf_id _ Hwf _ _ Hl), Hl in Hadd. simpl in Hadd.
  injection Hadd as <-.
  assert (Hnew : nodes c !! S (next_id c) = None).
  { destruct (nodes c !! S (next_id c)) as [m|] eqn:Hm; [|done].
    apply (wf_dom _ Hwf) in Hm. lia. }
  apply (line_ok_local c); try done; simpl.
  - rewrite size_alter, map_size_insert_None, size_alter; [lia|].
    by rewrite lookup_alter_ne by congruence.
  - intros x nx Hne Hlx. rewrite lookup_alter_ne by done.
    rewrite lookup_insert_ne by congruence. by rewrite lookup_alter_ne.
  - rewrite lookup_alter_eq, lookup_insert_ne by congruence.
    rewrite lookup_alter_eq, Hl. simpl. eauto.
Qed.

Lemma exec_line_ok o c c' :
  wf c → line_ok c → is_local o c = true → exec o c = Some c' → line_ok c'.
Proof.
  intros Hwf Hok Hloc. destruct o as [i lbl d|i b|i| |]; simpl in *.
  - apply bool_decide_eq_true in Hloc as ->. by apply add_line_ok.
  - apply bool_decide_eq_true in Hloc as ->. intros [= <-].
    by apply expand_line_ok.
  - apply bool_decide_eq_true in Hloc as ->. unfold toggle.
    destruct (nodes c !! cursor c); simpl; [|done]. intros [= <-].
    by apply expand_line_ok.
  - by apply cursor_down_line_ok.
  - by apply cursor_up_line_ok.
Qed.

Lemma run_line_ok os c c' :
  wf c → line_ok c → all_local os c = true → run os c = Some c' → line_ok c'.
Proof.
  revert c. induction os as [|o os IH]; intros c Hwf Hok Hloc; simpl.
  - by intros [= <-].
  - simpl in Hloc. apply andb_true_iff in Hloc as [Hlo Hlos].
    destruct (exec o c) as [c1|] eqn:Hex; simpl; [|done].
    apply IH; [by eapply exec_wf|by eapply exec_line_ok|done].
Qed.

Lemma init_line_ok lbl (d : D) : line_ok (init lbl d).
Proof.
  apply (find_cursor_Some _ (init_wf lbl d)). exists 0%nat. split; [done|].
  apply lines_head, init_wf.
Qed.

End Lines.

(** ** Properties of the traversal and of the cursor *)

Section Properties.
Context {D : Type}.
Implicit Types (c : TreeControl D) (os : list (call D)).

(** C5.  On every tree a control builds, [next_node] returns, and what it
    returns is what the specification says: the first child of an expanded
    node with children; else the next sibling; else the next sibling of
    the first ancestor that has one; else none.  On the example tree, all
    nodes expanded, the nodes after the root are X, X1, X2, Y, none. *)
Theorem next_node_correct :
  (∀ os lbl d c i,
     run os (init lbl d) = Some c → is_Some (nodes c !! i) →
     next_node (nodes c) i = Some (next_node_spec (nodes c) i))
  ∧ (run (example_build ++ expand_all) (init "root" tt) = Some example_tree
     ∧ label_of example_tree <$> [1; 3; 4; 2]%nat
       = [Some "X"; Some "X1"; Some "X2"; Some "Y"]%string
     ∧ next_node (nodes example_tree) 0 = Some (Some 1%nat)
     ∧ next_node (nodes example_tree) 1 = Some (Some 3%nat)
     ∧ next_node (nodes example_tree) 3 = Some (Some 4%nat)
     ∧ next_node (nodes example_tree) 4 = Some (Some 2%nat)
     ∧ next_node (nodes example_tree) 2 = Some None).
Proof.
  split.
  - intros os lbl d c i Hrun [n Hl].
    by apply next_node_is_spec with n; [eapply built_wf|].
  - by vm_compute.
Qed.

(** C6.  On every tree a control builds, [previous_node] returns, and what
    it returns is the one result the specification describes: the last
    visible descendant of the previous sibling if there is one; else the
    parent if there is one; else none.  On the example tree, all nodes
    expanded, the node before Y is X2 and the node before X1 is X. *)
Theorem previous_node_correct :
  (∀ os lbl d c i,
     run os (init lbl d) = Some c → is_Some (nodes c !! i) →
     ∃ o, previous_node (nodes c) i = Some o
          ∧ previous_node_spec (nodes c) i o
          ∧ ∀ o', previous_node_spec (nodes c) i o' → o' = o)
  ∧ (run (example_build ++ expand_all) (init "root" tt) = Some example_tree
     ∧ label_of example_tree <$> [1; 2; 3; 4]%nat
       = [Some "X"; Some "Y"; Some "X1"; Some "X2"]%string
     ∧ previous_node (nodes example_tree) 2 = Some (Some 4%nat)
     ∧ previous_node (nodes example_tree) 3 = Some (Some 1%nat)).
Proof.
  split.
  - intros os lbl d c i Hrun [n Hl].
    by apply previous_node_is_spec with n; [eapply built_wf|].
  - by vm_compute.
Qed.


(** C8.  The fallback of the helper [last_sibling] always returns the node
    itself: its test [node.children and node.expanded] has already failed
    in the [if] above it.  So [previous_node] is the same function as the
    version whose helper falls back to the node. *)
Theorem last_sibling_fallback_is_node :
  (∀ (n : TreeNode D) (node : NodeID),
     expanded n && has_children n = false →
     (if has_children n && expanded n then last (children n) else Some node)
     = Some node)
  ∧ (∀ fuel (st : gmap NodeID (TreeNode D)) node,
       last_sibling fuel st node = last_sibling_simple fuel st node)
  ∧ (∀ (st : gmap NodeID (TreeNode D)) self,
       previous_node st self = previous_node_simple st self).
Proof.
  assert (Hfb : ∀ (n : TreeNode D) (node : NodeID),
     expanded n && has_children n = false →
     (if has_children n && expanded n then last (children n) else Some node)
     = Some node).
  { intros n node E. by rewrite andb_comm, E. }
  assert (Hls : ∀ fuel (st : gmap NodeID (TreeNode D)) node,
       last_sibling fuel st node = last_sibling_simple fuel st node).
  { induction fuel as [|fuel IH]; intros st node; simpl; [done|].
    destruct (st !! node) as [n|]; simpl; [|done].
    destruct (expanded n && has_children n) eqn:E.
    - destruct (last (children n)); simpl; [apply IH|done].
    - by apply Hfb. }
  split_and!; [done|done|].
  intros st self. unfold previous_node, previous_node_simple.
  destruct (previous_sibling st self) as [[s|]|]; simpl; [|done|done].
  by rewrite Hls.
Qed.

(** C10.  On every tree a control builds, for a node [i] in the visible
    traversal (all its ancestors expanded): if [next_node] of [i] is [m]
    then [previous_node] of [m] is [i]. *)
Theorem previous_node_of_next_node os lbl d c i m :
  run os (init lbl d) = Some c → visible (nodes c) i →
  next_node (nodes c) i = Some (Some m) →
  previous_node (nodes c) m = Some (Some i).
Proof.
  intros Hwf%built_wf Hv Hn.
  assert (Hl : ∃ n, nodes c !! i = Some n) by (inversion Hv; eauto).
  destruct Hl as [n Hl]. by eapply next_previous_inverse.
Qed.

(** On every tree a control builds, [find_cursor] returns, and what it
    returns is the line of the cursor node in the visible traversal.  The
    lines of that traversal are the nodes all of whose ancestors are
    expanded, each once, the root first and each followed by its
    [next_node]; [find_cursor] gives the index of the cursor node among them
    when it is there, and none when it is not. *)
Theorem find_cursor_line os lbl d c :
  run os (init lbl d) = Some c →
  (∀ i, i ∈ visible_lines c ↔ visible (nodes c) i)
  ∧ NoDup (visible_lines c)
  ∧ visible_lines c !! 0%nat = Some (root c)
  ∧ (∀ k i, visible_lines c !! k = Some i →
       next_node (nodes c) i = Some (visible_lines c !! S k))
  ∧ (visible (nodes c) (cursor c) →
       ∃ k, find_cursor c = Some (Some (Z.of_nat k))
            ∧ visible_lines c !! k = Some (cursor c))
  ∧ (¬ visible (nodes c) (cursor c) → find_cursor c = Some None).
Proof.
  intros Hwf%built_wf. split_and!.
  - intros i. split; [by apply visible_lines_visible|by apply visible_in_lines].
  - by apply vis_NoDup.
  - rewrite (wf_root _ Hwf). by apply lines_head.
  - by apply lines_next.
  - intros Hv. apply (visible_in_lines c Hwf) in Hv.
    apply list_elem_of_lookup_1 in Hv as [k Hk]. exists k. split; [|done].
    apply (find_cursor_Some c Hwf). eauto.
  - intros Hnv. rewrite (find_cursor_position c Hwf).
    rewrite (proj2 (list_find_None _ _)); [done|].
    apply Forall_forall. intros x Hx ->. by apply Hnv, visible_lines_visible.
Qed.

(** On every tree a control builds, [find_cursor] returns none when an
    ancestor of the cursor node is collapsed. *)
Theorem find_cursor_none_when_collapsed os lbl d c k a na :
  run os (init lbl d) = Some c →
  up (S k) (nodes c) (cursor c) = Some a →
  nodes c !! a = Some na → expanded na = false →
  find_cursor c = Some None.
Proof. intros Hwf%built_wf. by apply find_cursor_hidden. Qed.

(** When every node that is added to, expanded or collapsed is the cursor
    node of the moment, [cursor_line] stays the line that [find_cursor]
    finds, whatever the cursor moves in between: the lines up to the cursor
    do not change, and [cursor_down] and [cursor_up] step by one line. *)
Theorem cursor_line_consistent os lbl d c :
  run os (init lbl d) = Some c → all_local os (init lbl d) = true →
  find_cursor c = Some (Some (cursor_line c)).
Proof.
  intros Hrun Hloc.
  by apply (run_line_ok os (init lbl d) c (init_wf lbl d) (init_line_ok lbl d)).
Qed.

End Properties.

(** C4 on the code.  [expand] does not touch [cursor_line].  After the
    cursor has walked down to Y (line 2, X collapsed), expanding X leaves
    the cursor shown and on Y, which is still in the visible traversal, now
    at line 4; [cursor_line] still holds 2.  Likewise collapsing X after
    the cursor has reached Y at line 4 leaves [cursor_line] at 4 while
    [find_cursor] finds line 2. *)
Theorem cursor_line_stale_after_expand :
  (run stale_line_calls (init "root" tt) = Some (after stale_line_calls)
   ∧ show_cursor (after stale_line_calls) = true
   ∧ label_of (after stale_line_calls) (cursor (after stale_line_calls))
     = Some "Y"%string
   ∧ visible (nodes (after stale_line_calls)) (cursor (after stale_line_calls))
   ∧ find_cursor (after stale_line_calls) = Some (Some 4)
   ∧ cursor_line (after stale_line_calls) = 2)
  ∧ (run stale_line_calls_collapse (init "root" tt)
       = Some (after stale_line_calls_collapse)
     ∧ show_cursor (after stale_line_calls_collapse) = true
     ∧ label_of (after stale_line_calls_collapse)
         (cursor (after stale_line_calls_collapse)) = Some "Y"%string
     ∧ visible (nodes (after stale_line_calls_collapse))
         (cursor (after stale_line_calls_collapse))
     ∧ find_cursor (after stale_line_calls_collapse) = Some (Some 2)
     ∧ cursor_line (after stale_line_calls_collapse) = 4).
Proof.
  split.
  - split_and!; try by vm_compute.
    eapply visible_child; [by vm_compute..|].
    eapply visible_root; by vm_compute.
  - split_and!; try by vm_compute.
    eapply visible_child; [by vm_compute..|].
    eapply visible_root; by vm_compute.
Qed.

(** ** A change at one node changes one block of lines *)

Section Blocks.
Context {D : Type}.
Implicit Types (st : gmap NodeID (TreeNode D)) (c : TreeControl D).
Implicit Types (n pn : TreeNode D) (i j : nat).

Lemma vis_enough c f j :
  wf c → (size (nodes c) ≤ f + j)%nat →
  vis f (nodes c) j = vis (size (nodes c)) (nodes c) j.
Proof.
  intros Hwf Hf. destruct (decide (f ≤ size (nodes c))%nat) as [Hle|Hgt].
  - rewrite <-(vis_more_fuel c f (size (nodes c) - f) j Hwf Hf).
    f_equal. lia.
  - rewrite <-(vis_more_fuel c (size (nodes c)) (f - size (nodes c)) j Hwf)
      by lia.
    f_equal. lia.
Qed.

Section Two.
Context (c c' : TreeControl D) (Hwf : wf c) (i : NodeID).
Hypothesis Hsame :
  ∀ x n, x ≠ i → nodes c !! x = Some n → nodes c' !! x = Some n.

(** Below a node whose lines do not reach [i], nothing changes. *)
Lemma vis_outside_fuel f j :
  is_Some (nodes c !! j) → i ∉ vis f (nodes c) j →
  vis f (nodes c') j = vis f (nodes c) j.
Proof.
  revert j. induction f as [|f IH]; intros j [n Hj] Hni; [done|].
  simpl in *. rewrite Hj in *.
  assert (Hne : j ≠ i).
  { intros ->. apply Hni, list_elem_of_here. }
  rewrite (Hsame _ _ Hne Hj). f_equal.
  destruct (has_children n && expanded n); [|done].
  apply bind_ext_in. intros ch Hch. apply IH.
  - destruct (wf_child _ Hwf _ _ _ Hj Hch) as (nc & Hlc & _). eauto.
  - intros Hin. apply Hni, list_elem_of_further, list_elem_of_bind. eauto.
Qed.

(** Below a node whose lines reach [i], the lines of [i] are one block,
    and only that block changes. *)
Lemma vis_block_fuel f j :
  is_Some (nodes c !! j) → i ∈ vis f (nodes c) j →
  ∃ pre post f0, (f + j ≤ f0 + i)%nat
    ∧ vis f (nodes c) j = pre ++ vis f0 (nodes c) i ++ post
    ∧ vis f (nodes c') j = pre ++ vis f0 (nodes c') i ++ post.
Proof.
  revert j. induction f as [|f IH]; intros j [n Hj] Hin;
    [by apply elem_of_nil in Hin|].
  destruct (decide (j = i)) as [->|Hne].
  { exists [], [], (S f). by rewrite !app_nil_r. }
  pose proof (vis_NoDup c Hwf (S f) j) as Hnd.
  simpl in Hin, Hnd |- *. rewrite Hj in *. rewrite (Hsame _ _ Hne Hj).
  apply elem_of_cons in Hin as [->|Hin]; [done|].
  apply NoDup_cons in Hnd as [_ Hnd].
  destruct (has_children n && expanded n); [|by apply elem_of_nil in Hin].
  apply list_elem_of_bind in Hin as (ch & Hin & Hch).
  apply list_elem_of_split in Hch as (l1 & l2 & Hl).
  assert (Hchn : ∀ x, x ∈ children n → is_Some (nodes c !! x)).
  { intros x Hx. destruct (wf_child _ Hwf _ _ _ Hj Hx) as (nc & Hlc & _). eauto. }
  assert (Hgt : (j < ch)%nat).
  { apply (child_gt c Hwf _ _ _ Hj). rewrite Hl. set_solver. }
  rewrite Hl in Hnd, Hchn |- *. rewrite !bind_app, !bind_cons in Hnd |- *.
  apply NoDup_app in Hnd as (_ & Hd1 & Hnd).
  apply NoDup_app in Hnd as (_ & Hd2 & _).
  destruct (IH ch) as (pre & post & f0 & Hf0 & Hv & Hv'); [|done|].
  { apply Hchn. set_solver. }
  assert (H1 : l1 ≫= vis f (nodes c') = l1 ≫= vis f (nodes c)).
  { apply bind_ext_in. intros x Hx. apply vis_outside_fuel.
    - apply Hchn. set_solver.
    - intros Hix. apply (Hd1 i); [apply list_elem_of_bind; eauto|].
      apply elem_of_app. by left. }
  assert (H2 : l2 ≫= vis f (nodes c') = l2 ≫= vis f (nodes c)).
  { apply bind_ext_in. intros x Hx. apply vis_outside_fuel.
    - apply Hchn. set_solver.
    - intros Hix. apply (Hd2 i); [done|]. apply list_elem_of_bind. eauto. }
  exists (j :: (l1 ≫= vis f (nodes c)) ++ pre),
    (post ++ (l2 ≫= vis f (nodes c))), f0.
  split; [lia|]. split.
  - rewrite Hv. simpl. f_equal. by rewrite <-!app_assoc.
  - rewrite bind_app, bind_cons, H1, H2, Hv'. simpl. f_equal.
    by rewrite <-!app_assoc.
Qed.

Context (Hwf' : wf c').

Lemma vis_outside j :
  is_Some (nodes c !! j) → i ∉ vis (size (nodes c)) (nodes c) j →
  vis (size (nodes c')) (nodes c') j = vis (size (nodes c)) (nodes c) j.
Proof.
  intros Hj Hni. set (F := (size (nodes c) + size (nodes c'))%nat).
  rewrite <-(vis_enough c F j Hwf), <-(vis_enough c' F j Hwf') by (unfold F; lia).
  apply vis_outside_fuel; [done|].
  rewrite (vis_enough c F j Hwf) by (unfold F; lia). done.
Qed.

Lemma lines_outside :
  root c' = root c → i ∉ visible_lines c → visible_lines c' = visible_lines c.
Proof.
  intros Hr Hni. unfold visible_lines in *. rewrite Hr. apply vis_outside; [|done].
  rewrite (wf_root _ Hwf). destruct (wf_root_node _ Hwf) as (n & Hl & _). eauto.
Qed.

Lemma lines_block :
  i ∈ visible_lines c →
  ∃ pre post,
    visible_lines c = pre ++ vis (size (nodes c)) (nodes c) i ++ post
    ∧ visible_lines c' = pre ++ vis (size (nodes c')) (nodes c') i ++ post.
Proof.
  intros Hin. unfold visible_lines in *.
  rewrite (wf_root _ Hwf) in *. rewrite (wf_root _ Hwf').
  set (F := (size (nodes c) + size (nodes c'))%nat).
  rewrite <-(vis_enough c F 0 Hwf) in Hin |- * by (unfold F; lia).
  rewrite <-(vis_enough c' F 0 Hwf') by (unfold F; lia).
  destruct (vis_block_fuel F 0) as (pre & post & f0 & Hf0 & Hv & Hv'); [|done|].
  { destruct (wf_root_node _ Hwf) as (n & Hl & _). eauto. }
  exists pre, post.
  rewrite <-(vis_enough c f0 i Hwf), <-(vis_enough c' f0 i Hwf')
    by (unfold F in Hf0; lia).
  done.
Qed.

End Two.

(** The lines of a node after [expand]. *)
Lemma expand_block c i n b :
  wf c → nodes c !! i = Some n →
  vis (size (nodes (expand i b c))) (nodes (expand i b c)) i
  = i :: (if has_children n && b
          then children n ≫= vis (size (nodes c)) (nodes c) else []).
Proof.
  intros Hwf Hi. pose proof (expand_wf i b c Hwf) as Hwf'.
  assert (Hi' : nodes (expand i b c) !! i = Some (with_expanded b n)).
  { simpl. by rewrite lookup_alter_eq, Hi. }
  rewrite (vis_unfold _ Hwf' _ _ Hi'). f_equal.
  change (has_children (with_expanded b n)) with (has_children n).
  change (expanded (with_expanded b n)) with b.
  change (children (with_expanded b n)) with (children n).
  destruct (has_children n && b); [|done].
  apply bind_ext_in. intros ch Hch. apply (vis_outside c _ Hwf i); [|done| |].
  - intros x nx Hne Hx. simpl. by rewrite lookup_alter_ne.
  - destruct (wf_child _ Hwf _ _ _ Hi Hch) as (nc & Hlc & _). eauto.
  - intros Hin%(vis_ge c Hwf). pose proof (child_gt c Hwf _ _ _ Hi Hch). lia.
Qed.

(** What [add] leaves. *)
Lemma add_nodes c i n lbl (d : D) :
  wf c → nodes c !! i = Some n →
  ∃ c', add i lbl d c = Some c' ∧ wf c'
    ∧ next_id c' = S (next_id c)
    ∧ nodes c' !! S (next_id c)
      = Some (mkNode (Some i) (S (next_id c)) lbl d false false false [])
    ∧ nodes c' !! i
      = Some (with_empty false (append_child (S (next_id c)) n))
    ∧ (∀ j, j ≠ i → j ≠ S (next_id c) → nodes c' !! j = nodes c !! j)
    ∧ root c' = root c ∧ cursor c' = cursor c
    ∧ cursor_line c' = cursor_line c ∧ show_cursor c' = show_cursor c.
Proof.
  intros Hwf Hi.
  assert (Hnew : nodes c !! S (next_id c) = None).
  { destruct (nodes c !! S (next_id c)) as [m|] eqn:Hm; [|done].
    apply (wf_dom _ Hwf) in Hm. lia. }
  assert (Hne : i ≠ S (next_id c)) by congruence.
  destruct (add i lbl d c) as [c'|] eqn:Hadd.
  2:{ unfold add, control_add in Hadd. rewrite Hi in Hadd. simpl in Hadd.
      rewrite (wf_id _ Hwf _ _ Hi), Hi in Hadd. done. }
  exists c'. split; [done|]. split; [by eapply add_wf|].
  unfold add, control_add in Hadd. rewrite Hi in Hadd. simpl in Hadd.
  rewrite (wf_id _ Hwf _ _ Hi), Hi in Hadd. simpl in Hadd.
  injection Hadd as <-. cbn [next_id nodes root cursor cursor_line show_cursor
    with_nodes with_next_id].
  split_and!; try done.
  - rewrite lookup_alter_ne, lookup_insert_eq by done. done.
  - rewrite lookup_alter_eq, lookup_insert_ne, lookup_alter_eq, Hi by done. done.
  - intros j Hj Hj'.
    by rewrite lookup_alter_ne, lookup_insert_ne, lookup_alter_ne.
Qed.

(** The lines of a node after [add]. *)
Lemma add_block c i n lbl (d : D) c' :
  wf c → nodes c !! i = Some n → add i lbl d c = Some c' →
  vis (size (nodes c')) (nodes c') i
  = vis (size (nodes c)) (nodes c) i
    ++ (if expanded n then [S (next_id c)] else []).
Proof.
  intros Hwf Hi Hadd.
  destruct (add_nodes c i n lbl d Hwf Hi)
    as (c1 & Hadd1 & Hwf' & _ & Hnew & Hi' & Hoth & _).
  rewrite Hadd in Hadd1. injection Hadd1 as <-.
  assert (Hsame : ∀ x nx, x ≠ i → nodes c !! x = Some nx →
                          nodes c' !! x = Some nx).
  { intros x nx Hne Hx. rewrite Hoth; [done|done|].
    intros ->. apply (wf_dom _ Hwf) in Hx. lia. }
  rewrite (vis_unfold _ Hwf' _ _ Hi'), (vis_unfold _ Hwf _ _ Hi).
  change (expanded (with_empty false (append_child (S (next_id c)) n)))
    with (expanded n).
  change (children (with_empty false (append_child (S (next_id c)) n)))
    with (children n ++ [S (next_id c)]).
  assert (Hhas : has_children
            (with_empty false (append_child (S (next_id c)) n)) = true).
  { unfold has_children. simpl. by destruct (children n). }
  rewrite Hhas. simpl. f_equal.
  assert (Hold : children n ≫= vis (size (nodes c')) (nodes c')
                 = children n ≫= vis (size (nodes c)) (nodes c)).
  { apply bind_ext_in. intros ch Hch. apply (vis_outside c _ Hwf i); [done|done| |].
    - destruct (wf_child _ Hwf _ _ _ Hi Hch) as (nc & Hlc & _). eauto.
    - intros Hin%(vis_ge c Hwf). pose proof (child_gt c Hwf _ _ _ Hi Hch). lia. }
  destruct (expanded n).
  - rewrite bind_app, Hold. rewrite andb_true_r.
    assert (Hb : [S (next_id c)] ≫= vis (size (nodes c')) (nodes c')
                 = [S (next_id c)]).
    { rewrite bind_cons, (vis_unfold _ Hwf' _ _ Hnew). done. }
    rewrite Hb. unfold has_children. destruct (children n); done.
  - rewrite andb_false_r. done.
Qed.

End Blocks.

(** ** The structure of the tree, and the cursor along its lines *)

Section Structure.
Context {D : Type}.
Implicit Types (st : gmap NodeID (TreeNode D)) (c : TreeControl D).
Implicit Types (os : list (call D)) (n pn : TreeNode D) (i j p k : nat).

(** The ids in use are those up to the counter. *)
Lemma wf_dom_all c i : wf c → (i ≤ next_id c)%nat → is_Some (nodes c !! i).
Proof.
  intros Hwf Hi. apply elem_of_dom.
  assert (Heq : dom (nodes c) ≡ (set_seq 0 (S (next_id c)) : gset nat)).
  { apply set_subseteq_size_equiv.
    - intros x [n Hx]%elem_of_dom. apply elem_of_set_seq.
      pose proof (wf_dom _ Hwf _ _ Hx). lia.
    - by rewrite size_set_seq, size_dom, (wf_size _ Hwf). }
  apply Heq, elem_of_set_seq. lia.
Qed.

Lemma cursor_down_nodes c c' : cursor_down c = Some c' → nodes c' = nodes c.
Proof.
  unfold cursor_down. destruct (show_cursor c); simpl; [|by intros [= <-]].
  destruct (nodes c !! cursor c); simpl; [|done].
  destruct (next_node _ _) as [[nx|]|]; simpl; [| |done].
  - destruct (nodes c !! nx); simpl; [|done]. by intros [= <-].
  - by intros [= <-].
Qed.

Lemma cursor_up_nodes c c' : cursor_up c = Some c' → nodes c' = nodes c.
Proof.
  unfold cursor_up. destruct (show_cursor c); simpl; [|by intros [= <-]].
  destruct (nodes c !! cursor c); simpl; [|done].
  destruct (previous_node _ _) as [[nx|]|]; simpl; [| |done].
  - destruct (nodes c !! nx); simpl; [|done]. by intros [= <-].
  - by intros [= <-].
Qed.

Lemma alter_plain (f : TreeNode D → TreeNode D) i c :
  (∀ n, empty n = false → empty (f n) = false) →
  (∀ n, loaded (f n) = loaded n) →
  plain c → plain (with_nodes (alter f i (nodes c)) c).
Proof.
  intros He Hl Hp j n. simpl. destruct (decide (j = i)) as [->|Hne].
  - rewrite lookup_alter_eq. destruct (nodes c !! i) as [n0|] eqn:Hi; [|done].
    intros [= <-]. destruct (Hp _ _ Hi). rewrite Hl. split; [by apply He|done].
  - rewrite lookup_alter_ne by done. apply Hp.
Qed.

Lemma exec_plain o c c' : plain c → exec o c = Some c' → plain c'.
Proof.
  intros Hp. destruct o as [i lbl d|i b|i| |]; simpl.
  - unfold add, control_add. destruct (nodes c !! i) as [n|]; [|done].
    cbn [mbind option_bind]. destruct (nodes c !! node_id n) as [n'|]; [|done].
    cbn [mbind option_bind]. intros [= <-].
    set (m1 := <[S (next_id c) := _]> (alter _ _ (nodes c))).
    apply (alter_plain (with_empty false) i
             (with_nodes m1 (with_next_id (S (next_id c)) c))); [done|done|].
    intros j nj. cbn [nodes with_nodes with_next_id]. unfold m1.
    destruct (decide (j = S (next_id c))) as [->|Hne].
    + rewrite lookup_insert_eq. by intros [= <-].
    + rewrite lookup_insert_ne by done.
      apply (alter_plain (append_child (S (next_id c))) (node_id n) c); done.
  - intros [= <-]. by apply alter_plain.
  - unfold toggle. destruct (nodes c !! i); simpl; [|done]. intros [= <-].
    by apply alter_plain.
  - intros Hn%cursor_down_nodes. unfold plain. by rewrite Hn.
  - intros Hn%cursor_up_nodes. unfold plain. by rewrite Hn.
Qed.

Lemma run_plain os c c' : plain c → run os c = Some c' → plain c'.
Proof.
  revert c. induction os as [|o os IH]; intros c Hp; simpl.
  - by intros [= <-].
  - destruct (exec o c) as [c1|] eqn:Hex; simpl; [|done].
    apply IH. by eapply exec_plain.
Qed.

Lemma position_lookup (l : list NodeID) k i :
  NoDup l → l !! k = Some i → position i l = Some k.
Proof.
  intros Hnd Hk. unfold position.
  rewrite (proj2 (list_find_Some (λ x, x = i) l k i)); [done|].
  split_and!; [done|done|]. intros j y Hj Hlt ->.
  pose proof (NoDup_lookup _ _ _ _ Hnd Hj Hk). lia.
Qed.

(** The cursor one line down, one line up. *)
Lemma cursor_down_lines c k :
  wf c → show_cursor c = true → visible_lines c !! k = Some (cursor c) →
  cursor_down c = Some
    match visible_lines c !! S k with
    | Some nx => with_cursor nx (with_cursor_line (cursor_line c + 1) c)
    | None => c
    end.
Proof.
  intros Hwf Hs Hk. destruct (cursor_down_shown c Hwf Hs) as (o & Ho & ->).
  rewrite (lines_next c Hwf _ _ Hk) in Ho. by injection Ho as <-.
Qed.

Lemma cursor_up_lines c k :
  wf c → show_cursor c = true → visible_lines c !! k = Some (cursor c) →
  cursor_up c = Some
    match k with
    | S j =>
        match visible_lines c !! j with
        | Some pv => with_cursor pv (with_cursor_line (cursor_line c - 1) c)
        | None => c
        end
    | O => c
    end.
Proof.
  intros Hwf Hs Hk. destruct (cursor_up_shown c Hwf Hs) as (o & Ho & ->).
  destruct k as [|j].
  - rewrite (lines_head c Hwf) in Hk. injection Hk as Hk.
    destruct (wf_root_node _ Hwf) as (n & Hl & _).
    rewrite <-Hk, (previous_node_root c Hwf _ Hl) in Ho. by injection Ho as <-.
  - destruct (lookup_lt_is_Some_2 (visible_lines c) j) as [pj Hj].
    { apply lookup_lt_Some in Hk. lia. }
    pose proof (lines_next c Hwf _ _ Hj) as Hn. rewrite Hk in Hn.
    assert (Hv : visible (nodes c) pj).
    { apply visible_lines_visible; [done|]. by eapply list_elem_of_lookup_2. }
    assert (Hlj : ∃ nj, nodes c !! pj = Some nj) by (inversion Hv; eauto).
    destruct Hlj as [nj Hlj].
    rewrite (next_previous_inverse c Hwf _ _ _ Hlj Hv Hn) in Ho.
    injection Ho as <-. by rewrite Hj.
Qed.

Lemma with_cursor_wf c i : wf c → is_Some (nodes c !! i) → wf (with_cursor i c).
Proof. intros Hwf Hi. destruct Hwf. by split. Qed.

Lemma cursor_downs c k j :
  wf c → show_cursor c = true → visible_lines c !! k = Some (cursor c) →
  ∃ c', run (replicate j CursorDown) c = Some c'
    ∧ visible_lines c !! Nat.min (k + j) (length (visible_lines c) - 1)
      = Some (cursor c')
    ∧ cursor_line c'
      = cursor_line c
        + Z.of_nat (Nat.min (k + j) (length (visible_lines c) - 1) - k)
    ∧ nodes c' = nodes c ∧ show_cursor c' = true.
Proof.
  revert c k. induction j as [|j IH]; intros c k Hwf Hs Hk.
  - exists c. pose proof (lookup_lt_Some _ _ _ Hk).
    replace (Nat.min (k + 0) _) with k by lia.
    split_and!; [done|done| |done|done]. lia.
  - simpl. rewrite (cursor_down_lines c k Hwf Hs Hk). simpl.
    pose proof (lookup_lt_Some _ _ _ Hk) as Hlt.
    destruct (visible_lines c !! S k) as [nx|] eqn:Hnx.
    + pose proof (lookup_lt_Some _ _ _ Hnx) as Hlt'.
      set (c1 := with_cursor nx (with_cursor_line (cursor_line c + 1) c)).
      assert (Hwf1 : wf c1).
      { apply with_cursor_wf.
        - destruct Hwf. by split.
        - apply (vis_in_store c (size (nodes c)) (root c)).
        by eapply list_elem_of_lookup_2. }
      destruct (IH c1 (S k) Hwf1 Hs Hnx) as (c' & Hrun & Hc & Hl & Hn & Hs').
      exists c'. change (visible_lines c1) with (visible_lines c) in *.
      replace (Nat.min (k + S j) _)
        with (Nat.min (S k + j) (length (visible_lines c) - 1)) by lia.
      split_and!; [done|done| |done|done].
      rewrite Hl. change (cursor_line c1) with (cursor_line c + 1). lia.
    + apply lookup_ge_None in Hnx.
      destruct (IH c k Hwf Hs Hk) as (c' & Hrun & Hc & Hl & Hn & Hs').
      exists c'.
      replace (Nat.min (k + S j) _)
        with (Nat.min (k + j) (length (visible_lines c) - 1)) by lia.
      by split_and!.
Qed.

Lemma click_label_wf c i n :
  wf c → nodes c !! i = Some n →
  ∀ z, wf (with_show_cursor false (with_cursor_line z (with_cursor i c))).
Proof. intros Hwf Hi z. destruct Hwf. split; simpl; eauto. Qed.

(** ** Properties *)

(** The tree a control builds.  The ids in use are those from 0 to the
    counter, and every node is filed under its own id; the root is the one
    node without a parent; a node is among the children of its parent,
    which is older than the node, and a child of a node has that node as
    its parent; no node is twice among the children of a node; and the
    cursor names a node of the tree, so that the handlers of the keys find
    their node. *)
Theorem tree_invariants os lbl d c :
  run os (init lbl d) = Some c →
  (∀ i, is_Some (nodes c !! i) ↔ (i ≤ next_id c)%nat)
  ∧ (∀ i n, nodes c !! i = Some n → node_id n = i)
  ∧ (∀ i n, nodes c !! i = Some n → (parent n = None ↔ i = root c))
  ∧ (∀ i n p, nodes c !! i = Some n → parent n = Some p →
       (p < i)%nat ∧ ∃ pn, nodes c !! p = Some pn ∧ i ∈ children pn)
  ∧ (∀ p pn i, nodes c !! p = Some pn → i ∈ children pn →
       ∃ n, nodes c !! i = Some n ∧ parent n = Some p)
  ∧ (∀ p pn, nodes c !! p = Some pn → NoDup (children pn))
  ∧ is_Some (nodes c !! cursor c).
Proof.
  intros Hwf%built_wf. split_and!.
  - intros i. split; [|by apply wf_dom_all].
    intros [n Hi]. by eapply wf_dom.
  - by apply wf_id.
  - intros i n Hi. rewrite (wf_root _ Hwf). split; [by eapply wf_orphan|].
    intros ->. destruct (wf_root_node _ Hwf) as (n0 & Hl0 & Hp0). congruence.
  - by apply wf_parent.
  - by apply wf_child.
  - by apply wf_nodup.
  - by apply wf_cursor.
Qed.

(** No node of a tree a control builds is ever marked empty or loaded:
    the two flags are unset when a node is made, and [add] unsets
    [empty] again. *)
Theorem never_empty_nor_loaded os lbl d c i n :
  run os (init lbl d) = Some c → nodes c !! i = Some n →
  empty n = false ∧ loaded n = false.
Proof.
  intros Hrun. revert i n. apply (run_plain os (init lbl d)); [|done].
  intros i n. unfold init. cbn [nodes].
  intros [<- <-]%lookup_singleton_Some. done.
Qed.

(** [toggle] twice gives the control back, and [expand] forgets the
    expansions before it. *)
Theorem toggle_twice c i n :
  nodes c !! i = Some n →
  (∃ c1, toggle i c = Some c1
         ∧ (∀ n1, nodes c1 !! i = Some n1 → expanded n1 = negb (expanded n))
         ∧ toggle i c1 = Some c)
  ∧ (∀ b b', expand i b (expand i b' c) = expand i b c).
Proof.
  intros Hi. split.
  - unfold toggle. rewrite Hi. simpl. eexists. split; [reflexivity|]. split.
    + intros n1. simpl. rewrite lookup_alter_eq, Hi. by intros [= <-].
    + simpl. rewrite lookup_alter_eq, Hi. simpl. f_equal.
      unfold expand. simpl. rewrite alter_alter_eq.
      rewrite alter_id; [by destruct c|].
      intros x Hx. assert (x = n) as -> by congruence.
      destruct n. simpl. by rewrite negb_involutive.
  - intros b b'. unfold expand. simpl. by rewrite alter_alter_eq.
Qed.

(** The siblings of a node are the children of its parent, in their
    order: the next sibling of the child at position [k] is the child at
    position [k + 1], its previous sibling the child at position [k - 1],
    none at the ends; the root has no sibling. *)
Theorem siblings_by_position os lbl d c :
  run os (init lbl d) = Some c →
  (∀ p pn k i, nodes c !! p = Some pn → children pn !! k = Some i →
     next_sibling (nodes c) i = Some (children pn !! S k)
     ∧ previous_sibling (nodes c) i
       = Some (match k with O => None | S j => children pn !! j end))
  ∧ next_sibling (nodes c) (root c) = Some None
  ∧ previous_sibling (nodes c) (root c) = Some None.
Proof.
  intros Hwf%built_wf. split_and!.
  - intros p pn k i Hp Hk.
    destruct (wf_child _ Hwf _ _ i Hp) as (n & Hi & Hpar);
      [by eapply list_elem_of_lookup_2|].
    pose proof (position_lookup _ _ _ (wf_nodup _ Hwf _ _ Hp) Hk) as Hpos.
    rewrite (next_sibling_is_spec c Hwf _ _ Hi).
    rewrite (previous_sibling_is_spec c Hwf _ _ Hi).
    unfold next_sibling_spec, previous_sibling_spec.
    rewrite (siblings_of_child c _ _ _ _ Hi Hpar Hp), Hpos. done.
  - destruct (wf_root_node _ Hwf) as (n & Hl & Hp).
    unfold next_sibling. rewrite (wf_root _ Hwf), Hl. simpl. by rewrite Hp.
  - destruct (wf_root_node _ Hwf) as (n & Hl & Hp).
    unfold previous_sibling. rewrite (wf_root _ Hwf), Hl. simpl. by rewrite Hp.
Qed.

(** With the cursor shown and on a line of the visible traversal, a
    [cursor_down] that moves the cursor is undone by [cursor_up], and a
    [cursor_up] that moves it is undone by [cursor_down]: the control is
    the same again, [cursor_line] included. *)
Theorem cursor_down_up_round_trip os lbl d c :
  run os (init lbl d) = Some c → show_cursor c = true →
  visible (nodes c) (cursor c) →
  (∀ c', cursor_down c = Some c' → cursor c' ≠ cursor c →
         cursor_up c' = Some c)
  ∧ (∀ c', cursor_up c = Some c' → cursor c' ≠ cursor c →
           cursor_down c' = Some c).
Proof.
  intros Hwf%built_wf Hs Hv. apply (visible_in_lines c Hwf) in Hv.
  apply list_elem_of_lookup_1 in Hv as [k Hk]. split.
  - intros c'. rewrite (cursor_down_lines c k Hwf Hs Hk).
    destruct (visible_lines c !! S k) as [nx|] eqn:Hnx; [|by intros [= <-]].
    intros [= <-] _.
    set (c1 := with_cursor nx (with_cursor_line (cursor_line c + 1) c)).
    assert (Hwf1 : wf c1).
    { apply with_cursor_wf.
      - destruct Hwf. by split.
      - apply (vis_in_store c (size (nodes c)) (root c)).
        by eapply list_elem_of_lookup_2. }
    rewrite (cursor_up_lines c1 (S k) Hwf1 Hs Hnx).
    change (visible_lines c1) with (visible_lines c). rewrite Hk.
    f_equal. destruct c. unfold c1, with_cursor, with_cursor_line. simpl.
    f_equal. lia.
  - intros c'. rewrite (cursor_up_lines c k Hwf Hs Hk).
    destruct k as [|j]; [by intros [= <-]|].
    destruct (visible_lines c !! j) as [pv|] eqn:Hpv; [|by intros [= <-]].
    intros [= <-] _.
    set (c1 := with_cursor pv (with_cursor_line (cursor_line c - 1) c)).
    assert (Hwf1 : wf c1).
    { apply with_cursor_wf.
      - destruct Hwf. by split.
      - apply (vis_in_store c (size (nodes c)) (root c)).
        by eapply list_elem_of_lookup_2. }
    rewrite (cursor_down_lines c1 j Hwf1 Hs Hpv).
    change (visible_lines c1) with (visible_lines c). rewrite Hk.
    f_equal. destruct c. unfold c1, with_cursor, with_cursor_line. simpl.
    f_equal. lia.
Qed.

(** With the cursor shown and on line [k] of the visible traversal, [j]
    calls of [cursor_down] put it on line [k + j], or on the last line when
    there are fewer lines, and add to [cursor_line] the number of lines
    the cursor went down; the tree is as before. *)
Theorem cursor_down_walks_lines os lbl d c k j :
  run os (init lbl d) = Some c → show_cursor c = true →
  visible_lines c !! k = Some (cursor c) →
  ∃ c', run (replicate j CursorDown) c = Some c'
    ∧ visible_lines c !! Nat.min (k + j) (length (visible_lines c) - 1)
      = Some (cursor c')
    ∧ cursor_line c'
      = cursor_line c
        + Z.of_nat (Nat.min (k + j) (length (visible_lines c) - 1) - k)
    ∧ nodes c' = nodes c ∧ show_cursor c' = true.
Proof. intros Hwf%built_wf. by apply cursor_downs. Qed.

(** [action_click_label] never returns on a tree a control builds.  On an
    id that is not in the tree it raises [KeyError] and leaves the control
    as it is.  On the id of a node it raises [NameError], having put the
    cursor on the node, hidden it, and set [cursor_line] to the index of
    the node in the visible traversal, or to 0 when the node is not in
    it; the tree is as before. *)
Theorem click_label_raises os lbl d c i :
  run os (init lbl d) = Some c →
  (nodes c !! i = None → action_click_label i c = Some RaisedKeyError)
  ∧ (is_Some (nodes c !! i) →
     ∃ c', action_click_label i c = Some (RaisedNameError c')
       ∧ cursor c' = i ∧ show_cursor c' = false ∧ nodes c' = nodes c
       ∧ next_id c' = next_id c ∧ root c' = root c
       ∧ hover_node c' = hover_node c
       ∧ cursor_line c'
         = default 0 ((λ q : nat * NodeID, Z.of_nat q.1)
                        <$> list_find (λ x, x = i) (visible_lines c))).
Proof.
  intros Hwf%built_wf. split.
  - intros Hi. unfold action_click_label. by rewrite Hi.
  - intros [n Hi]. unfold action_click_label. rewrite Hi.
    rewrite (wf_id _ Hwf _ _ Hi).
    assert (Hwf1 : wf (with_cursor i c)) by (apply with_cursor_wf; eauto).
    rewrite (find_cursor_position _ Hwf1). simpl.
    eexists. split; [reflexivity|]. by split_and!.
Qed.

(** The control a click leaves when it raises [NameError].  On a node of
    the visible traversal [cursor_line] is the line [find_cursor] finds,
    whatever [cursor_line] held before the click, and it stays that line
    in every later run in which the nodes added to, expanded or collapsed
    are the cursor node of the moment; on a node with a collapsed ancestor
    [cursor_line] is 0 and [find_cursor] finds no line. *)
Theorem click_label_restores_line os lbl d c i :
  run os (init lbl d) = Some c →
  (visible (nodes c) i →
     ∃ c', action_click_label i c = Some (RaisedNameError c')
       ∧ cursor c' = i ∧ show_cursor c' = false ∧ nodes c' = nodes c
       ∧ find_cursor c' = Some (Some (cursor_line c'))
       ∧ ∀ os' c'', all_local os' c' = true → run os' c' = Some c'' →
           find_cursor c'' = Some (Some (cursor_line c'')))
  ∧ (is_Some (nodes c !! i) → ¬ visible (nodes c) i →
     ∃ c', action_click_label i c = Some (RaisedNameError c')
       ∧ cursor c' = i ∧ show_cursor c' = false ∧ nodes c' = nodes c
       ∧ cursor_line c' = 0 ∧ find_cursor c' = Some None).
Proof.
  intros Hwf%built_wf. split_and!.
  - intros Hv. assert (Hi : ∃ n, nodes c !! i = Some n) by (inversion Hv; eauto).
    destruct Hi as [n Hi]. unfold action_click_label. rewrite Hi.
    rewrite (wf_id _ Hwf _ _ Hi).
    assert (Hwf1 : wf (with_cursor i c)) by (apply with_cursor_wf; eauto).
    apply (visible_in_lines c Hwf) in Hv.
    apply list_elem_of_lookup_1 in Hv as [k Hk].
    assert (Hf : find_cursor (with_cursor i c) = Some (Some (Z.of_nat k))).
    { apply (find_cursor_Some _ Hwf1). by exists k. }
    rewrite Hf. simpl. eexists. split; [reflexivity|].
    split_and!; [done|done|done|exact Hf|].
    intros os' c'' Hloc Hrun.
    apply (run_line_ok os'
             (with_show_cursor false
                (with_cursor_line (Z.of_nat k) (with_cursor i c))) c'');
      [by eapply click_label_wf|exact Hf|done|done].
  - intros [n Hi] Hnv. unfold action_click_label. rewrite Hi.
    rewrite (wf_id _ Hwf _ _ Hi).
    assert (Hwf1 : wf (with_cursor i c)) by (apply with_cursor_wf; eauto).
    assert (Hf : find_cursor (with_cursor i c) = Some None).
    { rewrite (find_cursor_position _ Hwf1).
      rewrite (proj2 (list_find_None _ _)); [done|].
      apply Forall_forall. intros x Hx Heq. simpl in Heq. subst x.
      by apply Hnv, (visible_lines_visible c Hwf). }
    rewrite Hf. simpl. eexists. split; [reflexivity|]. by split_and!.
Qed.

(** [expand] changes one block of lines.  When the node is in the visible
    traversal, the lines before the node and the lines after its last
    visible descendant stay, in their order, and between them are the
    node and, if it has children and is expanded by the call, the lines of
    its children as they were; when an ancestor of the node is collapsed,
    the lines stay as they are. *)
Theorem expand_changes_block os lbl d c i n b :
  run os (init lbl d) = Some c → nodes c !! i = Some n →
  (¬ visible (nodes c) i →
     visible_lines (expand i b c) = visible_lines c)
  ∧ (visible (nodes c) i →
     ∃ pre post,
       visible_lines c
       = pre ++ (i :: (if has_children n && expanded n
                       then children n ≫= vis (size (nodes c)) (nodes c)
                       else [])) ++ post
       ∧ visible_lines (expand i b c)
         = pre ++ (i :: (if has_children n && b
                         then children n ≫= vis (size (nodes c)) (nodes c)
                         else [])) ++ post).
Proof.
  intros Hwf%built_wf Hi. pose proof (expand_wf i b c Hwf) as Hwf'.
  assert (Hsame : ∀ x nx, x ≠ i → nodes c !! x = Some nx →
                          nodes (expand i b c) !! x = Some nx).
  { intros x nx Hne Hx. simpl. by rewrite lookup_alter_ne. }
  split.
  - intros Hnv. apply (lines_outside c _ Hwf i Hsame Hwf'); [done|].
    intros Hin. by apply Hnv, (visible_lines_visible c Hwf).
  - intros Hv%(visible_in_lines c Hwf).
    destruct (lines_block c _ Hwf i Hsame Hwf' Hv) as (pre & post & HL & HL').
    exists pre, post. rewrite (expand_block c i n b Hwf Hi) in HL'.
    by rewrite (vis_unfold c Hwf _ _ Hi) in HL.
Qed.

(** [add] on an id that is not in the tree raises [KeyError].  On a node
    of the tree it makes a node with the next id, collapsed and without
    children, and appends it to the children of the node; the other nodes
    and the cursor stay as they are.  The new node is a new line, right
    after the lines of the node and its descendants, when the node is
    expanded and in the visible traversal; otherwise the lines stay as
    they are. *)
Theorem add_appends_child os lbl d c i lbl' d' :
  run os (init lbl d) = Some c →
  (nodes c !! i = None → add i lbl' d' c = None)
  ∧ (∀ n, nodes c !! i = Some n →
     ∃ c', add i lbl' d' c = Some c'
       ∧ next_id c' = S (next_id c)
       ∧ nodes c' !! S (next_id c)
         = Some (mkNode (Some i) (S (next_id c)) lbl' d' false false false [])
       ∧ nodes c' !! i
         = Some (with_empty false (append_child (S (next_id c)) n))
       ∧ (∀ j, j ≠ i → j ≠ S (next_id c) → nodes c' !! j = nodes c !! j)
       ∧ cursor c' = cursor c ∧ cursor_line c' = cursor_line c
       ∧ show_cursor c' = show_cursor c
       ∧ (visible (nodes c) i → expanded n = true →
          ∃ pre post,
            visible_lines c
            = pre ++ vis (size (nodes c)) (nodes c) i ++ post
            ∧ visible_lines c'
              = pre ++ (vis (size (nodes c)) (nodes c) i
                        ++ [S (next_id c)]) ++ post)
       ∧ (¬ (visible (nodes c) i ∧ expanded n = true) →
          visible_lines c' = visible_lines c)).
Proof.
  intros Hwf%built_wf. split.
  { intros Hi. unfold add. by rewrite Hi. }
  intros n Hi.
  destruct (add_nodes c i n lbl' d' Hwf Hi)
    as (c' & Hadd & Hwf' & Hid & Hnew & Hi' & Hoth & Hroot & Hcur & Hline & Hshow).
  exists c'. split_and!; try done.
  - intros Hv%(visible_in_lines c Hwf) He.
    assert (Hsame : ∀ x nx, x ≠ i → nodes c !! x = Some nx →
                            nodes c' !! x = Some nx).
    { intros x nx Hne Hx. rewrite Hoth; [done|done|].
      intros ->. apply (wf_dom _ Hwf) in Hx. lia. }
    destruct (lines_block c c' Hwf i Hsame Hwf' Hv) as (pre & post & HL & HL').
    exists pre, post. rewrite (add_block c i n lbl' d' c' Hwf Hi Hadd), He in HL'.
    done.
  - intros Hnot.
    assert (Hsame : ∀ x nx, x ≠ i → nodes c !! x = Some nx →
                            nodes c' !! x = Some nx).
    { intros x nx Hne Hx. rewrite Hoth; [done|done|].
      intros ->. apply (wf_dom _ Hwf) in Hx. lia. }
    destruct (decide (i ∈ visible_lines c)) as [Hin|Hnin].
    + destruct (lines_block c c' Hwf i Hsame Hwf' Hin) as (pre & post & HL & HL').
      rewrite (add_block c i n lbl' d' c' Hwf Hi Hadd) in HL'.
      destruct (expanded n) eqn:He.
      * destruct Hnot. split; [|done]. by apply (visible_lines_visible c Hwf).
      * rewrite app_nil_r in HL'. congruence.
    + by apply (lines_outside c c' Hwf i Hsame Hwf').
Qed.

(** On every tree a control builds, for a node [m] of the visible
    traversal: if [previous_node] of [m] is [i], then [i] is in the
    visible traversal and [next_node] of [i] is [m]. *)
Theorem next_node_of_previous_node os lbl d c m i :
  run os (init lbl d) = Some c → visible (nodes c) m →
  previous_node (nodes c) m = Some (Some i) →
  visible (nodes c) i ∧ next_node (nodes c) i = Some (Some m).
Proof.
  intros Hwf%built_wf Hv%(visible_in_lines c Hwf) Hp.
  apply list_elem_of_lookup_1 in Hv as [k Hk]. destruct k as [|j].
  - rewrite (lines_head c Hwf) in Hk. injection Hk as <-.
    destruct (wf_root_node _ Hwf) as (n & Hl & _).
    by rewrite (previous_node_root c Hwf _ Hl) in Hp.
  - destruct (lookup_lt_is_Some_2 (visible_lines c) j) as [pj Hj].
    { apply lookup_lt_Some in Hk. lia. }
    pose proof (lines_next c Hwf _ _ Hj) as Hn. rewrite Hk in Hn.
    assert (Hvj : visible (nodes c) pj).
    { apply visible_lines_visible; [done|]. by eapply list_elem_of_lookup_2. }
    assert (Hlj : ∃ nj, nodes c !! pj = Some nj) by (inversion Hvj; eauto).
    destruct Hlj as [nj Hlj].
    rewrite (next_previous_inverse c Hwf _ _ _ Hlj Hvj Hn) in Hp.
    injection Hp as <-. done.
Qed.

(** The cursor of a control always names a node of its tree.  So
    [key_enter] finds its node and never raises [KeyError]; it raises
    [NameError] at [TreeClick], posting no message and leaving the control
    as it is.  And a node is the cursor node exactly when the cursor is
    shown and holds the id the node is filed under. *)
Theorem cursor_names_a_node os lbl d c :
  run os (init lbl d) = Some c →
  key_enter c = RaisedNameError c
  ∧ ∀ i n, nodes c !! i = Some n →
      is_cursor c n = show_cursor c && bool_decide (i = cursor c).
Proof.
  intros Hwf%built_wf. split.
  - destruct (wf_cursor _ Hwf) as [n Hn]. unfold key_enter. by rewrite Hn.
  - intros i n Hi. unfold is_cursor. rewrite (wf_id _ Hwf _ _ Hi), andb_comm.
    f_equal. apply bool_decide_ext. split; congruence.
Qed.

End Structure.

(** ** Concrete uses *)

Lemma example_tree_built :
  run (example_build ++ expand_all) (init "root" tt) = Some example_tree.
Proof. by vm_compute. Qed.

Lemma next_node_correct_witness :
  next_node (nodes example_tree) 4
  = Some (next_node_spec (nodes example_tree) 4).
Proof.
  apply (proj1 next_node_correct (example_build ++ expand_all) "root" tt).
  - by vm_compute.
  - eexists. by vm_compute.
Defined.

Lemma previous_node_correct_witness :
  ∃ o, previous_node (nodes example_tree) 2 = Some o
       ∧ previous_node_spec (nodes example_tree) 2 o
       ∧ ∀ o', previous_node_spec (nodes example_tree) 2 o' → o' = o.
Proof.
  apply (proj1 previous_node_correct (example_build ++ expand_all) "root" tt).
  - by vm_compute.
  - eexists. by vm_compute.
Defined.


Lemma previous_node_of_next_node_witness :
  previous_node (nodes example_tree) 2 = Some (Some 4%nat).
Proof.
  apply (previous_node_of_next_node (example_build ++ expand_all) "root" tt).
  - by vm_compute.
  - eapply visible_child; [by vm_compute..|].
    eapply visible_child; [by vm_compute..|].
    eapply visible_root; by vm_compute.
  - by vm_compute.
Defined.

Lemma click_label_raises_witness :
  ∃ c', action_click_label 1 (after click_calls) = Some (RaisedNameError c')
    ∧ cursor c' = 1%nat ∧ show_cursor c' = false
    ∧ nodes c' = nodes (after click_calls)
    ∧ next_id c' = next_id (after click_calls)
    ∧ root c' = root (after click_calls)
    ∧ hover_node c' = hover_node (after click_calls)
    ∧ cursor_line c'
      = default 0 ((λ q : nat * NodeID, Z.of_nat q.1)
                     <$> list_find (λ x, x = 1%nat)
                           (visible_lines (after click_calls))).
Proof.
  apply (click_label_raises click_calls "root" tt); [by vm_compute|].
  eexists. by vm_compute.
Defined.

Lemma find_cursor_line_witness :
  ∃ k, find_cursor (after stale_line_calls) = Some (Some (Z.of_nat k))
       ∧ visible_lines (after stale_line_calls) !! k
         = Some (cursor (after stale_line_calls)).
Proof.
  apply (find_cursor_line stale_line_calls "root" tt); [by vm_compute|].
  eapply visible_child; [by vm_compute..|].
  eapply visible_root; by vm_compute.
Defined.

Lemma find_cursor_none_when_collapsed_witness :
  label_of (after hidden_cursor_calls) (cursor (after hidden_cursor_calls))
  = Some "X1"%string
  ∧ find_cursor (after hidden_cursor_calls) = Some None.
Proof.
  split; [by vm_compute|].
  eapply (find_cursor_none_when_collapsed hidden_cursor_calls "root" tt _ 0 1);
    by vm_compute.
Defined.

Lemma cursor_line_consistent_witness :
  find_cursor (after local_calls) = Some (Some (cursor_line (after local_calls))).
Proof.
  apply (cursor_line_consistent local_calls "root" tt); by vm_compute.
Defined.

Lemma tree_invariants_witness :
  (∀ i, is_Some (nodes example_tree !! i) ↔ (i ≤ next_id example_tree)%nat)
  ∧ (∀ i n, nodes example_tree !! i = Some n → node_id n = i)
  ∧ (∀ i n, nodes example_tree !! i = Some n →
       (parent n = None ↔ i = root example_tree))
  ∧ (∀ i n p, nodes example_tree !! i = Some n → parent n = Some p →
       (p < i)%nat ∧ ∃ pn, nodes example_tree !! p = Some pn ∧ i ∈ children pn)
  ∧ (∀ p pn i, nodes example_tree !! p = Some pn → i ∈ children pn →
       ∃ n, nodes example_tree !! i = Some n ∧ parent n = Some p)
  ∧ (∀ p pn, nodes example_tree !! p = Some pn → NoDup (children pn))
  ∧ is_Some (nodes example_tree !! cursor example_tree).
Proof.
  apply (tree_invariants (example_build ++ expand_all) "root" tt).
  by vm_compute.
Defined.

Lemma never_empty_nor_loaded_witness :
  empty node_X = false ∧ loaded node_X = false.
Proof.
  apply (never_empty_nor_loaded (example_build ++ expand_all) "root" tt
           example_tree 1); by vm_compute.
Defined.

Lemma toggle_twice_witness :
  (∃ c1, toggle 1 example_tree = Some c1
         ∧ (∀ n1, nodes c1 !! 1%nat = Some n1 →
                  expanded n1 = negb (expanded node_X))
         ∧ toggle 1 c1 = Some example_tree)
  ∧ (∀ b b', expand 1 b (expand 1 b' example_tree) = expand 1 b example_tree).
Proof. apply (toggle_twice example_tree 1 node_X). by vm_compute. Defined.

Lemma siblings_by_position_witness :
  next_sibling (nodes example_tree) 3 = Some (Some 4%nat)
  ∧ previous_sibling (nodes example_tree) 3 = Some None.
Proof.
  apply (proj1 (siblings_by_position (example_build ++ expand_all) "root" tt
                  example_tree ltac:(by vm_compute)) 1%nat node_X 0%nat 3%nat);
    by vm_compute.
Defined.

Lemma cursor_down_up_round_trip_witness :
  (∀ c', cursor_down (after click_calls) = Some c' →
         cursor c' ≠ cursor (after click_calls) →
         cursor_up c' = Some (after click_calls))
  ∧ (∀ c', cursor_up (after click_calls) = Some c' →
           cursor c' ≠ cursor (after click_calls) →
           cursor_down c' = Some (after click_calls)).
Proof.
  apply (cursor_down_up_round_trip click_calls "root" tt).
  - by vm_compute.
  - by vm_compute.
  - eapply visible_child; [by vm_compute..|].
    eapply visible_root; by vm_compute.
Defined.

Lemma cursor_down_walks_lines_witness :
  ∃ c', run (replicate 5 CursorDown) (after shown_at_root) = Some c'
    ∧ visible_lines (after shown_at_root)
      !! Nat.min (0 + 5) (length (visible_lines (after shown_at_root)) - 1)
      = Some (cursor c')
    ∧ cursor_line c'
      = cursor_line (after shown_at_root)
        + Z.of_nat
            (Nat.min (0 + 5) (length (visible_lines (after shown_at_root)) - 1)
             - 0)
    ∧ nodes c' = nodes (after shown_at_root) ∧ show_cursor c' = true.
Proof.
  apply (cursor_down_walks_lines shown_at_root "root" tt); by vm_compute.
Defined.

Lemma click_label_restores_line_witness :
  ∃ c', action_click_label 2 (after stale_line_calls)
        = Some (RaisedNameError c')
    ∧ cursor c' = 2%nat ∧ show_cursor c' = false
    ∧ nodes c' = nodes (after stale_line_calls)
    ∧ find_cursor c' = Some (Some (cursor_line c'))
    ∧ ∀ os' c'', all_local os' c' = true → run os' c' = Some c'' →
        find_cursor c'' = Some (Some (cursor_line c'')).
Proof.
  apply (click_label_restores_line stale_line_calls "root" tt); [by vm_compute|].
  eapply visible_child; [by vm_compute..|].
  eapply visible_root; by vm_compute.
Defined.

Lemma expand_changes_block_witness :
  (¬ visible (nodes example_tree) 1 →
     visible_lines (expand 1 false example_tree) = visible_lines example_tree)
  ∧ (visible (nodes example_tree) 1 →
     ∃ pre post,
       visible_lines example_tree
       = pre ++ (1%nat :: (if has_children node_X && expanded node_X
                       then children node_X
                            ≫= vis (size (nodes example_tree))
                                   (nodes example_tree)
                       else [])) ++ post
       ∧ visible_lines (expand 1 false example_tree)
         = pre ++ (1%nat :: (if has_children node_X && false
                         then children node_X
                              ≫= vis (size (nodes example_tree))
                                     (nodes example_tree)
                         else [])) ++ post).
Proof.
  apply (expand_changes_block (example_build ++ expand_all) "root" tt);
    by vm_compute.
Defined.

Lemma add_appends_child_witness :
  (nodes example_tree !! 1%nat = None → add 1 "X3" tt example_tree = None)
  ∧ (∀ n, nodes example_tree !! 1%nat = Some n →
     ∃ c', add 1 "X3" tt example_tree = Some c'
       ∧ next_id c' = S (next_id example_tree)
       ∧ nodes c' !! S (next_id example_tree)
         = Some (mkNode (Some 1%nat) (S (next_id example_tree)) "X3" tt
                   false false false [])
       ∧ nodes c' !! 1%nat
         = Some (with_empty false (append_child (S (next_id example_tree)) n))
       ∧ (∀ j, j ≠ 1%nat → j ≠ S (next_id example_tree) →
               nodes c' !! j = nodes example_tree !! j)
       ∧ cursor c' = cursor example_tree
       ∧ cursor_line c' = cursor_line example_tree
       ∧ show_cursor c' = show_cursor example_tree
       ∧ (visible (nodes example_tree) 1 → expanded n = true →
          ∃ pre post,
            visible_lines example_tree
            = pre ++ vis (size (nodes example_tree)) (nodes example_tree) 1
                  ++ post
            ∧ visible_lines c'
              = pre ++ (vis (size (nodes example_tree)) (nodes example_tree) 1
                        ++ [S (next_id example_tree)]) ++ post)
       ∧ (¬ (visible (nodes example_tree) 1 ∧ expanded n = true) →
          visible_lines c' = visible_lines example_tree)).
Proof.
  apply (add_appends_child (example_build ++ expand_all) "root" tt).
  by vm_compute.
Defined.

Lemma next_node_of_previous_node_witness :
  visible (nodes example_tree) 4
  ∧ next_node (nodes example_tree) 4 = Some (Some 2%nat).
Proof.
  apply (next_node_of_previous_node (example_build ++ expand_all) "root" tt).
  - by vm_compute.
  - eapply visible_child; [by vm_compute..|].
    eapply visible_root; by vm_compute.
  - by vm_compute.
Defined.

Lemma cursor_names_a_node_witness :
  key_enter (after click_calls) = RaisedNameError (after click_calls)
  ∧ ∀ i n, nodes (after click_calls) !! i = Some n →
      is_cursor (after click_calls) n
      = show_cursor (after click_calls)
        && bool_decide (i = cursor (after click_calls)).
Proof. apply (cursor_names_a_node click_calls "root" tt). by vm_compute. Defined.

End TreeFacts.
